(** * accurev2git: replaying AccuRev promotions as git commits

    A shallow embedding of [accurev2git.py] (Python 2) and the properties of
    its element-status classifier, promotion handler, batched staging and
    checkpoint resolution.

    Python values are modelled as follows: [str] is [string], a list is a
    [list], [None] is [option]'s [None], a [dict] is a [gmap], and the
    transaction ids are integers in [Z].  Text primitives of the Python
    library ([os.path.dirname] of [posixpath], [str.replace], [str.strip],
    [str.find], [re.search], [int], [str.format] of an integer) work on the
    characters of the string, [list ascii]. *)

From Stdlib Require Import ZArith Ascii String Decimal DecimalString DecimalPos DecimalN.
From stdpp Require Import gmap strings list.
From Equations Require Import Equations.

Local Open Scope Z_scope.

(** ** Python text primitives *)

Module Py.

Definition chars (s : string) : list ascii := list_ascii_of_string s.
Definition str (l : list ascii) : string := string_of_list_ascii l.

Definition slash : ascii := "/"%char.
Definition backslash : ascii := "\"%char.

(** [s.replace('\\', '/')] *)
Definition replace_backslash_chars (l : list ascii) : list ascii :=
  (λ c, if Ascii.eqb c backslash then slash else c) <$> l.
Definition replace_backslash (s : string) : string :=
  str (replace_backslash_chars (chars s)).

(** [s.rfind(c)]: the highest index of [c] in [s], or [-1]. The scan keeps
    the index [i] of the current character and the last hit [acc]. *)
Fixpoint rfind_from (c : ascii) (l : list ascii) (i acc : Z) : Z :=
  match l with
  | [] => acc
  | x :: r => rfind_from c r (i + 1) (if Ascii.eqb x c then i else acc)
  end.
Definition rfind (c : ascii) (l : list ascii) : Z := rfind_from c l 0 (-1).

(** [s.rstrip('/')] *)
Fixpoint rstrip_slash (l : list ascii) : list ascii :=
  match l with
  | [] => []
  | c :: r =>
      match rstrip_slash r with
      | [] => if Ascii.eqb c slash then [] else [c]
      | r' => c :: r'
      end
  end.

(** [head != '/' * len(head)] is the negation of this test. *)
Definition all_slashes (l : list ascii) : bool :=
  forallb (λ c, Ascii.eqb c slash) l.

(** [posixpath.dirname]:
<<
    i = p.rfind('/') + 1
    head = p[:i]
    if head and head != '/'*len(head):
        head = head.rstrip('/')
    return head
>> *)
Definition dirname_chars (p : list ascii) : list ascii :=
  let i := rfind slash p + 1 in
  let head := take (Z.to_nat i) p in
  if negb (bool_decide (head = [])) && negb (all_slashes head)
  then rstrip_slash head
  else head.
Definition dirname (p : string) : string := str (dirname_chars (chars p)).

(** [l[:i]] and [l[i:]] for a Python list and an integer index: a negative
    index counts from the end, and both ends are clamped. *)
Definition len {A} (l : list A) : Z := Z.of_nat (length l).
Definition slice_index {A} (i : Z) (l : list A) : nat :=
  if i <? 0 then Z.to_nat (len l + i) else Z.to_nat i.
Definition slice_to {A} (i : Z) (l : list A) : list A := take (slice_index i l) l.
Definition slice_from {A} (i : Z) (l : list A) : list A := drop (slice_index i l) l.

(** [s.startswith(pat)] on characters. *)
Fixpoint starts_with (pat l : list ascii) : bool :=
  match pat, l with
  | [], _ => true
  | _ :: _, [] => false
  | a :: pat', b :: l' => Ascii.eqb a b && starts_with pat' l'
  end.

(** [pat in s] for strings, which is also [s.find(pat) >= 0]. *)
Fixpoint contains_chars (pat l : list ascii) : bool :=
  starts_with pat l ||
  match l with
  | [] => false
  | _ :: l' => contains_chars pat l'
  end.
Definition contains (pat s : string) : bool := contains_chars (chars pat) (chars s).

(** [s.strip()]: Python's whitespace is space, tab, line feed, vertical
    tab, form feed and carriage return. *)
Fixpoint lstrip_chars (l : list ascii) : list ascii :=
  match l with
  | c :: r => if Ascii.is_space c then lstrip_chars r else l
  | [] => []
  end.
Definition strip_chars (l : list ascii) : list ascii :=
  reverse (lstrip_chars (reverse (lstrip_chars l))).
Definition strip (s : string) : string := str (strip_chars (chars s)).

Definition is_digit (c : ascii) : bool :=
  bool_decide (is_Some (Ascii.is_nat c)).

(** The decimal digits of a natural number, as [str.format] prints them. *)
Definition digits_of_N (n : N) : list ascii :=
  chars (NilEmpty.string_of_uint (N.to_uint n)).
(** [str(z)] / ["{0}".format(z)] for an integer. *)
Definition chars_of_Z (z : Z) : list ascii :=
  if z <? 0 then "-"%char :: digits_of_N (Z.to_N (- z)) else digits_of_N (Z.to_N z).
Definition str_of_Z (z : Z) : string := str (chars_of_Z z).

(** The value of a non-empty run of decimal digits. *)
Definition N_of_digits (l : list ascii) : option N :=
  match l with
  | [] => None
  | _ => N.of_uint <$> NilEmpty.uint_of_string (str l)
  end.

(** [int(s)] for a string: surrounding whitespace is ignored, one sign is
    allowed, and the rest must be a non-empty run of decimal digits; [None]
    stands for the [ValueError]. *)
Definition int_of_chars (l : list ascii) : option Z :=
  match strip_chars l with
  | "-"%char :: ds => (λ n, - Z.of_N n) <$> N_of_digits ds
  | "+"%char :: ds => Z.of_N <$> N_of_digits ds
  | ds => Z.of_N <$> N_of_digits ds
  end.
Definition int (s : string) : option Z := int_of_chars (chars s).

(** ["{0}".format(x)] for a value that may be [None]. *)
Definition format_opt (x : option string) : string := default "None" x.

End Py.

(** ** Ancestor directories of a depot-relative path *)

(** The loop of [GetParentPaths]: each iteration replaces [elemPath] by its
    [dirname], stops when that is the depot root marker (after replacing
    backslashes), and records it otherwise.  The loop has no other exit, so
    the iterations are counted by [fuel] and [None] stands for a loop that is
    still running when the fuel is spent. *)
Fixpoint GetParentPaths_loop (fuel : nat) (elemPath : string)
    (parents : list string) : option (list string) :=
  match fuel with
  | O => None
  | S fuel' =>
      let elemPath := Py.dirname elemPath in
      if bool_decide (Py.replace_backslash elemPath = "/.") then Some parents
      else GetParentPaths_loop fuel' elemPath (parents ++ [elemPath])
  end.

Definition GetParentPaths_fuel (fuel : nat) (elemPath : option string)
    : option (list string) :=
  match elemPath with
  | None => Some []
  | Some p => GetParentPaths_loop fuel p []
  end.

(** [dirname] applied [n] times. *)
Definition ancestor (n : nat) (p : string) : string := Nat.iter n Py.dirname p.
Arguments ancestor : simpl never.

Definition is_root (p : string) : Prop := Py.replace_backslash p = "/.".

(** The [k] proper ancestors [dirname p], ..., [dirname^k p]. *)
Definition ancestor_chain (k : nat) (p : string) : list string :=
  (λ j, ancestor (S j) p) <$> seq 0 k.

(** The truncation reaches the root marker for the first time at the
    [S k]-th [dirname]. *)
Definition reaches_root_at (k : nat) (p : string) : Prop :=
  is_root (ancestor (S k) p) ∧ ∀ j, (j < k)%nat → ¬ is_root (ancestor (S j) p).

Definition never_reaches_root (p : string) : Prop :=
  ∀ j, ¬ is_root (ancestor (S j) p).

(** A bound on the number of iterations that matter: [dirname] returns a
    prefix of its argument, so after [length p + 1] truncations the path no
    longer changes. *)
Definition GetParentPaths (elemPath : option string) : option (list string) :=
  GetParentPaths_fuel (S (from_option String.length O elemPath)) elemPath.
Arguments GetParentPaths : simpl never.

(** ** Data model *)

(** The fields of an AccuRev version that the script reads. [stream] is
    [version.virtualNamedVersion.stream]. *)
Record Version := {
  path : string;
  dir : bool;
  elemType : string;
  stream : option string;
}.

Record Transaction := {
  id : Z;
  Type_ : string;
  time : Z;
  user : option string;
  comment : option string;
  versions : list Version;
}.

(** [copy.deepcopy(transaction)] followed by [copy.versions = vs]. *)
Definition with_versions (t : Transaction) (vs : list Version) : Transaction :=
  {| id := id t; Type_ := Type_ t; time := time t; user := user t;
     comment := comment t; versions := vs |}.

(** One element of the result of [accurev.stat]. *)
Record InfoElem := {
  location : string;
  statusList : list string;
}.

Record Info := { elements : list InfoElem }.

(** How a list of elements is handed to an AccuRev command. *)
Inductive ElemArg :=
| listFile (name : string)
| elementList (elems : list string).

Record GitBranchListItem := {
  name : string;
  shortHash : option string;
  remote : option string;
  shortComment : option string;
  isCurrent : bool;
}.

Record GitStatus := { branch : option string }.

Record UserMap := {
  accurevUsername : option string;
  gitName : option string;
  gitEmail : option string;
}.

(** The configuration values that the modelled functions read:
    [config.accurev.startTransaction], [config.accurev.streamList],
    [config.git.repoPath] and [config.usermaps]. *)
Record Config := {
  startTransaction : option string;
  streamList : option (list string);
  repoPath : option string;
  usermaps : list UserMap;
}.

(** ** Effects *)

(** Uncaught Python exceptions that the modelled code can raise. *)
Inductive exn :=
| StatusNotFound (elem : string)   (* the [KeyError] handlers of the classifier *)
| NameError (name : string)
| ValueError (msg : string)
| AttributeError (attr : string)
| TypeError (msg : string)
| NoCurrentBranch                  (* the final [raise] of [CheckoutBranch] *)
| CommandError (msg : string).     (* an exception that escapes from a command *)

(** How a call ends: it returns, an exception propagates, [sys.exit] is
    called, or it runs forever. *)
Inductive outcome (A : Type) :=
| Ret (a : A)
| Raise (e : exn)
| Exit (code : Z)
| Diverge.
Arguments Ret {A} a.
Arguments Raise {A} e.
Arguments Exit {A} code.
Arguments Diverge {A}.

(** Calls that leave the script, in the order they are made. *)
Inductive Call :=
| FileWrite (name : string) (lines : list string)
| FileRemove (name : string)
| AccurevStat (stream : option string) (timeSpec : Z) (arg : ElemArg)
| AccurevPop (verSpec : option string) (location : option string) (timeSpec : Z) (arg : ElemArg)
| RemoveDir (path : string)
| GitCheckout (branchName : string) (isNewBranch : bool)
| GitAdd (paths : list string)
| GitAddUpdate
| GitRm (paths : list string)
| GitCommitCall (message author : string) (date : Z).

(** The state the script runs in: the listing files of the working
    directory, the module-level [branchList] cache, the state [G] of the git
    repository behind [gitRepo], and the calls made so far. *)
Record World (G : Type) := mkWorld {
  files : gmap string (list string);
  branchList : option (list GitBranchListItem);
  repo : G;
  calls : list Call;
}.
Arguments mkWorld {G}.
Arguments files {G}.
Arguments branchList {G}.
Arguments repo {G}.
Arguments calls {G}.

Definition M (G A : Type) : Type := World G → World G * outcome A.

Global Instance M_ret {G} : MRet (M G) := λ A a w, (w, Ret a).
Global Instance M_bind {G} : MBind (M G) := λ A B f m w,
  match m w with
  | (w', Ret a) => f a w'
  | (w', Raise e) => (w', Raise e)
  | (w', Exit c) => (w', Exit c)
  | (w', Diverge) => (w', Diverge)
  end.

Definition raise {G A} (e : exn) : M G A := λ w, (w, Raise e).
Definition sys_exit {G A} (code : Z) : M G A := λ w, (w, Exit code).
Definition diverge {G A} : M G A := λ w, (w, Diverge).
Definition get {G} : M G (World G) := λ w, (w, Ret w).
Definition call {G} (c : Call) : M G unit := λ w,
  (mkWorld (files w) (branchList w) (repo w) (calls w ++ [c]), Ret tt).
Definition set_branchList {G} (b : option (list GitBranchListItem)) : M G unit := λ w,
  (mkWorld (files w) b (repo w) (calls w), Ret tt).
Definition set_repo {G} (g : G) : M G unit := λ w,
  (mkWorld (files w) (branchList w) g (calls w), Ret tt).

(** [f = open(name, 'w'); for l in lines: f.write(l + '\n'); f.close()] *)
Definition write_lines {G} (name : string) (lines : list string) : M G unit := λ w,
  (mkWorld (<[name := lines]> (files w)) (branchList w) (repo w)
     (calls w ++ [FileWrite name lines]), Ret tt).
(** [os.remove(name)] of a file that the script has just written. *)
Definition os_remove {G} (name : string) : M G unit := λ w,
  (mkWorld (delete name (files w)) (branchList w) (repo w)
     (calls w ++ [FileRemove name]), Ret tt).

(** ** The external collaborators *)

(** The [accurev] module. Both commands are synchronous queries of the
    depot; they may read the listing file they are given. A failed command
    gives [None], respectively [false]. *)
Class AccuRev := {
  accurev_stat : option string → Z → ElemArg → gmap string (list string) → option Info;
  accurev_pop : option string → option string → Z → ElemArg → gmap string (list string) → bool;
}.

(** The [gitRepo] object and the two [git] subprocesses, over the state [G]
    of the repository. *)
Class GitRepo (G : Type) := {
  git_branch_list : G → option (list GitBranchListItem);
  git_status : G → option GitStatus;
  git_checkout : string → bool → G → G;
  git_add : list string → G → bool * G;
  git_add_update : G → G;
  git_rm : list string → G → bool * G;
  git_commit : string → string → Z → G → bool * G;
  git_lastError : G → option string;
  git_status_output : G → string;
  git_log_1_output : G → string;
}.

(** Staging that treats the paths of one call one after the other, so that a
    call with [l1 ++ l2] stages what a call with [l1] and then one with [l2]
    stage. *)
Class PathwiseStaging (G : Type) `{GitRepo G} : Prop := {
  git_add_app l1 l2 g : (git_add (l1 ++ l2) g).2 = (git_add l2 (git_add l1 g).2).2;
  git_rm_app l1 l2 g : (git_rm (l1 ++ l2) g).2 = (git_rm l2 (git_rm l1 g).2).2;
}.

(** ** The script *)

(** Calls of the logger only print; they are left out, together with the
    [git log] subprocess that one of the printed messages runs. *)

Definition maxCmdItems : Z := 25.

Definition lift {G A} (o : outcome A) : M G A := λ w, (w, o).

Section Script.
Context `{AccuRev} {G : Type} `{GitRepo G}.
Variable config : Config.

(** *** Calls of the collaborators *)

Definition accurev_stat_call (stream : option string) (timeSpec : Z) (arg : ElemArg)
    : M G (option Info) :=
  call (AccurevStat stream timeSpec arg);;
  w ← get;
  mret (accurev_stat stream timeSpec arg (files w)).

Definition accurev_pop_call (verSpec location : option string) (timeSpec : Z)
    (arg : ElemArg) : M G bool :=
  call (AccurevPop verSpec location timeSpec arg);;
  w ← get;
  mret (accurev_pop verSpec location timeSpec arg (files w)).

Definition gitRepo_checkout (branchName : string) (isNewBranch : bool) : M G unit :=
  call (GitCheckout branchName isNewBranch);;
  w ← get;
  set_repo (git_checkout branchName isNewBranch (repo w)).

Definition gitRepo_add (paths : list string) : M G bool :=
  call (GitAdd paths);;
  w ← get;
  let r := git_add paths (repo w) in
  set_repo r.2;; mret r.1.

Definition gitRepo_add_update : M G unit :=
  call GitAddUpdate;;
  w ← get;
  set_repo (git_add_update (repo w)).

Definition gitRepo_rm (paths : list string) : M G bool :=
  call (GitRm paths);;
  w ← get;
  let r := git_rm paths (repo w) in
  set_repo r.2;; mret r.1.

Definition gitRepo_commit (message author : string) (date : Z) : M G bool :=
  call (GitCommitCall message author date);;
  w ← get;
  let r := git_commit message author date (repo w) in
  set_repo r.2;; mret r.1.

(** *** Git helper functions *)

(** The first branch of the list with the given name, which is where the
    [for] loop of [CheckoutBranch] either returns or breaks. *)
Definition find_branch (branchName : string) (bl : list GitBranchListItem)
    : option GitBranchListItem :=
  List.find (λ b, bool_decide (name b = branchName)) bl.

Definition CheckoutBranch (branchName : string) : M G GitBranchListItem :=
  w ← get;
  match branchList w with
  | None => set_branchList (git_branch_list (repo w))
  | Some _ => mret tt
  end;;
  w ← get;
  match branchList w with
  | None | Some [] =>
      match git_status (repo w) with
      | Some status =>
          if bool_decide (branch status ≠ Some branchName)
          then gitRepo_checkout branchName true
          else mret tt
      | None => mret tt
      end;;
      let branch :=
        {| name := branchName; shortHash := None; remote := None;
           shortComment := Some "Initial Commit"; isCurrent := true |} in
      set_branchList (Some [branch]);;
      mret branch
  | Some bl =>
      let switch (isNewBranch : bool) : M G GitBranchListItem :=
        gitRepo_checkout branchName isNewBranch;;
        w ← get;
        set_branchList (git_branch_list (repo w));;
        w ← get;
        match branchList w with
        | None => raise (TypeError "'NoneType' object is not iterable")
        | Some bl' => from_option mret (raise NoCurrentBranch) (List.find isCurrent bl')
        end in
      match find_branch branchName bl with
      | Some b => if isCurrent b then mret b else switch false
      | None => switch true
      end
  end.

(** [accurevDepotElementPath[3:]]; [isAbsolute] is [False] at every call. *)
Definition LocalElementPath (accurevDepotElementPath : string) : string :=
  Py.str (Py.slice_from 3 (Py.chars accurevDepotElementPath)).

Definition GetTransactionDestStream (transaction : Transaction) : option string :=
  match versions transaction with
  | [] => None
  | v :: _ => stream v
  end.

(** *** The element status classifier *)

(** The inner loop of the first pass: [if parent not in dirList:
    dirList.append(parent)]. *)
Definition add_parents (dirList elemParents : list string) : list string :=
  foldl (λ dirList parent,
           if bool_decide (parent ∈ dirList) then dirList else dirList ++ [parent])
        dirList elemParents.

(** The first pass over the versions, which fills [dirList] and
    [elemList]. [None]: a call of [GetParentPaths] does not return. *)
Fixpoint collect_paths (vs : list Version) (dirList elemList : list string)
    : option (list string * list string) :=
  match vs with
  | [] => Some (dirList, elemList)
  | version :: vs' =>
      let elemList := elemList ++ [path version] in
      match GetParentPaths (Some (path version)) with
      | None => None
      | Some elemParents => collect_paths vs' (add_parents dirList elemParents) elemList
      end
  end.

Definition build_infoDict (info : Info) : gmap string bool :=
  foldl (λ infoDict infoElem,
           <[Py.replace_backslash (location infoElem) :=
               bool_decide ("(defunct)" ∈ statusList infoElem)]> infoDict)
        ∅ (elements info).

(** The loop over the parents of a version that is not defunct: the first
    parent that is defunct ends it, and so does one that has no status. *)
Fixpoint scan_parents (infoDict : gmap string bool) (parents : list string)
    : outcome bool :=
  match parents with
  | [] => Ret false
  | parent :: parents' =>
      match infoDict !! Py.replace_backslash parent with
      | None => Raise (StatusNotFound (Py.replace_backslash parent))
      | Some true => Ret true
      | Some false => scan_parents infoDict parents'
      end
  end.

(** The body of the [try] of the second pass: [(isDefunct, isStranded)]. *)
Definition version_status (infoDict : gmap string bool) (version : Version)
    : outcome (bool * bool) :=
  let elemStr := Py.replace_backslash (path version) in
  match infoDict !! elemStr with
  | None => Raise (StatusNotFound elemStr)
  | Some isDefunct =>
      if negb isDefunct then
        match GetParentPaths (Some (path version)) with
        | None => Diverge
        | Some parents =>
            match scan_parents infoDict parents with
            | Ret isStranded => Ret (isDefunct, isStranded)
            | Raise e => Raise e
            | Exit c => Exit c
            | Diverge => Diverge
            end
        end
      else Ret (isDefunct, false)
  end.

(** The second pass: every version is appended to one of the three
    lists. *)
Fixpoint classify_versions (infoDict : gmap string bool) (vs : list Version)
    (member defunct stranded : list Version)
    : outcome (list Version * list Version * list Version) :=
  match vs with
  | [] => Ret (member, defunct, stranded)
  | version :: vs' =>
      match version_status infoDict version with
      | Ret (isDefunct, isStranded) =>
          if isDefunct then
            classify_versions infoDict vs' member (defunct ++ [version]) stranded
          else if isStranded then
            classify_versions infoDict vs' member defunct (stranded ++ [version])
          else
            classify_versions infoDict vs' (member ++ [version]) defunct stranded
      | Raise e => Raise e
      | Exit c => Exit c
      | Diverge => Diverge
      end
  end.

(** What [SplitElementsByStatusViaStat] returns: the pair of empty lists of
    its early [return], or the three transactions. *)
Inductive SplitResult :=
| Two (a b : list Version)
| Three (member defunct stranded : Transaction).

(** The part of [SplitElementsByStatusViaStat] that follows the query. *)
Definition split_by_info (transaction : Transaction) (info : option Info)
    : M G SplitResult :=
  match info with
  | Some info =>
      let infoDict := build_infoDict info in
      r ← lift (classify_versions infoDict (versions transaction) [] [] []);
      let '(member, defunct, stranded) := r in
      mret (Three (with_versions transaction member)
                  (with_versions transaction defunct)
                  (with_versions transaction stranded))
  | None => raise (NameError "transactionId")
  end.

Definition SplitElementsByStatusViaStat (transaction : Transaction) : M G SplitResult :=
  match collect_paths (versions transaction) [] [] with
  | None => diverge
  | Some (dirList, elemList) =>
      let fullList := dirList ++ elemList in
      let stream := GetTransactionDestStream transaction in
      if bool_decide (maxCmdItems < Py.len fullList) then
        let tmpFilename := ".stat_list" in
        write_lines tmpFilename fullList;;
        info ← accurev_stat_call stream (id transaction) (listFile tmpFilename);
        os_remove tmpFilename;;
        split_by_info transaction info
      else if bool_decide (0 < Py.len fullList) then
        info ← accurev_stat_call stream (id transaction) (elementList fullList);
        split_by_info transaction info
      else
        mret (Two [] [])
  end.

Definition PopAccurevTransaction (transaction : Transaction) (dstPath : option string)
    : M G bool :=
  let stream := GetTransactionDestStream transaction in
  if bool_decide (maxCmdItems < Py.len (versions transaction)) then
    let tmpFilename := ".pop_list" in
    write_lines tmpFilename (path <$> versions transaction);;
    rv ← accurev_pop_call stream dstPath (id transaction) (listFile tmpFilename);
    os_remove tmpFilename;;
    mret rv
  else
    let elemList := path <$> versions transaction in
    accurev_pop_call stream dstPath (id transaction) (elementList elemList).

(** *** Staging and committing *)

Definition inspect {A} (a : A) : {b : A | a = b} := exist _ a eq_refl.

(** One of the two [while True] loops of [GitCommit]; [cmd] is the call of
    [gitRepo.add] or of [gitRepo.rm], whose result is only logged:
<<
    tmpList = addList[:min(maxItems, len(addList))]
    addList = addList[min(maxItems, len(addList)):]
    if len(tmpList) > 0: cmd(tmpList)
    else: break
>> *)
Equations? batch_loop (cmd : list string → M G bool) (maxItems : Z)
    (addList : list string) (w : World G) : World G * outcome unit
    by wf (length addList) lt :=
  batch_loop cmd maxItems addList w
    with inspect (Py.slice_to (Z.min maxItems (Py.len addList)) addList) := {
    | exist _ [] _ => (w, Ret tt)
    | exist _ (x :: tmp) _ with cmd (x :: tmp) w := {
      | (w', Ret _) =>
          batch_loop cmd maxItems
            (Py.slice_from (Z.min maxItems (Py.len addList)) addList) w'
      | (w', Raise e) => (w', Raise e)
      | (w', Exit c) => (w', Exit c)
      | (w', Diverge) => (w', Diverge) } }.
Proof.
  unfold Py.slice_to, Py.slice_from in *.
  rewrite length_drop.
  destruct (Py.slice_index _ addList) as [|n]; [done|].
  destruct addList; simpl in *; [done|lia].
Qed.

Definition GitCommit_with (maxItems : Z) (branch : option string) (author : string)
    (date : Z) (message : string) (addList rmList : list string) : M G bool :=
  match branch with
  | Some b => CheckoutBranch b;; mret tt
  | None => mret tt
  end;;
  batch_loop (λ tmpList, gitRepo_add tmpList) maxItems addList;;
  batch_loop (λ tmpList, gitRepo_rm tmpList) maxItems rmList;;
  gitRepo_commit message author date.

(** [GitCommit] itself sets [maxItems = maxCmdItems]. *)
Definition GitCommit := GitCommit_with maxCmdItems.

(** *** Commit metadata *)

Definition GetGitUserDetails (username : option string)
    : option string * option string :=
  match username with
  | Some _ =>
      match List.find (λ usermap, bool_decide (accurevUsername usermap = username))
                      (usermaps config) with
      | Some usermap => (gitName usermap, gitEmail usermap)
      | None => (None, None)
      end
  | None => (None, None)
  end.

Definition AccurevUser2GitAuthor (accurevUser : option string) : string :=
  let '(name, email) := GetGitUserDetails accurevUser in
  let name := match name with None => accurevUser | Some _ => name end in
  let email := match email with
               | None => Py.format_opt accurevUser +:+ "@no-email.com"
               | Some e => e
               end in
  Py.format_opt name +:+ " <" +:+ email +:+ ">".

Definition newline : string := String "010"%char "".

(** ["[AccuRev Transaction #{0}]".format(id)] *)
Definition transTag (id : Z) : string :=
  "[AccuRev Transaction #" +:+ Py.str_of_Z id +:+ "]".

Definition AccurevComment2GitMessage (accurevTransaction : Transaction) : string :=
  let comment := default "[no original comment]" (comment accurevTransaction) in
  comment +:+ newline +:+ newline +:+ transTag (id accurevTransaction).

(** *** Transaction handlers *)

Definition IsStreamAllowed (streamName : option string) : bool :=
  match streamName with
  | Some s =>
      match streamList config with
      | Some l => bool_decide (s ∈ l)
      | None => true
      end
  | None => false
  end.

Definition is_link (version : Version) : bool :=
  bool_decide (elemType version = "slink") || bool_decide (elemType version = "elink").

(** [addList] of [OnPromote]: the member versions are populated, and those
    that are not directories are listed. *)
Definition OnPromote_addList (member : Transaction) : M G (list string) :=
  if bool_decide (0 < Py.len (versions member)) then
    ok ← PopAccurevTransaction member (repoPath config);
    if (ok : bool) then
      mret (LocalElementPath ∘ path <$> filter (λ version, dir version = false) (versions member))
    else sys_exit 1
  else mret [].

(** [rmList] of [OnPromote]: a defunct directory that is not a link is
    deleted from the working tree, every other defunct version is listed. *)
Fixpoint OnPromote_rmList_loop (vs : list Version) (rmList : list string)
    : M G (list string) :=
  match vs with
  | [] => mret rmList
  | version :: vs' =>
      if dir version && negb (is_link version) then
        call (RemoveDir (path version));;
        gitRepo_add_update;;
        OnPromote_rmList_loop vs' rmList
      else
        OnPromote_rmList_loop vs' (rmList ++ [LocalElementPath (path version)])
  end.

Definition OnPromote_rmList (defunct : Transaction) : M G (list string) :=
  OnPromote_rmList_loop (versions defunct) [].

(** The last part of [OnPromote], from [if len(addList) > 0 or len(rmList) >
    0] on. *)
Definition OnPromote_commit (transaction : Transaction) (stream : option string)
    (addList rmList : list string) : M G bool :=
  if bool_decide (0 < Py.len addList) || bool_decide (0 < Py.len rmList) then
    let commitMessage := AccurevComment2GitMessage transaction in
    let gitAuthor := AccurevUser2GitAuthor (user transaction) in
    status ← GitCommit stream gitAuthor (time transaction) commitMessage addList rmList;
    if (status : bool) then mret status
    else
      w ← get;
      match git_lastError (repo w) with
      | Some output =>
          if Py.contains "nothing to commit, working directory clean" output
          then mret true
          else mret status
      | None => raise (AttributeError "output")
      end
  else mret false.

Definition OnPromote (transaction : Transaction) : M G bool :=
  if bool_decide (0 < Py.len (versions transaction)) then
    let stream := GetTransactionDestStream transaction in
    match stream with
    | Some _ =>
        if negb (IsStreamAllowed stream) then mret false
        else
          r ← SplitElementsByStatusViaStat transaction;
          match r with
          | Three member defunct stranded =>
              addList ← OnPromote_addList member;
              rmList ← OnPromote_rmList defunct;
              OnPromote_commit transaction stream addList rmList
          | Two _ _ => raise (ValueError "need more than 2 values to unpack")
          end
    | None => mret false
    end
  else mret false.

(** The handlers of all other transaction types only log. *)
Definition OnIgnored (transaction : Transaction) : M G unit := mret tt.

Definition transactionHandlers : gmap string (Transaction → M G unit) :=
  list_to_map
    [ ("add", OnIgnored); ("chstream", OnIgnored); ("co", OnIgnored);
      ("defunct", OnIgnored); ("keep", OnIgnored);
      ("promote", λ transaction, OnPromote transaction;; mret tt);
      ("move", OnIgnored); ("mkstream", OnIgnored); ("purge", OnIgnored);
      ("undefunct", OnIgnored); ("defcomp", OnIgnored) ].

Definition ProcessAccuRevTransaction (transaction : Transaction) : M G unit :=
  match transactionHandlers !! Type_ transaction with
  | Some handler => handler transaction
  | None => mret tt
  end.

(** The [for] loop of [ProcessAccuRevTransactionRange]. *)
Fixpoint ProcessTransactions (transactions : list Transaction) : M G unit :=
  match transactions with
  | [] => mret tt
  | transaction :: rest =>
      ProcessAccuRevTransaction transaction;; ProcessTransactions rest
  end.

(** *** Checkpoint resolution *)

Definition tag_pattern : list ascii := Py.chars "AccuRev Transaction #".

Fixpoint digit_run (l : list ascii) : list ascii :=
  match l with
  | c :: r => if Py.is_digit c then c :: digit_run r else []
  | [] => []
  end.

(** A match of ['AccuRev Transaction #([0-9]+)'] that starts at the first
    character: the text of group 1. *)
Definition match_tag_here (l : list ascii) : option (list ascii) :=
  if Py.starts_with tag_pattern l then
    match digit_run (drop (length tag_pattern) l) with
    | [] => None
    | ds => Some ds
    end
  else None.

(** [reMsgTemplate.search(s)]: the leftmost match. *)
Fixpoint search_tag (l : list ascii) : option (list ascii) :=
  match match_tag_here l with
  | Some ds => Some ds
  | None =>
      match l with
      | [] => None
      | _ :: r => search_tag r
      end
  end.

Definition GetLastConvertedTransaction : M G (option Z) :=
  w ← get;
  let status := git_status_output (repo w) in
  if Py.contains "Initial commit" status then
    match startTransaction config ≫= Py.int with
    | Some n => mret (Some n)
    | None => sys_exit 1
    end
  else
    let lastCommit := Py.strip (git_log_1_output (repo w)) in
    match search_tag (Py.chars lastCommit) with
    | Some ds =>
        match Py.N_of_digits ds with
        | Some transactionId => mret (Some (Z.of_N transactionId + 1))
        | None => raise (ValueError "invalid literal for int()")
        end
    | None => mret None
    end.

End Script.

(** ** Simulated collaborators *)

(** Modelled from the spec: the source-system collaborator. The depot is a
    table from locations to status lists; a status query answers for the
    queried paths that the table knows, and reads a listing file when it is
    given one. [pop_ok] is the result of every populate call. *)
Definition sim_query (depot : list (string * list string)) (paths : list string) : Info :=
  {| elements :=
       omap (λ p, (λ st, {| location := p; statusList := st |}) <$> (list_to_map depot : gmap string (list string)) !! p)
            paths |}.

Definition sim_accurev (depot : list (string * list string)) (pop_ok : bool) : AccuRev :=
  {| accurev_stat := λ _ _ arg fs,
       match arg with
       | listFile f => sim_query depot <$> fs !! f
       | elementList l => Some (sim_query depot l)
       end;
     accurev_pop := λ _ _ _ arg fs,
       match arg with
       | listFile f => match fs !! f with Some _ => pop_ok | None => false end
       | elementList _ => pop_ok
       end |}.

(** Modelled from the spec: the target-system collaborator. The index is a
    set of staged additions and a set of staged removals; a commit with an
    empty index is refused with git's "nothing to commit" message. *)
Record SimGit := {
  sg_branches : list GitBranchListItem;
  sg_added : gset string;
  sg_removed : gset string;
  sg_log : list (string * string * Z);
  sg_lastError : option string;
}.

Definition sim_empty : SimGit :=
  {| sg_branches := []; sg_added := ∅; sg_removed := ∅; sg_log := [];
     sg_lastError := None |}.

Definition sim_checkout (branchName : string) (isNewBranch : bool) (g : SimGit) : SimGit :=
  let others := (λ b, {| name := name b; shortHash := shortHash b; remote := remote b;
                         shortComment := shortComment b;
                         isCurrent := bool_decide (name b = branchName) |}) <$> sg_branches g in
  {| sg_branches :=
       if isNewBranch
       then others ++ [{| name := branchName; shortHash := None; remote := None;
                          shortComment := None; isCurrent := true |}]
       else others;
     sg_added := sg_added g; sg_removed := sg_removed g; sg_log := sg_log g;
     sg_lastError := sg_lastError g |}.

Definition sim_add (paths : list string) (g : SimGit) : bool * SimGit :=
  (true, {| sg_branches := sg_branches g;
            sg_added := sg_added g ∪ list_to_set paths;
            sg_removed := sg_removed g ∖ list_to_set paths;
            sg_log := sg_log g; sg_lastError := sg_lastError g |}).

Definition sim_rm (paths : list string) (g : SimGit) : bool * SimGit :=
  (true, {| sg_branches := sg_branches g;
            sg_added := sg_added g ∖ list_to_set paths;
            sg_removed := sg_removed g ∪ list_to_set paths;
            sg_log := sg_log g; sg_lastError := sg_lastError g |}).

Definition sim_commit (message author : string) (date : Z) (g : SimGit) : bool * SimGit :=
  if bool_decide (sg_added g = ∅ ∧ sg_removed g = ∅) then
    (false, {| sg_branches := sg_branches g; sg_added := ∅; sg_removed := ∅;
               sg_log := sg_log g;
               sg_lastError := Some "nothing to commit, working directory clean" |})
  else
    (true, {| sg_branches := sg_branches g; sg_added := ∅; sg_removed := ∅;
              sg_log := (message, author, date) :: sg_log g;
              sg_lastError := None |}).

(** The message of [git log], indented by four spaces line by line. *)
Definition indent_chars (l : list ascii) : list ascii :=
  Py.chars "    " ++
  mjoin ((λ c, if Ascii.eqb c "010"%char then c :: Py.chars "    " else [c]) <$> l).

Definition sim_status_output (g : SimGit) : string :=
  match sg_log g with
  | [] => "# On branch master" +:+ newline +:+ "#" +:+ newline +:+ "# Initial commit"
          +:+ newline
  | _ => "# On branch master" +:+ newline
         +:+ "nothing to commit, working directory clean" +:+ newline
  end.

Definition sim_log_1_output (g : SimGit) : string :=
  match sg_log g with
  | [] => ""
  | (message, author, date) :: _ =>
      "commit 0123abc" +:+ newline +:+ "Author: " +:+ author +:+ newline
      +:+ "Date:   " +:+ Py.str_of_Z date +:+ newline +:+ newline
      +:+ Py.str (indent_chars (Py.chars message)) +:+ newline
  end.

Global Instance sim_git : GitRepo SimGit :=
  {| git_branch_list := λ g, Some (sg_branches g);
     git_status := λ g, Some {| branch := name <$> List.find isCurrent (sg_branches g) |};
     git_checkout := sim_checkout;
     git_add := sim_add;
     git_add_update := λ g, g;
     git_rm := sim_rm;
     git_commit := sim_commit;
     git_lastError := sg_lastError;
     git_status_output := sim_status_output;
     git_log_1_output := sim_log_1_output |}.

Definition sim_world : World SimGit :=
  {| files := ∅; branchList := None; repo := sim_empty; calls := [] |}.

Definition sim_config : Config :=
  {| startTransaction := Some "1"; streamList := None;
     repoPath := Some "/repo"; usermaps := [] |}.

(** *** Sample transactions *)

Definition file_version (p : string) : Version :=
  {| path := p; dir := false; elemType := "text"; stream := Some "dev" |}.
Definition dir_version (p : string) : Version :=
  {| path := p; dir := true; elemType := "dir"; stream := Some "dev" |}.

Definition promote (n : Z) (c : option string) (vs : list Version) : Transaction :=
  {| id := n; Type_ := "promote"; time := 1400000000; user := Some "joe";
     comment := c; versions := vs |}.

(** Transaction 100 of the spec: [/./dir] is defunct, [/./dir/a.txt] is not. *)
Definition tx100 : Transaction :=
  promote 100 (Some "remove dir") [file_version "/./dir/a.txt"; dir_version "/./dir"].
Definition depot100 : list (string * list string) :=
  [("/./dir/a.txt", ["(member)"]); ("/./dir", ["(defunct)"; "(member)"])].

(** ** Notions used in the statements *)

(** The three lists of the classifier. *)
Inductive Status := Member | Defunct | Stranded.

Global Instance Status_eq_dec : EqDecision Status.
Proof. solve_decision. Defined.

(** The list that the second pass appends a version to. *)
Definition status_of (isDefunct isStranded : bool) : Status :=
  if isDefunct then Defunct else if isStranded then Stranded else Member.

Definition class_of (infoDict : gmap string bool) (version : Version) : option Status :=
  match version_status infoDict version with
  | Ret (isDefunct, isStranded) => Some (status_of isDefunct isStranded)
  | _ => None
  end.

(** The query of [SplitElementsByStatusViaStat] for a non-empty [fullList],
    with its listing file. *)
Definition stat_query `{AccuRev} {G} (transaction : Transaction) (fullList : list string)
    : M G (option Info) :=
  let stream := GetTransactionDestStream transaction in
  if bool_decide (maxCmdItems < Py.len fullList) then
    write_lines ".stat_list" fullList;;
    info ← accurev_stat_call stream (id transaction) (listFile ".stat_list");
    os_remove ".stat_list";;
    mret info
  else
    accurev_stat_call stream (id transaction) (elementList fullList).

(** The paths of a version and of its ancestors, as the classifier looks them
    up. *)
Definition norm_path (version : Version) : string := Py.replace_backslash (path version).

(** A status that the second pass looks up and does not find: the one of the
    version itself, or, for a version that is not defunct, the one of an
    ancestor that comes before every defunct ancestor. *)
Definition status_missing (infoDict : gmap string bool) (version : Version) : Prop :=
  infoDict !! norm_path version = None
  ∨ (infoDict !! norm_path version = Some false
     ∧ ∃ parents i parent,
         GetParentPaths (Some (path version)) = Some parents
         ∧ parents !! i = Some parent
         ∧ infoDict !! Py.replace_backslash parent = None
         ∧ ∀ j q, (j < i)%nat → parents !! j = Some q →
                  infoDict !! Py.replace_backslash q = Some false).

(** Calls that stage or commit. *)
Definition is_commit_call (c : Call) : bool :=
  match c with
  | GitCommitCall _ _ _ => true
  | _ => false
  end.

Definition is_staging_call (c : Call) : bool :=
  match c with
  | GitAdd _ | GitRm _ | GitCommitCall _ _ _ | GitCheckout _ _ => true
  | _ => false
  end.

(** Every call that [m] makes satisfies [P], and [m] does not end in a
    [ValueError]. *)
Definition traced {G A} (P : Call → Prop) (m : M G A) : Prop :=
  ∀ w, (∃ cs, calls (m w).1 = calls w ++ cs ∧ Forall P cs)
       ∧ ∀ msg, (m w).2 ≠ Raise (ValueError msg).

(** Staging as the spec words it, without batches: each list that is not
    empty is handed over in one call. *)
Definition GitCommit_unbatched `{GitRepo G} (branch : option string) (author : string)
    (date : Z) (message : string) (addList rmList : list string) : M G bool :=
  match branch with
  | Some b => CheckoutBranch b;; mret tt
  | None => mret tt
  end;;
  (if bool_decide (addList = []) then mret true else gitRepo_add addList);;
  (if bool_decide (rmList = []) then mret true else gitRepo_rm rmList);;
  gitRepo_commit message author date.

(** The calls of the loop that computes [rmList]. *)
Definition rmList_calls (vs : list Version) : list Call :=
  vs ≫= λ version,
    if dir version && negb (is_link version)
    then [RemoveDir (path version); GitAddUpdate] else [].

(** A version that is a file or a link: not a directory, or a symbolic or
    external link. *)
Definition file_or_link (version : Version) : bool :=
  negb (dir version && negb (is_link version)).

(** The classifier and the promotion handler on transaction 100. *)
Definition split100 : World SimGit * outcome SplitResult :=
  SplitElementsByStatusViaStat (H := sim_accurev depot100 true) tx100 sim_world.

(** Calls other than a commit. *)
Definition no_commit (c : Call) : Prop := is_commit_call c = false.

(** The removal list of a transaction of defunct versions: the local paths
    of those that are files or links, in order. *)
Definition removal_list (defunct : Transaction) : list string :=
  LocalElementPath ∘ path <$> filter (λ v, file_or_link v = true) (versions defunct).

(** Transaction 101: the file [/./dir/a.txt] is promoted after its directory
    was made defunct, so the file is stranded. *)
Definition tx101 : Transaction :=
  promote 101 (Some "edit a.txt") [file_version "/./dir/a.txt"].
Definition depot101 : list (string * list string) :=
  [("/./dir/a.txt", ["(member)"]); ("/./dir", ["(defunct)"])].

(** Transaction 102: the file [/./dir/b.txt] is defunct, and the status
    query says nothing about its directory. *)
Definition tx102 : Transaction :=
  promote 102 (Some "remove b.txt") [file_version "/./dir/b.txt"].
Definition depot102 : list (string * list string) :=
  [("/./dir/b.txt", ["(defunct)"])].

(** Transaction 103: twenty-six files at the top of the depot. *)
Definition tx103 : Transaction :=
  promote 103 None
    ((λ n, file_version ("/./f" +:+ Py.str_of_Z (Z.of_nat n))) <$> seq 0 26).
Definition depot103 : list (string * list string) :=
  (λ v, (path v, ["(member)"])) <$> versions tx103.

(** Transaction 7, whose comment quotes the tag of transaction 5. *)
Definition tx7 : Transaction :=
  promote 7 (Some "Reverts AccuRev Transaction #5") [file_version "/./a.txt"].
Definition depot7 : list (string * list string) :=
  [("/./a.txt", ["(member)"])].

(** Transaction 104: the status query says nothing about the directory of
    the promoted file. *)
Definition depot104 : list (string * list string) :=
  [("/./dir/a.txt", ["(member)"])].

(** Runs of the classifier and of the handler on the sample transactions,
    each from the empty repository. *)
Definition split101 : World SimGit * outcome SplitResult :=
  SplitElementsByStatusViaStat (H := sim_accurev depot101 true) tx101 sim_world.
Definition run101 : World SimGit * outcome bool :=
  OnPromote (H := sim_accurev depot101 true) sim_config tx101 sim_world.
Definition split102 : World SimGit * outcome SplitResult :=
  SplitElementsByStatusViaStat (H := sim_accurev depot102 true) tx102 sim_world.
Definition run102 : World SimGit * outcome bool :=
  OnPromote (H := sim_accurev depot102 true) sim_config tx102 sim_world.
Definition run7 : World SimGit * outcome bool :=
  OnPromote (H := sim_accurev depot7 true) sim_config tx7 sim_world.

(** [p] lies below the directory [d]: it is [d] followed by one or more
    names, each after a slash; a name is not empty and holds no slash. *)
Inductive nested_below (d : string) : string → Prop :=
| nested_child name :
    name ≠ "" → Py.slash ∉ Py.chars name →
    nested_below d (d +:+ "/" +:+ name)
| nested_deeper p name :
    nested_below d p → name ≠ "" → Py.slash ∉ Py.chars name →
    nested_below d (p +:+ "/" +:+ name).

(** A directory path as the depot writes it: not empty, not ending in a
    slash, and not the root marker. *)
Definition plain_dir (d : string) : Prop :=
  d ≠ "" ∧ last (Py.chars d) ≠ Some Py.slash ∧ ¬ is_root d.

(** ** Depot paths *)

(** The depot-relative path of an element: the root marker, and then the
    names of the directories that lead to the element and the name of the
    element, each after a slash. *)
Definition depot_path (names : list string) : string :=
  foldl (λ p name, p +:+ "/" +:+ name) "/." names.

Definition path_name (name : string) : Prop :=
  name ≠ "" ∧ Py.slash ∉ Py.chars name.

(** ** More notions used in the statements *)

(** A computation that never ends in [sys.exit]. *)
Definition no_exit {G A} (m : M G A) : Prop := ∀ w c, (m w).2 ≠ Exit c.

(** Calls of the [accurev] commands and of their listing files. *)
Definition is_accurev_call (c : Call) : bool :=
  match c with
  | FileWrite _ _ | FileRemove _ | AccurevStat _ _ _ | AccurevPop _ _ _ _ => true
  | _ => false
  end.

(** ** More samples *)

(** A configuration with a stream list and user mappings. *)
Definition cfg_users : Config :=
  {| startTransaction := Some "1"; streamList := Some ["main"];
     repoPath := Some "/repo";
     usermaps :=
       [ {| accurevUsername := Some "ann"; gitName := Some "Ann Lee";
            gitEmail := Some "ann@example.com" |};
         {| accurevUsername := Some "joe"; gitName := Some "Joe Bloggs";
            gitEmail := None |};
         {| accurevUsername := Some "joe"; gitName := Some "Joseph";
            gitEmail := Some "joe@bloggs.com" |} ] |}.

(** A transaction that is not a promotion. *)
Definition tx_keep : Transaction :=
  {| id := 3; Type_ := "keep"; time := 1400000000; user := Some "joe";
     comment := Some "work"; versions := [file_version "/./a.txt"] |}.

(** A repository whose index never holds a change: every commit is refused,
    and [lastError] holds the output that [answer] gives, if any. *)
Definition refusing_git (answer : option string) : GitRepo (option string) :=
  {| git_branch_list := λ _, Some [];
     git_status := λ _, None;
     git_checkout := λ _ _ g, g;
     git_add := λ _ g, (true, g);
     git_add_update := λ g, g;
     git_rm := λ _ g, (true, g);
     git_commit := λ _ _ _ _, (false, answer);
     git_lastError := λ g, g;
     git_status_output := λ _, "";
     git_log_1_output := λ _, "" |}.

Definition refusing_world : World (option string) :=
  {| files := ∅; branchList := None; repo := None; calls := [] |}.

(** Transaction 8, with a plain comment. *)
Definition tx8 : Transaction :=
  promote 8 (Some "fix a.txt") [file_version "/./a.txt"].
Definition run8 : World SimGit * outcome bool :=
  OnPromote (H := sim_accurev depot7 true) sim_config tx8 sim_world.

(** A repository whose last commit was not made by the script. *)
Definition manual_world : World SimGit :=
  {| files := ∅; branchList := None;
     repo := {| sg_branches := []; sg_added := ∅; sg_removed := ∅;
                sg_log := [("typo", "joe <joe@example.com>", 1400000000)];
                sg_lastError := None |};
     calls := [] |}.

(** ** More of the script *)

(** [GetTransactionElements]; [transaction.versions] is a list in this
    model, so that the branch for versions that are [None] is not there. *)
Definition GetTransactionElements (transaction : option Transaction) (skipDirs : bool)
    : option (list string) :=
  match transaction with
  | Some transaction =>
      Some (foldl (λ elemList version,
                     if negb skipDirs || negb (dir version)
                     then elemList ++ [path version] else elemList)
                  [] (versions transaction))
  | None => None
  end.

(** [[0-9a-fA-F]] *)
Definition is_hex_digit (c : ascii) : bool :=
  let n := nat_of_ascii c in
  ((48 <=? n) && (n <=? 57) || (97 <=? n) && (n <=? 102) || (65 <=? n) && (n <=? 70))%nat.

Fixpoint hex_run (l : list ascii) : list ascii :=
  match l with
  | c :: r => if is_hex_digit c then c :: hex_run r else []
  | [] => []
  end.

Definition commit_pattern : list ascii := Py.chars "commit ".

(** A match of ['commit ([0-9a-fA-F]{6,})'] that starts at the first
    character: the text of group 1.  The quantifier is greedy and nothing
    follows it, so that the group is the whole run of hexadecimal digits,
    when that has six characters or more. *)
Definition match_commit_here (l : list ascii) : option (list ascii) :=
  if Py.starts_with commit_pattern l then
    let run := hex_run (drop (length commit_pattern) l) in
    if bool_decide (6 ≤ length run)%nat then Some run else None
  else None.

(** [reMsgTemplate.search(s)]: the leftmost match. *)
Fixpoint search_commit (l : list ascii) : option (list ascii) :=
  match match_commit_here l with
  | Some h => Some h
  | None =>
      match l with
      | [] => None
      | _ :: r => search_commit r
      end
  end.

Definition GetLastCommitHash {G : Type} `{GitRepo G} : M G (option string) :=
  w ← get;
  let lastCommit := Py.strip (git_log_1_output (repo w)) in
  mret (Py.str <$> search_commit (Py.chars lastCommit)).

Definition dot : ascii := "."%char.

(** [posixpath.splitext], which is [genericpath._splitext(p, '/', None, '.')]:
<<
    sepIndex = p.rfind(sep)
    dotIndex = p.rfind(extsep)
    if dotIndex > sepIndex:
        # skip all leading dots
        filenameIndex = sepIndex + 1
        while filenameIndex < dotIndex:
            if p[filenameIndex] != extsep:
                return p[:dotIndex], p[dotIndex:]
            filenameIndex += 1
    return p, ''
>>
    The loop returns at the first character of [p[sepIndex+1:dotIndex]] that
    is not a dot. *)
Definition splitext_chars (p : list ascii) : list ascii * list ascii :=
  let sepIndex := Py.rfind Py.slash p in
  let dotIndex := Py.rfind dot p in
  if bool_decide (sepIndex < dotIndex)
     && existsb (λ c, negb (Ascii.eqb c dot))
          (Py.slice_to (dotIndex - (sepIndex + 1)) (Py.slice_from (sepIndex + 1) p))
  then (Py.slice_to dotIndex p, Py.slice_from dotIndex p)
  else (p, []).

(** [Config.FilenameFromScriptName] *)
Definition FilenameFromScriptName (scriptName : string) : string :=
  let '(root, ext) := splitext_chars (Py.chars scriptName) in
  Py.str root +:+ ".config".

(** ** The conversion driver *)

(** [accurev.hist(depot=..., timeSpec=..., allElementsFlag=...)] for the
    depot of the configuration: the transactions of the time-spec, or [None]
    when the command fails.  Like [accurev.stat] it is a query of the depot;
    it writes nothing, and it is not entered in the list of calls.  The second
    argument is [allElementsFlag], [None] for a call that leaves it out. *)
Class AccuRevHist := {
  accurev_hist : string → option bool → option (list Transaction);
}.

Definition maxTransactions : Z := 500.

Section Driver.
Context `{AccuRev} `{AccuRevHist} {G : Type} `{GitRepo G}.
Variable config : Config.

(** [GetEndTransactionNumber]; [Start] calls it with
    [config.accurev.endTransaction], which is [None] without the
    attribute. *)
Definition GetEndTransactionNumber (endTransaction : option string) : Z :=
  match accurev_hist (Py.format_opt endTransaction +:+ ".1") None with
  | Some (transaction :: _) => id transaction
  | _ => -1
  end.

(** [ProcessAccuRevTransactionRange]; both calls of the script pass integers
    for [startTransaction] and [endTransaction]. *)
Definition ProcessAccuRevTransactionRange (startTransaction endTransaction : Z)
    (maxTransactions : option Z) : M G Z :=
  let timeSpec := Py.str_of_Z startTransaction +:+ "-" +:+ Py.str_of_Z endTransaction in
  let timeSpec :=
    match maxTransactions with
    | Some n => if bool_decide (0 < n) then timeSpec +:+ "." +:+ Py.str_of_Z n else timeSpec
    | None => timeSpec
    end in
  match accurev_hist timeSpec (Some true) with
  | Some transactions =>
      ProcessTransactions config transactions;;
      mret (Py.len transactions)
  | None => mret (-1)
  end.

(** The [while] loop of [Start], which leaves the value of
    [continueFromTransaction]:
<<
    while endTransaction - continueFromTransaction > maxTransactions:
        stopAtTransaction = continueFromTransaction + maxTransactions - 1
        numProcessed = self.ProcessAccuRevTransactionRange(
            startTransaction=continueFromTransaction, endTransaction=stopAtTransaction)
        continueFromTransaction += maxTransactions
>>
    The iterations are counted by [fuel]; a loop that is still running when
    the fuel is spent is taken to run forever. *)
Fixpoint Start_loop (fuel : nat) (maxTransactions endTransaction continueFromTransaction : Z)
    : M G Z :=
  if bool_decide (maxTransactions < endTransaction - continueFromTransaction) then
    match fuel with
    | O => diverge
    | S fuel' =>
        let stopAtTransaction := continueFromTransaction + maxTransactions - 1 in
        numProcessed ← ProcessAccuRevTransactionRange continueFromTransaction
                         stopAtTransaction None;
        Start_loop fuel' maxTransactions endTransaction
          (continueFromTransaction + maxTransactions)
    end
  else mret continueFromTransaction.

(** The loop and the [if] after it, which processes the remaining
    transactions.  With a positive [maxTransactions] the loop makes fewer
    than [endTransaction - continueFromTransaction] iterations. *)
Definition Start_ranges (maxTransactions endTransaction continueFromTransaction : Z)
    : M G unit :=
  continueFromTransaction ←
    Start_loop (Z.to_nat (endTransaction - continueFromTransaction))
      maxTransactions endTransaction continueFromTransaction;
  if bool_decide (0 < endTransaction - continueFromTransaction) then
    numProcessed ← ProcessAccuRevTransactionRange continueFromTransaction
                     endTransaction None;
    mret tt
  else mret tt.

(** The part of [Start] between the login and the restoring of the working
    directory.  [Some 1] is the [return 1] of a conversion that cannot find
    its resume point; [None] is a run that goes on to the logout.
    [endTransaction] is [config.accurev.endTransaction]. *)
Definition Start_convert_with (maxTransactions : Z) (endTransaction : option string)
    : M G (option Z) :=
  continueFromTransaction ← GetLastConvertedTransaction config;
  let endTransaction := GetEndTransactionNumber endTransaction in
  match continueFromTransaction with
  | None => mret (Some 1)
  | Some continueFromTransaction =>
      Start_ranges maxTransactions endTransaction continueFromTransaction;;
      mret None
  end.

Definition Start_convert := Start_convert_with maxTransactions.

End Driver.

(** The history of a depot as a list of transactions, and a history command
    that answers a query for the range of [a] to [b] with the transactions of
    the list whose numbers are in the range. *)
Definition answers_ranges `{AccuRevHist} (history : list Transaction) : Prop :=
  ∀ a b, 0 ≤ a → 0 ≤ b →
    accurev_hist (Py.str_of_Z a +:+ "-" +:+ Py.str_of_Z b) (Some true)
    = Some (filter (λ t, a ≤ id t ≤ b) history).

Definition ascending (history : list Transaction) : Prop :=
  ∀ i j t1 t2, history !! i = Some t1 → history !! j = Some t2 →
               (i < j)%nat → id t1 < id t2.

(** A time-spec of the form [a-b] or [a.1] of decimal numbers. *)
Definition parse_timeSpec (timeSpec : string) : option (Z * option Z) :=
  let l := Py.chars timeSpec in
  let a := digit_run l in
  match Py.N_of_digits a, drop (length a) l with
  | Some x, "-"%char :: r => (λ y, (Z.of_N x, Some (Z.of_N y))) <$> Py.N_of_digits r
  | Some x, ["."%char; "1"%char] => Some (Z.of_N x, None)
  | _, _ => None
  end.

(** Modelled from the spec: a history command over a fixed history. A range
    gives the transactions of the range, and [a.1] gives transaction [a]. *)
Definition sim_hist (history : list Transaction) : AccuRevHist :=
  {| accurev_hist := λ timeSpec _,
       match parse_timeSpec timeSpec with
       | Some (a, Some b) => Some (filter (λ t, a ≤ id t ≤ b) history)
       | Some (a, None) => Some (filter (λ t, id t = a) history)
       | None => None
       end |}.

(** Transactions 8 and 9, both promotions of the same file. *)
Definition tx9 : Transaction :=
  promote 9 (Some "fix a.txt again") [file_version "/./a.txt"].

(** ** Notions for the calls of the handler *)

(** What a checkout call and a commit call of the handler for
    [transaction] look like: the branch is [stream], and the commit carries
    the message, the author and the time of the transaction. *)
Definition call_of_promotion (config : Config) (transaction : Transaction)
    (stream : string) (c : Call) : Prop :=
  match c with
  | GitCheckout branchName _ => branchName = stream
  | GitCommitCall message author date =>
      message = AccurevComment2GitMessage transaction
      ∧ author = AccurevUser2GitAuthor config (user transaction)
      ∧ date = time transaction
  | _ => True
  end.

(** A defunct directory that is not a link. *)
Definition plain_directory (version : Version) : bool :=
  dir version && negb (is_link version).

(** ** The configuration file *)

(** An element of [xml.etree.ElementTree]: its tag, its attributes, its text
    and its child elements in the order of the document. *)
Local Unset Elimination Schemes.
Inductive XmlElement :=
| mkXmlElement (tag : string) (attrib : gmap string string) (text : option string)
    (children : list XmlElement).
Local Set Elimination Schemes.

Definition xml_tag (e : XmlElement) : string :=
  match e with mkXmlElement tag _ _ _ => tag end.
Definition xml_attrib (e : XmlElement) : gmap string string :=
  match e with mkXmlElement _ attrib _ _ => attrib end.
Definition xml_text (e : XmlElement) : option string :=
  match e with mkXmlElement _ _ text _ => text end.
Definition xml_children (e : XmlElement) : list XmlElement :=
  match e with mkXmlElement _ _ _ children => children end.

(** [element.find(tag)]: the first child with the tag. *)
Definition xml_find (tag : string) (e : XmlElement) : option XmlElement :=
  List.find (λ child, bool_decide (xml_tag child = tag)) (xml_children e).

(** [element.findall(tag)]: the children with the tag. *)
Definition xml_findall (tag : string) (e : XmlElement) : list XmlElement :=
  filter (λ child, xml_tag child = tag) (xml_children e).

(** The classes [Config.AccuRev], [Config.Git] and [Config] with their
    [fromxmlelement] methods; [Config.UserMap] is [UserMap]. *)
Module ConfigFile.

Record AccuRev := {
  depot : option string;
  username : option string;
  password : option string;
  startTransaction : option string;
  endTransaction : option string;
  streamList : option (list (option string));
}.

Record Git := { repoPath : option string }.

Record Config := {
  accurev : option AccuRev;
  git : option Git;
  usermaps : list (option UserMap);
}.

Definition AccuRev_fromxmlelement (xmlElement : option XmlElement) : option AccuRev :=
  match xmlElement with
  | Some xmlElement =>
      if bool_decide (xml_tag xmlElement = "accurev") then
        let streamList :=
          match xml_find "stream-list" xmlElement with
          | Some streamListElement =>
              Some (xml_text <$> xml_findall "stream" streamListElement)
          | None => None
          end in
        Some {| depot := xml_attrib xmlElement !! "depot";
                username := xml_attrib xmlElement !! "username";
                password := xml_attrib xmlElement !! "password";
                startTransaction := xml_attrib xmlElement !! "start-transaction";
                endTransaction := xml_attrib xmlElement !! "end-transaction";
                streamList := streamList |}
      else None
  | None => None
  end.

Definition Git_fromxmlelement (xmlElement : option XmlElement) : option Git :=
  match xmlElement with
  | Some xmlElement =>
      if bool_decide (xml_tag xmlElement = "git")
      then Some {| repoPath := xml_attrib xmlElement !! "repo-path" |}
      else None
  | None => None
  end.

Definition UserMap_fromxmlelement (xmlElement : option XmlElement) : option UserMap :=
  match xmlElement with
  | Some xmlElement =>
      if bool_decide (xml_tag xmlElement = "map-user") then
        let accurevElement := xml_find "accurev" xmlElement in
        let gitElement := xml_find "git" xmlElement in
        Some {| accurevUsername := accurevElement ≫= λ e, xml_attrib e !! "username";
                gitName := gitElement ≫= λ e, xml_attrib e !! "name";
                gitEmail := gitElement ≫= λ e, xml_attrib e !! "email" |}
      else None
  | None => None
  end.

(** [Config.fromxmlstring] after [ElementTree.fromstring], which gives the
    root element. *)
Definition fromxmlroot (xmlRoot : XmlElement) : option Config :=
  if bool_decide (xml_tag xmlRoot = "accurev2git") then
    let accurev := AccuRev_fromxmlelement (xml_find "accurev" xmlRoot) in
    let git := Git_fromxmlelement (xml_find "git" xmlRoot) in
    let usermaps :=
      match xml_find "usermaps" xmlRoot with
      | Some userMapsElem =>
          (λ userMapElem, UserMap_fromxmlelement (Some userMapElem))
            <$> xml_findall "map-user" userMapsElem
      | None => []
      end in
    Some {| accurev := accurev; git := git; usermaps := usermaps |}
  else None.

End ConfigFile.

(** The values of a configuration from the file that the conversion reads.
    Reading [config.accurev] or [config.git] fails for a configuration
    without the element.  A stream without text, [None] in the list, equals
    no stream name. *)
Definition conversion_config (c : ConfigFile.Config) : option Config :=
  match ConfigFile.accurev c, ConfigFile.git c with
  | Some a, Some g =>
      Some {| startTransaction := ConfigFile.startTransaction a;
              streamList :=
                omap (M:=list) (λ stream : option string, stream) <$> ConfigFile.streamList a;
              repoPath := ConfigFile.repoPath g;
              usermaps := omap (M:=list) (λ usermap : option UserMap, usermap)
                            (ConfigFile.usermaps c) |}
  | _, _ => None
  end.

(** The example of [DumpExampleConfigFile] with a second stream, as
    elements. *)
Definition xml_leaf (tag : string) (attrib : list (string * string)) (text : option string)
    : XmlElement :=
  mkXmlElement tag (list_to_map attrib) text [].

Definition example_config : XmlElement :=
  mkXmlElement "accurev2git" ∅ None
    [ mkXmlElement "accurev"
        (list_to_map [("username", "joe_bloggs"); ("password", "joanna");
                      ("depot", "Trunk"); ("start-transaction", "1");
                      ("end-transaction", "500")]) None
        [ mkXmlElement "stream-list" ∅ None
            [ xml_leaf "stream" [] (Some "some_stream");
              xml_leaf "stream" [] (Some "dev") ] ];
      xml_leaf "git" [("repo-path", "/put/the/git/repo/here")] None;
      mkXmlElement "usermaps" ∅ None
        [ mkXmlElement "map-user" ∅ None
            [ xml_leaf "accurev" [("username", "joe_bloggs")] None;
              xml_leaf "git" [("name", "Joe Bloggs"); ("email", "joe@bloggs.com")] None ] ] ].

Definition example_cfg : Config :=
  default sim_config (ConfigFile.fromxmlroot example_config ≫= conversion_config).

(** ** Commands that do not return *)

(** The two commands of the [accurev] module as the script calls them, with
    no handler around the call: a command returns its answer, or an exception
    escapes from it, or it ends the run, or it does not come back.  The
    commands of [AccuRev] are those that always return. *)
Class AccuRevCommands := {
  stat_command :
    option string → Z → ElemArg → gmap string (list string) → outcome (option Info);
  pop_command :
    option string → option string → Z → ElemArg → gmap string (list string)
    → outcome bool;
}.

Definition returning_commands `{AccuRev} : AccuRevCommands :=
  {| stat_command := λ stream timeSpec arg fs, Ret (accurev_stat stream timeSpec arg fs);
     pop_command := λ verSpec location timeSpec arg fs,
       Ret (accurev_pop verSpec location timeSpec arg fs) |}.

(** Commands from which the exception [e] escapes. *)
Definition raising_commands (e : exn) : AccuRevCommands :=
  {| stat_command := λ _ _ _ _, Raise e;
     pop_command := λ _ _ _ _ _, Raise e |}.

Section CommandsScript.
Context `{AccuRevCommands} {G : Type}.

Definition stat_command_call (stream : option string) (timeSpec : Z) (arg : ElemArg)
    : M G (option Info) :=
  call (AccurevStat stream timeSpec arg);;
  w ← get;
  lift (stat_command stream timeSpec arg (files w)).

Definition pop_command_call (verSpec location : option string) (timeSpec : Z)
    (arg : ElemArg) : M G bool :=
  call (AccurevPop verSpec location timeSpec arg);;
  w ← get;
  lift (pop_command verSpec location timeSpec arg (files w)).

(** [SplitElementsByStatusViaStat] over these commands. *)
Definition SplitElementsByStatusViaStat' (transaction : Transaction) : M G SplitResult :=
  match collect_paths (versions transaction) [] [] with
  | None => diverge
  | Some (dirList, elemList) =>
      let fullList := dirList ++ elemList in
      let stream := GetTransactionDestStream transaction in
      if bool_decide (maxCmdItems < Py.len fullList) then
        let tmpFilename := ".stat_list" in
        write_lines tmpFilename fullList;;
        info ← stat_command_call stream (id transaction) (listFile tmpFilename);
        os_remove tmpFilename;;
        split_by_info transaction info
      else if bool_decide (0 < Py.len fullList) then
        info ← stat_command_call stream (id transaction) (elementList fullList);
        split_by_info transaction info
      else
        mret (Two [] [])
  end.

(** [PopAccurevTransaction] over these commands. *)
Definition PopAccurevTransaction' (transaction : Transaction) (dstPath : option string)
    : M G bool :=
  let stream := GetTransactionDestStream transaction in
  if bool_decide (maxCmdItems < Py.len (versions transaction)) then
    let tmpFilename := ".pop_list" in
    write_lines tmpFilename (path <$> versions transaction);;
    rv ← pop_command_call stream dstPath (id transaction) (listFile tmpFilename);
    os_remove tmpFilename;;
    mret rv
  else
    let elemList := path <$> versions transaction in
    pop_command_call stream dstPath (id transaction) (elementList elemList).

End CommandsScript.

(** * Properties *)

(** ** Text primitives *)

Lemma chars_str l : Py.chars (Py.str l) = l.
Proof. apply list_ascii_of_string_of_list_ascii. Qed.

Lemma str_chars s : Py.str (Py.chars s) = s.
Proof. apply string_of_list_ascii_of_string. Qed.

Lemma chars_inj s1 s2 : Py.chars s1 = Py.chars s2 → s1 = s2.
Proof. intros E. rewrite <-(str_chars s1), <-(str_chars s2). by rewrite E. Qed.

Lemma chars_length s : length (Py.chars s) = String.length s.
Proof. induction s; simpl; by f_equal. Qed.

Lemma chars_app s1 s2 : Py.chars (s1 +:+ s2) = Py.chars s1 ++ Py.chars s2.
Proof. induction s1; simpl; by f_equal. Qed.

Lemma rstrip_slash_prefix l : Py.rstrip_slash l `prefix_of` l.
Proof.
  induction l as [|c r IH]; simpl; [done|].
  destruct (Py.rstrip_slash r) as [|c' r'].
  - destruct (Ascii.eqb c Py.slash); [apply prefix_nil|].
    apply prefix_cons, prefix_nil.
  - by apply prefix_cons.
Qed.

Lemma dirname_chars_prefix p : Py.dirname_chars p `prefix_of` p.
Proof.
  unfold Py.dirname_chars. cbv zeta.
  case_match; [|apply prefix_take].
  etrans; [apply rstrip_slash_prefix|apply prefix_take].
Qed.

(** [dirname] either shortens a path or leaves it as it is. *)
Lemma dirname_shrinks p :
  (String.length (Py.dirname p) < String.length p)%nat ∨ Py.dirname p = p.
Proof.
  pose proof (dirname_chars_prefix (Py.chars p)) as Hp.
  pose proof (prefix_length _ _ Hp) as Hl.
  rewrite <-!chars_length. unfold Py.dirname. rewrite chars_str.
  destruct (decide (length (Py.dirname_chars (Py.chars p)) = length (Py.chars p))) as [E|E].
  - right. apply prefix_length_eq in Hp; [|lia]. rewrite Hp. apply str_chars.
  - left. lia.
Qed.

(** ** Ancestor chains and [GetParentPaths] *)

Lemma ancestor_S n p : ancestor (S n) p = ancestor n (Py.dirname p).
Proof. unfold ancestor. by rewrite Nat.iter_succ_r. Qed.

Lemma ancestor_fixed n p : Py.dirname p = p → ancestor n p = p.
Proof. intros E. induction n as [|n IH]; [done|]. by rewrite ancestor_S, E. Qed.

Lemma ancestor_chain_S k p :
  ancestor_chain (S k) p = Py.dirname p :: ancestor_chain k (Py.dirname p).
Proof.
  unfold ancestor_chain. simpl. f_equal.
  rewrite <-fmap_S_seq, <-list_fmap_compose.
  apply list_fmap_ext. intros _ j _. simpl. by rewrite (ancestor_S (S j)).
Qed.

Lemma reaches_root_at_S k p :
  reaches_root_at (S k) p →
  ¬ is_root (Py.dirname p) ∧ reaches_root_at k (Py.dirname p).
Proof.
  intros [Hr Hn]. split.
  - apply (Hn O). lia.
  - split; [by rewrite <-ancestor_S|].
    intros j Hj. rewrite <-ancestor_S. apply Hn. lia.
Qed.

Lemma never_reaches_root_dirname p :
  never_reaches_root p → ¬ is_root (Py.dirname p) ∧ never_reaches_root (Py.dirname p).
Proof.
  intros Hn. split; [apply (Hn O)|].
  intros j. rewrite <-ancestor_S. apply Hn.
Qed.

Lemma GetParentPaths_loop_reaches k : ∀ p fuel parents,
  reaches_root_at k p → (k < fuel)%nat →
  GetParentPaths_loop fuel p parents = Some (parents ++ ancestor_chain k p).
Proof.
  induction k as [|k IH]; intros p fuel parents Hk Hf;
    (destruct fuel as [|fuel]; [lia|]); simpl.
  - destruct Hk as [Hr _]. unfold is_root, ancestor in Hr. simpl in Hr.
    rewrite bool_decide_eq_true_2 by done.
    unfold ancestor_chain. simpl. by rewrite app_nil_r.
  - apply reaches_root_at_S in Hk as [Hn Hk].
    rewrite bool_decide_eq_false_2 by done.
    rewrite (IH _ _ _ Hk) by lia.
    by rewrite ancestor_chain_S, <-app_assoc.
Qed.

Lemma GetParentPaths_loop_never fuel : ∀ p parents,
  never_reaches_root p → GetParentPaths_loop fuel p parents = None.
Proof.
  induction fuel as [|fuel IH]; intros p parents Hn; [done|]. simpl.
  apply never_reaches_root_dirname in Hn as [Hd Hn].
  rewrite bool_decide_eq_false_2 by done. by apply IH.
Qed.

(** A loop that has not left after more iterations than the path has
    characters never leaves. *)
Lemma GetParentPaths_loop_None_never fuel : ∀ p parents,
  (String.length p < fuel)%nat →
  GetParentPaths_loop fuel p parents = None → never_reaches_root p.
Proof.
  induction fuel as [|fuel IH]; intros p parents Hl; [lia|]. simpl.
  case_bool_decide as Hr; [done|]. intros Hloop.
  destruct (dirname_shrinks p) as [Hs|Hfix].
  - assert (never_reaches_root (Py.dirname p)) as Hn.
    { eapply IH; [|done]. lia. }
    intros [|j]; [done|]. rewrite ancestor_S. apply Hn.
  - intros j. rewrite ancestor_fixed by done. by rewrite <-Hfix.
Qed.

Lemma GetParentPaths_loop_Some_reaches fuel : ∀ p parents l,
  GetParentPaths_loop fuel p parents = Some l →
  ∃ k, (k < fuel)%nat ∧ reaches_root_at k p ∧ l = parents ++ ancestor_chain k p.
Proof.
  induction fuel as [|fuel IH]; intros p parents l; [done|]. simpl.
  case_bool_decide as Hr.
  - intros [= <-]. exists O. split; [lia|]. split.
    + split; [done|]. intros j Hj. lia.
    + unfold ancestor_chain. simpl. by rewrite app_nil_r.
  - intros (k & Hk & Hreach & ->)%IH. exists (S k). split; [lia|]. split.
    + destruct Hreach as [Hroot Hn]. split; [by rewrite ancestor_S|].
      intros [|j] Hj; [done|]. rewrite ancestor_S. apply Hn. lia.
    + by rewrite ancestor_chain_S, <-app_assoc.
Qed.

(** [GetParentPaths] decides between the two behaviours of the loop. *)
Lemma GetParentPaths_Some p l :
  GetParentPaths (Some p) = Some l ↔ ∃ k, reaches_root_at k p ∧ l = ancestor_chain k p.
Proof.
  change (GetParentPaths (Some p))
    with (GetParentPaths_loop (S (String.length p)) p []). split.
  - intros (k & _ & Hk & ->)%GetParentPaths_loop_Some_reaches. eauto.
  - intros (k & Hk & ->).
    destruct (GetParentPaths_loop (S (String.length p)) p []) as [l|] eqn:E.
    + apply GetParentPaths_loop_Some_reaches in E as (k' & Hk' & Hr' & ->).
      simpl. f_equal.
      destruct Hk as [Hk1 Hk2], Hr' as [Hr1 Hr2].
      destruct (Nat.lt_total k k') as [?|[->|?]]; [|done|].
      * by destruct (Hr2 k).
      * by destruct (Hk2 k').
    + apply GetParentPaths_loop_None_never in E; [|lia].
      destruct Hk as [Hk _]. by destruct (E k).
Qed.

Lemma GetParentPaths_None p :
  GetParentPaths (Some p) = None ↔ never_reaches_root p.
Proof.
  change (GetParentPaths (Some p))
    with (GetParentPaths_loop (S (String.length p)) p []). split.
  - apply GetParentPaths_loop_None_never. lia.
  - apply GetParentPaths_loop_never.
Qed.

Lemma GetParentPaths_fuel_None p l : GetParentPaths_fuel 0 (Some p) ≠ Some l.
Proof. done. Qed.

(** C9: [GetParentPaths] returns for a path whose repeated [dirname] reaches
    the depot root marker ["/."], and then returns exactly the ancestors
    before the marker, nearest first; for a path whose [dirname] chain never
    equals the marker the loop is still running after any number of
    iterations. *)
Theorem GetParentPaths_terminates_iff_root_reached (p : string) :
  (∀ k, reaches_root_at k p →
     ∀ fuel, (k < fuel)%nat →
       GetParentPaths_fuel fuel (Some p) = Some (ancestor_chain k p))
  ∧ (never_reaches_root p → ∀ fuel, GetParentPaths_fuel fuel (Some p) = None).
Proof.
  split.
  - intros k Hk fuel Hf. simpl.
    by rewrite (GetParentPaths_loop_reaches k).
  - intros Hn fuel. by apply GetParentPaths_loop_never.
Qed.

(** A bare relative path and an ordinary absolute path never reach the
    marker, and neither does the marker itself. *)
Lemma never_reaches_root_relative : never_reaches_root "a.txt".
Proof. by apply GetParentPaths_None. Qed.

Lemma never_reaches_root_absolute : never_reaches_root "/usr/lib".
Proof. by apply GetParentPaths_None. Qed.

Lemma never_reaches_root_marker : never_reaches_root "/.".
Proof. by apply GetParentPaths_None. Qed.

Lemma reaches_root_at_nested : reaches_root_at 2 "/./dir/sub/a.txt".
Proof.
  split; [done|]. intros [|[|j]] Hj; [by vm_compute..|lia].
Qed.

Lemma GetParentPaths_terminates_iff_root_reached_witness :
  GetParentPaths_fuel 3 (Some "/./dir/sub/a.txt") = Some ["/./dir/sub"; "/./dir"]
  ∧ GetParentPaths_fuel 1000 (Some "a.txt") = None.
Proof.
  split.
  - apply (proj1 (GetParentPaths_terminates_iff_root_reached "/./dir/sub/a.txt") 2%nat).
    + exact reaches_root_at_nested.
    + lia.
  - apply (proj2 (GetParentPaths_terminates_iff_root_reached "a.txt")).
    exact never_reaches_root_relative.
Defined.

(** ** The element status classifier *)

Lemma version_status_path d v1 v2 :
  path v1 = path v2 → version_status d v1 = version_status d v2.
Proof. unfold version_status. by intros ->. Qed.

Lemma class_of_path d v1 v2 : path v1 = path v2 → class_of d v1 = class_of d v2.
Proof. unfold class_of. by intros ->%(version_status_path d). Qed.

Lemma classify_versions_Ret d vs : ∀ m df s m' df' s',
  classify_versions d vs m df s = Ret (m', df', s') →
  m' = m ++ filter (λ v, class_of d v = Some Member) vs
  ∧ df' = df ++ filter (λ v, class_of d v = Some Defunct) vs
  ∧ s' = s ++ filter (λ v, class_of d v = Some Stranded) vs
  ∧ Forall (λ v, is_Some (class_of d v)) vs.
Proof.
  induction vs as [|v vs IH]; intros m df s m' df' s'; simpl.
  - intros [= <- <- <-]. by rewrite !app_nil_r.
  - destruct (version_status d v) as [[isDefunct isStranded]| | |] eqn:E; [|done..].
    assert (class_of d v = Some (status_of isDefunct isStranded)) as Hc.
    { unfold class_of. by rewrite E. }
    rewrite !filter_cons, Hc.
    destruct isDefunct, isStranded; simpl; intros (-> & -> & -> & HF)%IH;
      rewrite <-?app_assoc; repeat split; try done;
      by constructor.
Qed.

(** Every version goes to one list. *)
Lemma filter_status_Permutation d vs :
  Forall (λ v, is_Some (class_of d v)) vs →
  filter (λ v, class_of d v = Some Member) vs
  ++ filter (λ v, class_of d v = Some Defunct) vs
  ++ filter (λ v, class_of d v = Some Stranded) vs ≡ₚ vs.
Proof.
  induction 1 as [|v vs [c Hc] _ IH]; [done|].
  rewrite !filter_cons, Hc.
  destruct c; simpl; rewrite <-IH at 4.
  - done.
  - by rewrite <-Permutation_middle.
  - rewrite app_assoc, <-Permutation_middle. by rewrite <-app_assoc.
Qed.

Lemma collect_paths_Some vs : ∀ dirList elemList dirList' elemList',
  collect_paths vs dirList elemList = Some (dirList', elemList') →
  elemList' = elemList ++ (path <$> vs)
  ∧ Forall (λ v, is_Some (GetParentPaths (Some (path v)))) vs.
Proof.
  induction vs as [|v vs IH]; intros dirList elemList dirList' elemList'; simpl.
  - intros [= <- <-]. by rewrite app_nil_r.
  - destruct (GetParentPaths (Some (path v))) as [parents|] eqn:E; [|done].
    intros [-> HF]%IH. rewrite <-app_assoc. split; [done|].
    constructor; [by rewrite E|done].
Qed.

(** Under the loop of the first pass, the second pass either classifies a
    version or misses a status. *)
Lemma version_status_cases d v :
  is_Some (GetParentPaths (Some (path v))) →
  (∃ c, class_of d v = Some c) ∨ (∃ p, version_status d v = Raise (StatusNotFound p) ∧ d !! p = None).
Proof.
  intros [parents Hp]. unfold class_of, version_status. rewrite Hp.
  destruct (d !! Py.replace_backslash (path v)) as [[]|] eqn:E; simpl.
  - left. eauto.
  - clear Hp. induction parents as [|q parents IH]; simpl; [left; eauto|].
    destruct (d !! Py.replace_backslash q) as [[]|] eqn:Eq; [left; eauto|done|].
    right. eauto.
  - right. eauto.
Qed.

Section Classifier.
Context `{AccuRev} {G : Type}.
Implicit Types (w : World G) (tr : Transaction).

Lemma stat_query_run tr l w :
  stat_query tr l w =
    let stream := GetTransactionDestStream tr in
    if bool_decide (maxCmdItems < Py.len l) then
      (mkWorld (delete ".stat_list" (<[".stat_list" := l]> (files w)))
               (branchList w) (repo w)
               (calls w ++ [FileWrite ".stat_list" l;
                            AccurevStat stream (id tr) (listFile ".stat_list");
                            FileRemove ".stat_list"]),
       Ret (accurev_stat stream (id tr) (listFile ".stat_list")
                         (<[".stat_list" := l]> (files w))))
    else
      (mkWorld (files w) (branchList w) (repo w)
               (calls w ++ [AccurevStat stream (id tr) (elementList l)]),
       Ret (accurev_stat stream (id tr) (elementList l) (files w))).
Proof.
  unfold stat_query. cbv zeta. case_bool_decide; [|done].
  cbv [mbind M_bind mret M_ret write_lines accurev_stat_call call get os_remove
       files branchList repo calls].
  by rewrite <-!app_assoc.
Qed.

Lemma split_by_info_run tr info w :
  split_by_info tr info w =
    (w, match info with
        | Some info =>
            match classify_versions (build_infoDict info) (versions tr) [] [] [] with
            | Ret (member, defunct, stranded) =>
                Ret (Three (with_versions tr member) (with_versions tr defunct)
                           (with_versions tr stranded))
            | Raise e => Raise e
            | Exit c => Exit c
            | Diverge => Diverge
            end
        | None => Raise (NameError "transactionId")
        end).
Proof.
  unfold split_by_info. destruct info as [info|]; [|done].
  cbv [mbind M_bind lift mret M_ret].
  by destruct (classify_versions _ _ _ _ _) as [[[??]?]| | |].
Qed.

Lemma SplitElementsByStatusViaStat_run tr w :
  SplitElementsByStatusViaStat tr w =
    match collect_paths (versions tr) [] [] with
    | None => (w, Diverge)
    | Some (dirList, elemList) =>
        if bool_decide (0 < Py.len (dirList ++ elemList)) then
          (stat_query tr (dirList ++ elemList) ≫= split_by_info tr) w
        else (w, Ret (Two [] []))
    end.
Proof.
  unfold SplitElementsByStatusViaStat, stat_query.
  destruct (collect_paths _ _ _) as [[dirList elemList]|]; [|done].
  cbv zeta. repeat case_bool_decide; try done; unfold maxCmdItems in *; lia.
Qed.

Lemma collect_paths_nonempty tr dirList elemList :
  collect_paths (versions tr) [] [] = Some (dirList, elemList) →
  0 < Py.len (dirList ++ elemList) ↔ versions tr ≠ [].
Proof.
  intros Hc. pose proof Hc as [-> _]%collect_paths_Some. simpl.
  destruct (versions tr) as [|v vs]; simpl in *.
  - injection Hc as <-. done.
  - unfold Py.len. rewrite length_app. simpl. split; [done|lia].
Qed.

(** How a call of the classifier that returns has run. *)
Lemma SplitElementsByStatusViaStat_Ret tr w w' r :
  SplitElementsByStatusViaStat tr w = (w', Ret r) →
  (versions tr = [] ∧ r = Two [] [] ∧ w' = w)
  ∨ (versions tr ≠ []
     ∧ ∃ dirList elemList info member defunct stranded,
         collect_paths (versions tr) [] [] = Some (dirList, elemList)
         ∧ stat_query tr (dirList ++ elemList) w = (w', Ret (Some info))
         ∧ classify_versions (build_infoDict info) (versions tr) [] [] []
           = Ret (member, defunct, stranded)
         ∧ r = Three (with_versions tr member) (with_versions tr defunct)
                     (with_versions tr stranded)).
Proof.
  rewrite SplitElementsByStatusViaStat_run.
  destruct (collect_paths _ _ _) as [[dirList elemList]|] eqn:Hc; [|done].
  pose proof (collect_paths_nonempty _ _ _ Hc) as Hne.
  case_bool_decide as Hl.
  - unfold mbind, M_bind. rewrite stat_query_run. cbv zeta.
    intros Hrun. right. split; [by apply Hne|].
    exists dirList, elemList. rewrite stat_query_run. cbv zeta.
    case_bool_decide; rewrite split_by_info_run in Hrun;
      destruct (accurev_stat _ _ _ _) as [info|]; try done;
      destruct (classify_versions _ _ _ _ _) as [[[m df] s]| | |] eqn:Hcl; try done;
      injection Hrun as <- <-; by exists info, m, df, s.
  - intros [= <- <-]. left. split; [|done].
    destruct (versions tr); [done|]. destruct Hl. by apply Hne.
Qed.

End Classifier.

(** ** Calls and outcomes of monadic code *)

Section Traced.
Context {G : Type}.
Implicit Types (w : World G) (P : Call → Prop).

Lemma traced_ret {A} P (a : A) : traced (G:=G) P (mret a).
Proof. intros w. split; [|done]. exists []. by rewrite app_nil_r. Qed.

Lemma traced_bind {A B} P (m : M G A) (f : A → M G B) :
  traced P m → (∀ a, traced P (f a)) → traced P (m ≫= f).
Proof.
  intros Hm Hf w. unfold mbind, M_bind.
  destruct (Hm w) as [(cs & Hcs & HP) Hv].
  destruct (m w) as [w1 [a|e|c|]]; simpl in *; try (split; [by eauto|done]).
  - destruct (Hf a w1) as [(cs' & Hcs' & HP') Hv']. split; [|done].
    exists (cs ++ cs'). rewrite Hcs', Hcs, <-app_assoc. split; [done|].
    by apply Forall_app.
  - split; [by eauto|]. intros msg [= ->]. by destruct (Hv msg).
Qed.

Lemma traced_mono {A} P Q (m : M G A) :
  (∀ c, P c → Q c) → traced P m → traced Q m.
Proof.
  intros HPQ Hm w. destruct (Hm w) as [(cs & Hcs & HP) Hv]. split; [|done].
  exists cs. split; [done|]. by eapply Forall_impl.
Qed.

Lemma traced_call P c : P c → traced (G:=G) P (call c).
Proof. intros Hc w. split; [|done]. exists [c]. split; [done|]. by constructor. Qed.

Lemma traced_get P : traced (G:=G) P get.
Proof. intros w. split; [|done]. exists []. by rewrite app_nil_r. Qed.

Lemma traced_set_repo P g : traced (G:=G) P (set_repo g).
Proof. intros w. split; [|done]. exists []. simpl. by rewrite app_nil_r. Qed.

Lemma traced_set_branchList P b : traced (G:=G) P (set_branchList b).
Proof. intros w. split; [|done]. exists []. simpl. by rewrite app_nil_r. Qed.

Lemma traced_write_lines P f l : P (FileWrite f l) → traced (G:=G) P (write_lines f l).
Proof. intros Hc w. split; [|done]. exists [FileWrite f l]. split; [done|]. by constructor. Qed.

Lemma traced_os_remove P f : P (FileRemove f) → traced (G:=G) P (os_remove f).
Proof. intros Hc w. split; [|done]. exists [FileRemove f]. split; [done|]. by constructor. Qed.

Lemma traced_lift {A} P (o : outcome A) :
  (∀ msg, o ≠ Raise (ValueError msg)) → traced (G:=G) P (lift o).
Proof. intros Ho w. split; [|done]. exists []. simpl. by rewrite app_nil_r. Qed.

Lemma traced_raise {A} P e :
  (∀ msg, e ≠ ValueError msg) → traced (G:=G) (A:=A) P (raise e).
Proof.
  intros He w. split; [exists []; simpl; by rewrite app_nil_r|].
  intros msg [= ->]. by destruct (He msg).
Qed.

Lemma traced_sys_exit {A} P c : traced (G:=G) (A:=A) P (sys_exit c).
Proof. intros w. split; [|done]. exists []. simpl. by rewrite app_nil_r. Qed.

Lemma traced_diverge {A} P : traced (G:=G) (A:=A) P diverge.
Proof. intros w. split; [|done]. exists []. simpl. by rewrite app_nil_r. Qed.

Lemma bind_run_Ret {A B} (m : M G A) (f : A → M G B) w w1 a :
  m w = (w1, Ret a) → (m ≫= f) w = f a w1.
Proof. unfold mbind, M_bind. by intros ->. Qed.

Lemma bind_run_Raise {A B} (m : M G A) (f : A → M G B) w w1 e :
  m w = (w1, Raise e) → (m ≫= f) w = (w1, Raise e).
Proof. unfold mbind, M_bind. by intros ->. Qed.

Lemma bind_run_Exit {A B} (m : M G A) (f : A → M G B) w w1 c :
  m w = (w1, Exit c) → (m ≫= f) w = (w1, Exit c).
Proof. unfold mbind, M_bind. by intros ->. Qed.

Lemma bind_run_Diverge {A B} (m : M G A) (f : A → M G B) w w1 :
  m w = (w1, Diverge) → (m ≫= f) w = (w1, Diverge).
Proof. unfold mbind, M_bind. by intros ->. Qed.

End Traced.

(** ** The batching loop *)

Lemma slice_from_shorter {A} (i : Z) (l : list A) x tmp :
  Py.slice_to i l = x :: tmp → (length (Py.slice_from i l) < length l)%nat.
Proof.
  unfold Py.slice_to, Py.slice_from. rewrite length_drop.
  destruct (Py.slice_index i l) as [|n]; [done|].
  destruct l; simpl; [done|lia].
Qed.

Lemma slice_to_positive {A} (i : Z) (l : list A) :
  0 < i →
  (Py.slice_to (Z.min i (Py.len l)) l = l
   ∧ Py.slice_from (Z.min i (Py.len l)) l = []
   ∧ Py.len l ≤ i)
  ∨ (Py.slice_to (Z.min i (Py.len l)) l = take (Z.to_nat i) l
     ∧ Py.slice_from (Z.min i (Py.len l)) l = drop (Z.to_nat i) l
     ∧ (0 < Z.to_nat i < length l)%nat).
Proof.
  intros Hi. unfold Py.slice_to, Py.slice_from, Py.slice_index, Py.len.
  destruct (Z.ltb_spec (Z.min i (Z.of_nat (length l))) 0) as [?|_]; [lia|].
  destruct (Z.le_gt_cases (Z.of_nat (length l)) i).
  - left. rewrite Z.min_r by done. rewrite Nat2Z.id.
    split; [apply firstn_all|]. split; [by apply drop_ge|done].
  - right. rewrite Z.min_l by lia. repeat split; lia.
Qed.

Lemma batch_loop_unfold_list {G} (cmd : list string → M G bool) maxItems l (w : World G) :
  batch_loop cmd maxItems l w =
    match Py.slice_to (Z.min maxItems (Py.len l)) l with
    | [] => (w, Ret tt)
    | x :: tmp =>
        (cmd (x :: tmp) ≫= λ _, batch_loop cmd maxItems
                                  (Py.slice_from (Z.min maxItems (Py.len l)) l)) w
    end.
Proof.
  rewrite batch_loop_equation_1.
  assert (∀ t (e : Py.slice_to (Z.min maxItems (Py.len l)) l = t),
    batch_loop_unfold_clause_1 cmd maxItems l (exist _ t e) w =
    match t with
    | [] => (w, Ret tt)
    | x :: tmp =>
        (cmd (x :: tmp) ≫= λ _, batch_loop cmd maxItems
                                  (Py.slice_from (Z.min maxItems (Py.len l)) l)) w
    end) as Hgen.
  { intros [|x tmp] e; [done|]. simpl.
    unfold mbind, M_bind.
    destruct (cmd (x :: tmp) w) as [w' [a|e'|c|]]; try done. }
  unfold inspect. apply Hgen.
Qed.

Lemma traced_batch_loop {G} P (cmd : list string → M G bool) maxItems l :
  (∀ tmpList, traced P (cmd tmpList)) → traced P (batch_loop cmd maxItems l).
Proof.
  intros Hcmd. remember (length l) as n eqn:Hn.
  revert l Hn. induction (lt_wf n) as [n _ IH]. intros l -> w.
  rewrite batch_loop_unfold_list.
  destruct (Py.slice_to _ l) as [|x tmp] eqn:E.
  - by apply (traced_ret (G:=G) P tt).
  - apply (traced_bind P (cmd (x :: tmp))); [done|]. intros _.
    eapply IH; [|done]. by eapply slice_from_shorter.
Qed.

(** With a positive batch size, the loop hands the list over in consecutive
    non-empty batches of at most [maxItems] paths. *)
Lemma batch_loop_batches {G} (C : list string → Call) (op : list string → G → bool * G)
    (cmd : list string → M G bool) maxItems :
  0 < maxItems →
  (∀ l w, cmd l w = (mkWorld (files w) (branchList w) (op l (repo w)).2
                             (calls w ++ [C l]), Ret (op l (repo w)).1)) →
  ∀ l w, ∃ batches,
    batch_loop cmd maxItems l w =
      (mkWorld (files w) (branchList w)
         (foldl (λ g b, (op b g).2) (repo w) batches)
         (calls w ++ (C <$> batches)), Ret tt)
    ∧ mjoin batches = l
    ∧ Forall (λ b, b ≠ [] ∧ Py.len b ≤ maxItems) batches.
Proof.
  intros Hpos Hcmd l. remember (length l) as n eqn:Hn.
  revert l Hn. induction (lt_wf n) as [n _ IH]. intros l -> w.
  rewrite batch_loop_unfold_list.
  destruct l as [|x l].
  { exists []. unfold Py.slice_to. rewrite take_nil.
    destruct w. simpl. by rewrite app_nil_r. }
  destruct (slice_to_positive maxItems (x :: l) Hpos)
    as [(-> & -> & Hlen)|(-> & -> & Hk)].
  - exists [x :: l]. unfold mbind, M_bind. rewrite Hcmd.
    rewrite batch_loop_unfold_list. unfold Py.slice_to at 1. rewrite take_nil.
    simpl. rewrite app_nil_r.
    split; [done|]. split; [done|]. by repeat constructor.
  - destruct (Z.to_nat maxItems) as [|k] eqn:Ek; [lia|].
    simpl take. unfold mbind, M_bind. rewrite Hcmd.
    edestruct (IH (length (drop (S k) (x :: l)))) as (batches & -> & Hj & HF);
      [rewrite length_drop; lia|done|].
    exists ((x :: take k l) :: batches). simpl files. simpl branchList.
    simpl repo. simpl calls. split; [|split].
    + simpl. by rewrite <-app_assoc.
    + simpl. rewrite Hj. simpl. by rewrite take_drop.
    + constructor; [|done]. split; [done|].
      unfold Py.len. simpl. rewrite length_take. lia.
Qed.

(** A staging command that treats its paths one after the other ends, over
    non-empty batches, in the state that one call with all the paths gives. *)
Lemma foldl_batches {G} (op : list string → G → bool * G) batches : ∀ g,
  (∀ l1 l2 g, (op (l1 ++ l2) g).2 = (op l2 (op l1 g).2).2) →
  Forall (λ b, b ≠ []) batches →
  foldl (λ g b, (op b g).2) g batches
  = if bool_decide (mjoin batches = []) then g else (op (mjoin batches) g).2.
Proof.
  intros g Happ HF. revert g.
  induction HF as [|b batches Hb HF IH]; intros g; [done|]. simpl.
  rewrite IH. rewrite (bool_decide_eq_false_2 (b ++ _ = []));
    [|by intros [? _]%app_eq_nil].
  case_bool_decide as E; [by rewrite E, app_nil_r|by rewrite Happ].
Qed.

Lemma batch_loop_stages {G} (C : list string → Call) (op : list string → G → bool * G)
    (cmd : list string → M G bool) maxItems :
  0 < maxItems →
  (∀ l1 l2 g, (op (l1 ++ l2) g).2 = (op l2 (op l1 g).2).2) →
  (∀ l w, cmd l w = (mkWorld (files w) (branchList w) (op l (repo w)).2
                             (calls w ++ [C l]), Ret (op l (repo w)).1)) →
  ∀ l w, ∃ batches,
    batch_loop cmd maxItems l w =
      (mkWorld (files w) (branchList w)
         (if bool_decide (l = []) then repo w else (op l (repo w)).2)
         (calls w ++ (C <$> batches)), Ret tt)
    ∧ mjoin batches = l
    ∧ Forall (λ b, b ≠ [] ∧ Py.len b ≤ maxItems) batches.
Proof.
  intros Hpos Happ Hcmd l w.
  destruct (batch_loop_batches C op cmd maxItems Hpos Hcmd l w) as (batches & -> & Hj & HF).
  exists batches. split; [|done].
  rewrite (foldl_batches op batches (repo w) Happ), Hj; [done|].
  eapply Forall_impl; [done|]. by intros b [? _].
Qed.

(** ** Staging and committing *)

Section Staging.
Context {G : Type} `{GitRepo G}.
Implicit Types (w : World G).

Lemma gitRepo_add_run paths w :
  gitRepo_add paths w =
    (mkWorld (files w) (branchList w) (git_add paths (repo w)).2
             (calls w ++ [GitAdd paths]), Ret (git_add paths (repo w)).1).
Proof. done. Qed.

Lemma gitRepo_rm_run paths w :
  gitRepo_rm paths w =
    (mkWorld (files w) (branchList w) (git_rm paths (repo w)).2
             (calls w ++ [GitRm paths]), Ret (git_rm paths (repo w)).1).
Proof. done. Qed.

Lemma gitRepo_commit_run message author date w :
  gitRepo_commit message author date w =
    (mkWorld (files w) (branchList w) (git_commit message author date (repo w)).2
             (calls w ++ [GitCommitCall message author date]),
     Ret (git_commit message author date (repo w)).1).
Proof. done. Qed.

Lemma traced_gitRepo_checkout P b n :
  P (GitCheckout b n) → traced (G:=G) P (gitRepo_checkout b n).
Proof.
  intros HP. unfold gitRepo_checkout.
  apply traced_bind; [by apply traced_call|]. intros _.
  apply traced_bind; [apply traced_get|]. intros w. apply traced_set_repo.
Qed.

Lemma traced_CheckoutBranch P b :
  (∀ n, P (GitCheckout b n)) → traced (G:=G) P (CheckoutBranch b).
Proof.
  intros HP. unfold CheckoutBranch.
  assert (∀ n, traced (G:=G) P
    (gitRepo_checkout b n;;
     w ← get;
     set_branchList (git_branch_list (repo w));;
     w ← get;
     match branchList w with
     | None => raise (TypeError "'NoneType' object is not iterable")
     | Some bl' => from_option mret (raise NoCurrentBranch) (List.find isCurrent bl')
     end)) as Hswitch.
  { intros n. apply traced_bind; [by apply traced_gitRepo_checkout|]. intros _.
    apply traced_bind; [apply traced_get|]. intros w.
    apply traced_bind; [apply traced_set_branchList|]. intros _.
    apply traced_bind; [apply traced_get|]. intros w'.
    destruct (branchList w') as [bl'|]; [|by apply traced_raise].
    destruct (List.find isCurrent bl'); simpl;
      [apply traced_ret|by apply traced_raise]. }
  apply traced_bind; [apply traced_get|]. intros w.
  apply traced_bind.
  { destruct (branchList w); [apply traced_ret|apply traced_set_branchList]. }
  intros _. apply traced_bind; [apply traced_get|]. intros w'.
  assert (traced (G:=G) P
    (match git_status (repo w') with
     | Some status =>
         if bool_decide (branch status ≠ Some b)
         then gitRepo_checkout b true else mret tt
     | None => mret tt
     end;;
     set_branchList
       (Some [{| name := b; shortHash := None; remote := None;
                 shortComment := Some "Initial Commit"; isCurrent := true |}]);;
     mret {| name := b; shortHash := None; remote := None;
             shortComment := Some "Initial Commit"; isCurrent := true |})) as Hinit.
  { apply traced_bind.
    { destruct (git_status (repo w')); [|apply traced_ret].
      case_bool_decide; [by apply traced_gitRepo_checkout|apply traced_ret]. }
    intros _. apply traced_bind; [apply traced_set_branchList|]. intros _.
    apply traced_ret. }
  destruct (branchList w') as [[|b0 bl]|]; [done| |done].
  destruct (find_branch b (b0 :: bl)) as [b1|]; [|apply Hswitch].
  destruct (isCurrent b1); [apply traced_ret|apply Hswitch].
Qed.

Lemma traced_GitCommit_with P maxItems branch author date message addList rmList :
  (∀ c, is_staging_call c = true → P c) →
  traced (G:=G) P (GitCommit_with maxItems branch author date message addList rmList).
Proof.
  intros HP. unfold GitCommit_with.
  apply traced_bind.
  { destruct branch as [b|]; [|apply traced_ret].
    apply traced_bind; [|intros; apply traced_ret].
    apply traced_CheckoutBranch. intros n. by apply HP. }
  intros _. apply traced_bind.
  { apply traced_batch_loop. intros l w. rewrite gitRepo_add_run. split; [|done].
    exists [GitAdd l]. split; [done|]. constructor; [by apply HP|done]. }
  intros _. apply traced_bind.
  { apply traced_batch_loop. intros l w. rewrite gitRepo_rm_run. split; [|done].
    exists [GitRm l]. split; [done|]. constructor; [by apply HP|done]. }
  intros _ w. rewrite gitRepo_commit_run. split; [|done].
  eexists [_]. split; [done|]. constructor; [by apply HP|done].
Qed.

End Staging.

(** C7: for any batch size larger than zero, staging the add list and the
    remove list in batches of that size leaves the repository in the state,
    and the commit with the result, that staging each whole list in one call
    gives, provided the staging commands treat their paths one after the
    other. *)
Theorem batching_invariance {G : Type} `{PathwiseStaging G} (maxItems : Z)
    (branch : option string) (author : string) (date : Z) (message : string)
    (addList rmList : list string) (w : World G) :
  0 < maxItems →
  let batched := GitCommit_with maxItems branch author date message addList rmList w in
  let whole := GitCommit_unbatched branch author date message addList rmList w in
  batched.2 = whole.2
  ∧ repo batched.1 = repo whole.1
  ∧ files batched.1 = files whole.1
  ∧ branchList batched.1 = branchList whole.1.
Proof.
  intros Hpos. cbv zeta. unfold GitCommit_with, GitCommit_unbatched.
  destruct (match branch with
            | Some b => CheckoutBranch b;; mret tt
            | None => mret tt
            end w) as [w0 [[]|e|c|]] eqn:E0;
    [|by rewrite !(bind_run_Raise _ _ _ _ _ E0)
     |by rewrite !(bind_run_Exit _ _ _ _ _ E0)
     |by rewrite !(bind_run_Diverge _ _ _ _ E0)].
  rewrite !(bind_run_Ret _ _ _ _ _ E0).
  destruct (batch_loop_stages GitAdd git_add (λ tmpList, gitRepo_add tmpList)
              maxItems Hpos git_add_app gitRepo_add_run addList w0)
    as (batchesA & HA & _).
  rewrite (bind_run_Ret _ _ _ _ _ HA). clear HA.
  set (wA := mkWorld _ _ _ _).
  destruct (batch_loop_stages GitRm git_rm (λ tmpList, gitRepo_rm tmpList)
              maxItems Hpos git_rm_app gitRepo_rm_run rmList wA)
    as (batchesR & HR & _).
  rewrite (bind_run_Ret _ _ _ _ _ HR). clear HR.
  rewrite gitRepo_commit_run. subst wA.
  unfold mbind, M_bind.
  repeat case_bool_decide; rewrite ?gitRepo_add_run, ?gitRepo_rm_run; simpl;
    rewrite ?gitRepo_rm_run; simpl; rewrite ?gitRepo_commit_run; simpl; done.
Qed.

Global Instance sim_pathwise : PathwiseStaging SimGit.
Proof.
  split; intros l1 l2 g; simpl; unfold sim_add, sim_rm; simpl; f_equal;
    rewrite list_to_set_app_L; apply set_eq; intros x;
    rewrite ?elem_of_union, ?elem_of_difference, ?elem_of_union; tauto.
Qed.

Lemma batching_invariance_witness :
  let batched := GitCommit_with 2 (Some "dev") "joe <joe@no-email.com>" 0 "msg"
                   ["a"; "b"; "c"] ["d"] sim_world in
  let whole := GitCommit_unbatched (Some "dev") "joe <joe@no-email.com>" 0 "msg"
                 ["a"; "b"; "c"] ["d"] sim_world in
  batched.2 = whole.2
  ∧ repo batched.1 = repo whole.1
  ∧ files batched.1 = files whole.1
  ∧ branchList batched.1 = branchList whole.1.
Proof.
  apply (batching_invariance (G:=SimGit) 2). lia.
Defined.

(** The batches of the example: two calls of [git add], one of [git rm]. *)
Example batching_calls :
  calls (GitCommit_with 2 (Some "dev") "joe <joe@no-email.com>" 0 "msg"
           ["a"; "b"; "c"] ["d"] sim_world).1
  = [GitCheckout "dev" true; GitAdd ["a"; "b"]; GitAdd ["c"]; GitRm ["d"];
     GitCommitCall "msg" "joe <joe@no-email.com>" 0].
Proof. vm_compute. reflexivity. Qed.

(** ** Paths below a directory *)

Lemma rfind_from_notin c l : ∀ i acc, c ∉ l → Py.rfind_from c l i acc = acc.
Proof.
  induction l as [|x l IH]; intros i acc Hc; simpl; [done|].
  rewrite IH by (intros ?; apply Hc; by right).
  destruct (Ascii.eqb_spec x c) as [->|]; [|done]. destruct Hc. left.
Qed.

Lemma rfind_from_app c l1 l2 : ∀ i acc,
  Py.rfind_from c (l1 ++ l2) i acc
  = Py.rfind_from c l2 (i + Z.of_nat (length l1)) (Py.rfind_from c l1 i acc).
Proof.
  induction l1 as [|x l1 IH]; intros i acc; simpl.
  - f_equal. lia.
  - rewrite IH. f_equal. lia.
Qed.

Lemma rstrip_slash_snoc_slash l : Py.rstrip_slash (l ++ [Py.slash]) = Py.rstrip_slash l.
Proof. induction l as [|a l IH]; simpl; [done|]. by rewrite IH. Qed.

Lemma rstrip_slash_snoc c l : c ≠ Py.slash → Py.rstrip_slash (l ++ [c]) = l ++ [c].
Proof.
  intros Hc. induction l as [|a l IH]; simpl.
  - by destruct (Ascii.eqb_spec c Py.slash).
  - rewrite IH. by destruct l.
Qed.

(** The [dirname] of a directory path followed by a slash and a name is the
    directory path. *)
Lemma dirname_chars_child D N :
  D ≠ [] → last D ≠ Some Py.slash → Py.slash ∉ N →
  Py.dirname_chars (D ++ Py.slash :: N) = D.
Proof.
  intros HD Hlast HN.
  destruct (proj2 (last_is_Some D) HD) as [c Hc].
  apply last_Some in Hc as [D' ->].
  assert (c ≠ Py.slash) as Hcs.
  { intros ->. apply Hlast. by rewrite last_snoc. }
  unfold Py.dirname_chars, Py.rfind. cbv zeta.
  rewrite rfind_from_app. simpl.
  rewrite rfind_from_notin by done.
  replace (Z.to_nat (0 + Z.of_nat (length (D' ++ [c])) + 1))
    with (length (D' ++ [c]) + 1)%nat by lia.
  rewrite take_app_add. simpl take.
  rewrite bool_decide_eq_false_2 by (by destruct D').
  unfold Py.all_slashes. rewrite !forallb_app. simpl.
  destruct (Ascii.eqb_spec c Py.slash) as [?|_]; [done|].
  rewrite andb_false_r. simpl.
  rewrite rstrip_slash_snoc_slash. by apply rstrip_slash_snoc.
Qed.

Lemma dirname_child d name :
  d ≠ "" → last (Py.chars d) ≠ Some Py.slash → Py.slash ∉ Py.chars name →
  Py.dirname (d +:+ "/" +:+ name) = d.
Proof.
  intros Hd Hlast Hn. unfold Py.dirname. rewrite !chars_app.
  change (Py.chars "/" ++ Py.chars name) with (Py.slash :: Py.chars name).
  rewrite dirname_chars_child; [apply str_chars| |done..].
  intros E. apply Hd. apply chars_inj. by rewrite E.
Qed.

Lemma last_nonempty_name l N :
  N ≠ [] → Py.slash ∉ N → last (l ++ Py.slash :: N) ≠ Some Py.slash.
Proof.
  intros HN Hs. destruct (proj2 (last_is_Some N) HN) as [c Hc].
  pose proof Hc as [N' ->]%last_Some.
  change (l ++ Py.slash :: N' ++ [c]) with (l ++ (Py.slash :: N') ++ [c]).
  rewrite app_assoc, last_snoc. intros [= ->]. apply Hs.
  apply elem_of_app. right. left.
Qed.

Lemma chars_nonempty s : s ≠ "" → Py.chars s ≠ [].
Proof. intros Hs E. apply Hs. apply chars_inj. by rewrite E. Qed.

Lemma app_slash_nonempty x name : x +:+ "/" +:+ name ≠ "".
Proof. intros E. apply (f_equal Py.chars) in E. rewrite chars_app in E. by destruct (Py.chars x). Qed.

Lemma nested_below_shape d p :
  nested_below d p → p ≠ "" ∧ last (Py.chars p) ≠ Some Py.slash.
Proof.
  intros [name Hn Hs|p' name _ Hn Hs]; (split; [apply app_slash_nonempty|]);
    rewrite !chars_app;
    change (Py.chars "/" ++ Py.chars name) with (Py.slash :: Py.chars name);
    apply last_nonempty_name; (done || by apply chars_nonempty).
Qed.

Lemma replace_backslash_length s :
  String.length (Py.replace_backslash s) = String.length s.
Proof.
  unfold Py.replace_backslash, Py.replace_backslash_chars.
  by rewrite <-!chars_length, chars_str, length_fmap.
Qed.

Lemma nested_below_not_root d p : d ≠ "" → nested_below d p → ¬ is_root p.
Proof.
  intros Hd Hp Hroot. apply (f_equal String.length) in Hroot.
  rewrite replace_backslash_length in Hroot.
  assert (∀ x name, x ≠ "" → name ≠ "" → String.length (x +:+ "/" +:+ name) ≠ 2%nat) as Hlen.
  { intros x name Hx Hname. rewrite <-chars_length, !chars_app, !length_app, !chars_length.
    destruct x; [done|]. destruct name; [done|]. simpl. lia. }
  destruct Hp as [name Hn _|p' name Hp' Hn _]; simpl in Hroot.
  - by apply (Hlen d name).
  - apply (Hlen p' name); [|done..]. by apply nested_below_shape in Hp' as [? _].
Qed.

(** Repeated truncation of a path below [d] arrives at [d], and does not
    meet the root marker before. *)
Lemma nested_below_ancestor d p :
  d ≠ "" → last (Py.chars d) ≠ Some Py.slash → nested_below d p →
  ∃ n, ancestor (S n) p = d ∧ ∀ j, (j ≤ n)%nat → ¬ is_root (ancestor j p).
Proof.
  intros Hd Hlast Hp. induction Hp as [name Hn Hs|p name Hp IH Hn Hs].
  - exists O. split; [by apply dirname_child|].
    intros j Hj. assert (j = O) as -> by lia.
    apply (nested_below_not_root d); [done|]. by constructor.
  - destruct IH as (n & Hanc & Hnot).
    destruct (nested_below_shape d p Hp) as [Hp1 Hp2].
    exists (S n). split.
    + by rewrite ancestor_S, dirname_child.
    + intros [|j] Hj.
      * apply (nested_below_not_root d); [done|]. by constructor.
      * rewrite ancestor_S, dirname_child by done. apply Hnot. lia.
Qed.

(** A plain directory is among the parents of every path below it. *)
Lemma nested_below_parents d p parents :
  plain_dir d → nested_below d p →
  GetParentPaths (Some p) = Some parents → d ∈ parents.
Proof.
  intros (Hd & Hlast & Hroot) Hp (k & [Hk _] & ->)%GetParentPaths_Some.
  destruct (nested_below_ancestor d p Hd Hlast Hp) as (n & Hanc & Hnot).
  assert (n < k)%nat as Hnk.
  { destruct (Nat.lt_ge_cases n k) as [|Hge]; [done|].
    destruct (Nat.eq_dec (S k) (S n)) as [E|E].
    - injection E as ->. by rewrite Hanc in Hk.
    - destruct (Hnot (S k)); [lia|done]. }
  unfold ancestor_chain. apply list_elem_of_fmap. exists n. split; [done|].
  apply elem_of_seq. lia.
Qed.

(** ** Classification *)

Lemma scan_parents_Ret d parents b :
  scan_parents d parents = Ret b →
  (b = true ↔ ∃ q, q ∈ parents ∧ d !! Py.replace_backslash q = Some true)
  ∧ (b = false → ∀ q, q ∈ parents → d !! Py.replace_backslash q = Some false).
Proof.
  induction parents as [|p parents IH]; simpl.
  - intros [= <-]. split; [|by intros _ q ?%elem_of_nil].
    split; [done|]. by intros (q & ?%elem_of_nil & _).
  - destruct (d !! Py.replace_backslash p) as [[]|] eqn:E; [| |done].
    + intros [= <-]. split; [|done]. split; [|done].
      intros _. exists p. split; [left|done].
    + intros [Ht Hf]%IH. split.
      * rewrite Ht. split.
        -- intros (q & Hq & Hd). exists q. split; [by right|done].
        -- intros (q & [->|Hq]%elem_of_cons & Hd); [congruence|eauto].
      * intros Hb q [->|Hq]%elem_of_cons; [done|by apply Hf].
Qed.

(** What the lookups say about a version that the second pass classifies. *)
Lemma class_of_Some d v c :
  class_of d v = Some c →
  match c with
  | Defunct => d !! norm_path v = Some true
  | Stranded =>
      d !! norm_path v = Some false
      ∧ ∃ parents q, GetParentPaths (Some (path v)) = Some parents
                     ∧ q ∈ parents ∧ d !! Py.replace_backslash q = Some true
  | Member =>
      d !! norm_path v = Some false
      ∧ ∃ parents, GetParentPaths (Some (path v)) = Some parents
                   ∧ ∀ q, q ∈ parents → d !! Py.replace_backslash q = Some false
  end.
Proof.
  unfold class_of, version_status, norm_path.
  destruct (d !! Py.replace_backslash (path v)) as [[]|]; simpl; [| |done].
  - by intros [= <-].
  - destruct (GetParentPaths (Some (path v))) as [parents|]; [|done].
    destruct (scan_parents d parents) as [[]| | |] eqn:Es; [| |done..];
      intros [= <-]; simpl; apply scan_parents_Ret in Es as [Ht Hf].
    + split; [done|]. destruct (proj1 Ht eq_refl) as (q & Hq & Hd). by exists parents, q.
    + split; [done|]. exists parents. split; [done|]. by apply Hf.
Qed.

Section ClassifierProperties.
Context `{AccuRev} {G : Type}.
Implicit Types (w : World G) (tr : Transaction).

(** A call of the classifier that returns three transactions has classified
    every version with the answer of its status query. *)
Lemma SplitElementsByStatusViaStat_Three tr w w' member defunct stranded :
  SplitElementsByStatusViaStat tr w = (w', Ret (Three member defunct stranded)) →
  ∃ fullList info,
    stat_query tr fullList w = (w', Ret (Some info))
    ∧ Forall (λ v, is_Some (class_of (build_infoDict info) v)) (versions tr)
    ∧ versions member = filter (λ v, class_of (build_infoDict info) v = Some Member) (versions tr)
    ∧ versions defunct = filter (λ v, class_of (build_infoDict info) v = Some Defunct) (versions tr)
    ∧ versions stranded = filter (λ v, class_of (build_infoDict info) v = Some Stranded) (versions tr).
Proof.
  intros [(_ & [=] & _)|(_ & dl & el & info & m & df & s & _ & Hq & Hc & [= -> -> ->])]
    %SplitElementsByStatusViaStat_Ret.
  apply classify_versions_Ret in Hc as (-> & -> & -> & HF).
  by exists (dl ++ el), info.
Qed.

(** C1: the three lists of a classified transaction hold each of its
    versions once, the paths of any two of the lists are disjoint, and the
    paths of the three lists together are the paths of the transaction. *)
Theorem classification_partitions tr w w' member defunct stranded :
  SplitElementsByStatusViaStat tr w = (w', Ret (Three member defunct stranded)) →
  versions member ++ versions defunct ++ versions stranded ≡ₚ versions tr
  ∧ (∀ p, p ∈ path <$> versions tr ↔
          p ∈ path <$> versions member ∨ p ∈ path <$> versions defunct
          ∨ p ∈ path <$> versions stranded)
  ∧ (∀ p, ¬ (p ∈ path <$> versions member ∧ p ∈ path <$> versions defunct))
  ∧ (∀ p, ¬ (p ∈ path <$> versions member ∧ p ∈ path <$> versions stranded))
  ∧ (∀ p, ¬ (p ∈ path <$> versions defunct ∧ p ∈ path <$> versions stranded)).
Proof.
  intros (fullList & info & _ & HF & -> & -> & ->)%SplitElementsByStatusViaStat_Three.
  set (d := build_infoDict info) in *.
  pose proof (filter_status_Permutation d (versions tr) HF) as Hperm.
  assert (∀ c1 c2 p, c1 ≠ c2 →
    ¬ (p ∈ path <$> filter (λ v, class_of d v = Some c1) (versions tr)
       ∧ p ∈ path <$> filter (λ v, class_of d v = Some c2) (versions tr))) as Hdisj.
  { intros c1 c2 p Hne [(v1 & -> & [Hc1 _]%list_elem_of_filter)%list_elem_of_fmap
                        (v2 & Hp & [Hc2 _]%list_elem_of_filter)%list_elem_of_fmap].
    rewrite (class_of_path d v1 v2 Hp) in Hc1. congruence. }
  split; [done|]. split; [|by split; [|split]; intros p; apply Hdisj].
  intros p. rewrite <-!elem_of_app, <-!fmap_app. by rewrite Hperm.
Qed.

(** C2: in a classified transaction, a version whose path the status query
    marks defunct is in the defunct list; any other version with an ancestor
    directory that is marked defunct is in the stranded list; every other
    version is in the member list. So a version that is not defunct and lies
    below a defunct directory is stranded. *)
Theorem classification_rule tr w w' member defunct stranded :
  SplitElementsByStatusViaStat tr w = (w', Ret (Three member defunct stranded)) →
  ∃ fullList info,
    stat_query tr fullList w = (w', Ret (Some info))
    ∧ ∀ v, v ∈ versions tr →
        ∃ parents,
          GetParentPaths (Some (path v)) = Some parents
          ∧ (build_infoDict info !! norm_path v = Some true → v ∈ versions defunct)
          ∧ (build_infoDict info !! norm_path v ≠ Some true →
             (∃ q, q ∈ parents
                   ∧ build_infoDict info !! Py.replace_backslash q = Some true) →
             v ∈ versions stranded)
          ∧ (build_infoDict info !! norm_path v ≠ Some true →
             (∀ q, q ∈ parents →
                   build_infoDict info !! Py.replace_backslash q ≠ Some true) →
             v ∈ versions member)
          ∧ (∀ dv, dv ∈ versions defunct → path dv ∈ parents →
                   v ∉ versions defunct → v ∈ versions stranded)
          ∧ (∀ dv, dv ∈ versions defunct → plain_dir (path dv) →
                   nested_below (path dv) (path v) →
                   v ∉ versions defunct → v ∈ versions stranded).
Proof.
  intros Hrun.
  pose proof Hrun as [(_ & [=] & _)|(_ & dl & el & info' & _ & _ & _ & Hcp & _)]
    %SplitElementsByStatusViaStat_Ret.
  apply collect_paths_Some in Hcp as [_ Hterm].
  apply SplitElementsByStatusViaStat_Three in Hrun
    as (fullList & info & Hq & HF & -> & -> & ->).
  exists fullList, info. split; [done|]. intros v Hv.
  set (d := build_infoDict info) in *.
  rewrite Forall_forall in HF, Hterm.
  destruct (Hterm v Hv) as [parents Hp]. exists parents. split; [done|].
  destruct (HF v Hv) as [c Hc]. pose proof (class_of_Some d v c Hc) as Hcs.
  assert (∀ c', c = c' → v ∈ filter (λ v, class_of d v = Some c') (versions tr)) as Hin.
  { intros c' <-. by apply list_elem_of_filter. }
  assert (∀ q, q ∈ parents → d !! Py.replace_backslash q = Some true →
               d !! norm_path v ≠ Some true → c = Stranded) as Hstr.
  { intros q Hin' Hd Hn. destruct c; [|done..].
    destruct Hcs as (_ & ps & Hps & Hall). assert (ps = parents) as -> by congruence.
    specialize (Hall q Hin'). congruence. }
  repeat split.
  - intros Hd. apply Hin. destruct c; [|done|]; destruct Hcs; congruence.
  - intros Hn (q & Hin' & Hd). apply Hin. by eapply Hstr.
  - intros Hn Hall. apply Hin. destruct c; [done|done|].
    destruct Hcs as (_ & ps & q & Hps & Hin' & Hd). assert (ps = parents) as -> by congruence.
    by destruct (Hall q Hin').
  - intros dv [Hdv _]%list_elem_of_filter Hpar Hnd. apply Hin.
    apply class_of_Some in Hdv. eapply (Hstr (path dv)); [done|done|].
    intros Hd. apply Hnd, list_elem_of_filter. split; [|done].
    destruct c; [|done|]; destruct Hcs; congruence.
  - intros dv [Hdv _]%list_elem_of_filter Hplain Hnest Hnd. apply Hin.
    apply class_of_Some in Hdv.
    eapply (Hstr (path dv)); [by eapply nested_below_parents|done|].
    intros Hd. apply Hnd, list_elem_of_filter. split; [|done].
    destruct c; [|done|]; destruct Hcs; congruence.
Qed.

(** A transaction with at least one version has a non-empty combined path
    set, so the classifier does not take its early [return] of two lists. *)
Lemma classifier_early_return tr w :
  0 < Py.len (versions tr) →
  (∀ dirList elemList,
     collect_paths (versions tr) [] [] = Some (dirList, elemList) →
     0 < Py.len (dirList ++ elemList))
  ∧ ∀ w' a b, SplitElementsByStatusViaStat tr w ≠ (w', Ret (Two a b)).
Proof.
  intros Hlen. assert (versions tr ≠ []) as Hne.
  { intros E. rewrite E in Hlen. done. }
  split.
  - intros dl el Hc. by apply (collect_paths_nonempty _ _ _ Hc).
  - intros w' a b [(E & _)|(_ & dl & el & info & m & df & s & _ & _ & _ & [=])]
      %SplitElementsByStatusViaStat_Ret. done.
Qed.

End ClassifierProperties.

(** Transaction 100 of the spec: [/./dir] is defunct and [/./dir/a.txt],
    which lies below it, is stranded. *)
Example split100_result :
  split100.2 = Ret (Three (with_versions tx100 [])
                          (with_versions tx100 [dir_version "/./dir"])
                          (with_versions tx100 [file_version "/./dir/a.txt"])).
Proof. vm_compute. reflexivity. Qed.

Lemma classification_partitions_witness :
  let member := with_versions tx100 [] in
  let defunct := with_versions tx100 [dir_version "/./dir"] in
  let stranded := with_versions tx100 [file_version "/./dir/a.txt"] in
  versions member ++ versions defunct ++ versions stranded ≡ₚ versions tx100
  ∧ (∀ p, p ∈ path <$> versions tx100 ↔
          p ∈ path <$> versions member ∨ p ∈ path <$> versions defunct
          ∨ p ∈ path <$> versions stranded)
  ∧ (∀ p, ¬ (p ∈ path <$> versions member ∧ p ∈ path <$> versions defunct))
  ∧ (∀ p, ¬ (p ∈ path <$> versions member ∧ p ∈ path <$> versions stranded))
  ∧ (∀ p, ¬ (p ∈ path <$> versions defunct ∧ p ∈ path <$> versions stranded)).
Proof.
  apply (classification_partitions (H:=sim_accurev depot100 true)
           tx100 sim_world split100.1).
  vm_compute. reflexivity.
Defined.

Lemma classification_rule_witness :
  ∃ fullList info,
    stat_query (H:=sim_accurev depot100 true) tx100 fullList sim_world
      = (split100.1, Ret (Some info))
    ∧ ∀ v, v ∈ versions tx100 →
        ∃ parents,
          GetParentPaths (Some (path v)) = Some parents
          ∧ (build_infoDict info !! norm_path v = Some true →
             v ∈ [dir_version "/./dir"])
          ∧ (build_infoDict info !! norm_path v ≠ Some true →
             (∃ q, q ∈ parents
                   ∧ build_infoDict info !! Py.replace_backslash q = Some true) →
             v ∈ [file_version "/./dir/a.txt"])
          ∧ (build_infoDict info !! norm_path v ≠ Some true →
             (∀ q, q ∈ parents →
                   build_infoDict info !! Py.replace_backslash q ≠ Some true) →
             v ∈ [])
          ∧ (∀ dv, dv ∈ [dir_version "/./dir"] → path dv ∈ parents →
                   v ∉ [dir_version "/./dir"] → v ∈ [file_version "/./dir/a.txt"])
          ∧ (∀ dv, dv ∈ [dir_version "/./dir"] → plain_dir (path dv) →
                   nested_below (path dv) (path v) →
                   v ∉ [dir_version "/./dir"] → v ∈ [file_version "/./dir/a.txt"]).
Proof.
  apply (classification_rule (H:=sim_accurev depot100 true) tx100 sim_world split100.1
           (with_versions tx100 [])
           (with_versions tx100 [dir_version "/./dir"])
           (with_versions tx100 [file_version "/./dir/a.txt"])).
  vm_compute. reflexivity.
Defined.

(** ** The promotion handler *)

Lemma scan_parents_no_ValueError d parents msg :
  scan_parents d parents ≠ Raise (ValueError msg).
Proof.
  induction parents as [|q parents IH]; simpl; [done|].
  by destruct (d !! Py.replace_backslash q) as [[]|].
Qed.

Lemma classify_versions_no_ValueError d vs : ∀ m df s msg,
  classify_versions d vs m df s ≠ Raise (ValueError msg).
Proof.
  induction vs as [|v vs IH]; intros m df s msg; simpl; [done|].
  destruct (version_status d v) as [[[] []]|e| |] eqn:E; try done.
  intros [= ->]. revert E. unfold version_status.
  destruct (d !! _) as [[]|]; simpl; [done| |done].
  destruct (GetParentPaths _); [|done].
  pose proof (scan_parents_no_ValueError d l msg).
  destruct (scan_parents d l); naive_solver.
Qed.

Section Handler.
Context `{AccuRev} {G : Type} `{GitRepo G}.
Variable config : Config.
Implicit Types (w : World G) (tr : Transaction).

Lemma PopAccurevTransaction_run tr dst w :
  PopAccurevTransaction tr dst w =
    let stream := GetTransactionDestStream tr in
    let elemList := path <$> versions tr in
    if bool_decide (maxCmdItems < Py.len (versions tr)) then
      (mkWorld (delete ".pop_list" (<[".pop_list" := elemList]> (files w)))
               (branchList w) (repo w)
               (calls w ++ [FileWrite ".pop_list" elemList;
                            AccurevPop stream dst (id tr) (listFile ".pop_list");
                            FileRemove ".pop_list"]),
       Ret (accurev_pop stream dst (id tr) (listFile ".pop_list")
                        (<[".pop_list" := elemList]> (files w))))
    else
      (mkWorld (files w) (branchList w) (repo w)
               (calls w ++ [AccurevPop stream dst (id tr) (elementList elemList)]),
       Ret (accurev_pop stream dst (id tr) (elementList elemList) (files w))).
Proof.
  unfold PopAccurevTransaction. cbv zeta. case_bool_decide; [|done].
  cbv [mbind M_bind mret M_ret write_lines accurev_pop_call call get os_remove
       files branchList repo calls].
  by rewrite <-!app_assoc.
Qed.

Lemma traced_stat_query tr l : traced (G:=G) no_commit (stat_query tr l).
Proof.
  intros w. rewrite stat_query_run. cbv zeta.
  case_bool_decide; (split; [|done]); eexists; (split; [done|]);
    by repeat constructor.
Qed.

Lemma traced_SplitElementsByStatusViaStat tr :
  traced (G:=G) no_commit (SplitElementsByStatusViaStat tr).
Proof.
  intros w. rewrite SplitElementsByStatusViaStat_run.
  destruct (collect_paths _ _ _) as [[dl el]|]; [|by apply (traced_diverge no_commit)].
  case_bool_decide; [|by apply (traced_ret no_commit)].
  apply traced_bind; [apply traced_stat_query|].
  intros info w'. rewrite split_by_info_run. split.
  - exists []. by rewrite app_nil_r.
  - intros msg. simpl. destruct info as [info|]; [|done].
    pose proof (classify_versions_no_ValueError (build_infoDict info)
                  (versions tr) [] [] [] msg).
    destruct (classify_versions _ _ _ _ _) as [[[??]?]| | |]; naive_solver.
Qed.

Lemma traced_OnPromote_addList member :
  traced (G:=G) no_commit (OnPromote_addList config member).
Proof.
  unfold OnPromote_addList. case_bool_decide; [|apply traced_ret].
  apply traced_bind.
  - intros w. rewrite PopAccurevTransaction_run. cbv zeta.
    case_bool_decide; (split; [|done]); eexists; (split; [done|]);
      by repeat constructor.
  - intros []; [apply traced_ret|apply traced_sys_exit].
Qed.

Lemma OnPromote_rmList_loop_run vs : ∀ rmList w,
  ∃ g, OnPromote_rmList_loop vs rmList w =
         (mkWorld (files w) (branchList w) g (calls w ++ rmList_calls vs),
          Ret (rmList ++ (LocalElementPath ∘ path
                            <$> filter (λ v, file_or_link v = true) vs))).
Proof.
  induction vs as [|v vs IH]; intros rmList w.
  - exists (repo w). destruct w. unfold rmList_calls. simpl. by rewrite !app_nil_r.
  - unfold rmList_calls. rewrite bind_cons. fold (rmList_calls vs).
    cbn [OnPromote_rmList_loop].
    destruct (dir v && negb (is_link v)) eqn:E.
    + rewrite filter_cons_False by (unfold file_or_link; by rewrite E).
      unfold mbind at 1, M_bind at 1. simpl.
      unfold mbind at 1, M_bind at 1. simpl.
      edestruct IH as [g ->]. exists g. simpl. by rewrite <-!app_assoc.
    + rewrite filter_cons_True by (unfold file_or_link; by rewrite E).
      edestruct IH as [g ->]. exists g. simpl. by rewrite <-app_assoc.
Qed.

Lemma OnPromote_rmList_run defunct w :
  ∃ g, OnPromote_rmList defunct w =
         (mkWorld (files w) (branchList w) g (calls w ++ rmList_calls (versions defunct)),
          Ret (removal_list defunct)).
Proof. apply (OnPromote_rmList_loop_run (versions defunct) [] w). Qed.

Lemma rmList_calls_no_commit vs : Forall no_commit (rmList_calls vs).
Proof.
  induction vs as [|v vs IH]; [done|].
  unfold rmList_calls. rewrite bind_cons. apply Forall_app. split; [|done].
  destruct (dir v && negb (is_link v)); by repeat constructor.
Qed.

Lemma traced_OnPromote_rmList defunct :
  traced (G:=G) no_commit (OnPromote_rmList defunct).
Proof.
  intros w. destruct (OnPromote_rmList_run defunct w) as [g ->]. split; [|done].
  eexists. split; [done|]. apply rmList_calls_no_commit.
Qed.

Lemma traced_OnPromote_commit tr stream addList rmList :
  traced (G:=G) (λ _, True) (OnPromote_commit config tr stream addList rmList).
Proof.
  unfold OnPromote_commit. destruct (_ || _); [|apply traced_ret].
  apply traced_bind; [by apply traced_GitCommit_with|].
  intros []; [apply traced_ret|].
  apply traced_bind; [apply traced_get|]. intros w.
  destruct (git_lastError (repo w)) as [output|]; [|by apply traced_raise].
  destruct (Py.contains _ _); apply traced_ret.
Qed.

(** With an empty add list and an empty remove list the handler is done. *)
Lemma OnPromote_commit_empty tr stream w :
  OnPromote_commit config tr stream [] [] w = (w, Ret false).
Proof. done. Qed.

(** How a run of the handler that reaches the computation of its lists
    continues. *)
Lemma OnPromote_run tr w w1 w2 w3 st member defunct stranded addList rmList :
  0 < Py.len (versions tr) →
  GetTransactionDestStream tr = Some st →
  IsStreamAllowed config (Some st) = true →
  SplitElementsByStatusViaStat tr w = (w1, Ret (Three member defunct stranded)) →
  OnPromote_addList config member w1 = (w2, Ret addList) →
  OnPromote_rmList defunct w2 = (w3, Ret rmList) →
  OnPromote config tr w = OnPromote_commit config tr (Some st) addList rmList w3.
Proof.
  intros Hlen Hst Hallow Hsplit Hadd Hrm. unfold OnPromote.
  rewrite bool_decide_eq_true_2 by done. rewrite Hst, Hallow. simpl.
  rewrite (bind_run_Ret _ _ _ _ _ Hsplit).
  rewrite (bind_run_Ret _ _ _ _ _ Hadd).
  by rewrite (bind_run_Ret _ _ _ _ _ Hrm).
Qed.

End Handler.

Lemma traced_run {G A} P (m : M G A) w w' o :
  traced P m → m w = (w', o) →
  (∃ cs, calls w' = calls w ++ cs ∧ Forall P cs) ∧ ∀ msg, o ≠ Raise (ValueError msg).
Proof. intros Hm Hrun. specialize (Hm w). by rewrite Hrun in Hm. Qed.

Lemma no_commit_among cs :
  Forall no_commit cs → ¬ Exists (λ c, is_commit_call c = true) cs.
Proof.
  intros HF (c & Hc & Hcommit)%Exists_exists.
  rewrite Forall_forall in HF. specialize (HF c Hc). unfold no_commit in HF. congruence.
Qed.

Lemma scan_parents_missing d parents i parent :
  parents !! i = Some parent →
  d !! Py.replace_backslash parent = None →
  (∀ j q, (j < i)%nat → parents !! j = Some q → d !! Py.replace_backslash q = Some false) →
  scan_parents d parents = Raise (StatusNotFound (Py.replace_backslash parent)).
Proof.
  revert i. induction parents as [|q parents IH]; intros i Hi Hd Hbefore; [done|].
  destruct i as [|i]; simpl in *.
  - injection Hi as ->. by rewrite Hd.
  - rewrite (Hbefore O q) by (done || lia).
    apply (IH i); [done..|]. intros j q' Hj Hq'. apply (Hbefore (S j)); [lia|done].
Qed.

Lemma status_missing_raise d v :
  status_missing d v →
  ∃ p, d !! p = None ∧ version_status d v = Raise (StatusNotFound p).
Proof.
  unfold status_missing, version_status, norm_path.
  intros [Hd|(Hd & parents & i & parent & Hp & Hi & Hm & Hbefore)]; rewrite Hd.
  - eauto.
  - simpl. rewrite Hp. erewrite scan_parents_missing by done. eauto.
Qed.

Lemma classify_versions_missing d vs v : ∀ m df s,
  Forall (λ v, is_Some (GetParentPaths (Some (path v)))) vs →
  v ∈ vs → status_missing d v →
  ∃ p, d !! p = None ∧ classify_versions d vs m df s = Raise (StatusNotFound p).
Proof.
  induction vs as [|v0 vs IH]; intros m df s Hterm Hv Hmiss; [by apply elem_of_nil in Hv|].
  apply Forall_cons in Hterm as [Hterm0 Hterm]. simpl.
  destruct (version_status_cases d v0 Hterm0) as [[c Hc]|(p & Hr & Hp)].
  - apply elem_of_cons in Hv as [->|Hv].
    { apply status_missing_raise in Hmiss as (p & _ & Hr).
      unfold class_of in Hc. by rewrite Hr in Hc. }
    unfold class_of in Hc.
    destruct (version_status d v0) as [[[] []]| | |]; try done; by apply IH.
  - rewrite Hr. eauto.
Qed.

Section HandlerProperties.
Context `{AccuRev} {G : Type} `{GitRepo G}.
Variable config : Config.
Implicit Types (w : World G) (tr : Transaction).

Lemma transactionHandlers_promote :
  transactionHandlers config !! "promote"
  = Some (λ transaction, OnPromote config transaction;; mret tt).
Proof.
  unfold transactionHandlers. cbn [list_to_map foldr fst snd].
  do 5 (rewrite lookup_insert_ne by done). by rewrite lookup_insert_eq.
Qed.

(** A run of the handler up to its lists: the calls are those of the
    classifier, of the populate call and of the directory removals. *)
Lemma OnPromote_lists_no_commit tr w w1 w2 w3 r addList rmList member defunct :
  SplitElementsByStatusViaStat tr w = (w1, r) →
  OnPromote_addList config member w1 = (w2, addList) →
  OnPromote_rmList defunct w2 = (w3, rmList) →
  ∃ cs, calls w3 = calls w ++ cs ∧ Forall no_commit cs.
Proof.
  intros [(cs1 & E1 & H1) _]%(traced_run no_commit _ _ _ _ (traced_SplitElementsByStatusViaStat tr)).
  intros [(cs2 & E2 & H2) _]%(traced_run no_commit _ _ _ _ (traced_OnPromote_addList config member)).
  intros [(cs3 & E3 & H3) _]%(traced_run no_commit _ _ _ _ (traced_OnPromote_rmList defunct)).
  exists (cs1 ++ cs2 ++ cs3). rewrite E3, E2, E1, <-!app_assoc. split; [done|].
  by rewrite !Forall_app.
Qed.

(** C5: a promotion whose add list and remove list are both empty ends
    without a commit, and the next transaction is processed; a run of the
    handler that makes a commit call has computed a list that is not
    empty. *)
Theorem empty_promotion_not_committed tr w :
  (∀ w1 w2 w3 st member defunct stranded,
     0 < Py.len (versions tr) →
     GetTransactionDestStream tr = Some st →
     IsStreamAllowed config (Some st) = true →
     SplitElementsByStatusViaStat tr w = (w1, Ret (Three member defunct stranded)) →
     OnPromote_addList config member w1 = (w2, Ret []) →
     OnPromote_rmList defunct w2 = (w3, Ret []) →
     OnPromote config tr w = (w3, Ret false)
     ∧ (∃ cs, calls w3 = calls w ++ cs ∧ Forall no_commit cs)
     ∧ ∀ rest, Type_ tr = "promote" →
         ProcessTransactions config (tr :: rest) w = ProcessTransactions config rest w3)
  ∧ (∀ w' o cs,
       OnPromote config tr w = (w', o) →
       calls w' = calls w ++ cs →
       Exists (λ c, is_commit_call c = true) cs →
       ∃ w1 w2 w3 member defunct stranded addList rmList,
         SplitElementsByStatusViaStat tr w = (w1, Ret (Three member defunct stranded))
         ∧ OnPromote_addList config member w1 = (w2, Ret addList)
         ∧ OnPromote_rmList defunct w2 = (w3, Ret rmList)
         ∧ (addList ≠ [] ∨ rmList ≠ [])).
Proof.
  split.
  - intros w1 w2 w3 st member defunct stranded Hlen Hst Hallow Hsplit Hadd Hrm.
    assert (OnPromote config tr w = (w3, Ret false)) as Hrun.
    { by rewrite (OnPromote_run config tr w w1 w2 w3 st member defunct stranded [] []). }
    split; [done|]. split; [by eapply OnPromote_lists_no_commit|].
    intros rest HT. simpl. unfold ProcessAccuRevTransaction.
    rewrite HT, transactionHandlers_promote.
    erewrite bind_run_Ret; [done|]. by erewrite bind_run_Ret.
  - intros w' o cs Hrun Hcalls Hcommit.
    assert (∀ w0 cs0, w' = w0 → calls w0 = calls w ++ cs0 → Forall no_commit cs0 → False)
      as Hquiet.
    { intros w0 cs0 -> Hc0 HF. rewrite Hcalls in Hc0. apply app_inv_head in Hc0 as ->.
      by apply no_commit_among in HF. }
    revert Hrun. unfold OnPromote.
    case_bool_decide; [|intros [= <- _]; destruct (Hquiet w []); by rewrite ?app_nil_r].
    destruct (GetTransactionDestStream tr) as [st|];
      [|intros [= <- _]; destruct (Hquiet w []); by rewrite ?app_nil_r].
    destruct (IsStreamAllowed config (Some st)); simpl;
      [|intros [= <- _]; destruct (Hquiet w []); by rewrite ?app_nil_r].
    destruct (SplitElementsByStatusViaStat tr w) as [w1 r] eqn:Hsplit.
    pose proof (traced_run no_commit _ _ _ _ (traced_SplitElementsByStatusViaStat tr) Hsplit)
      as [(cs1 & Hc1 & HF1) _].
    unfold mbind at 1, M_bind at 1. rewrite Hsplit.
    destruct r as [[a b|member defunct stranded]|e|c|];
      try (intros [= <- _]; by destruct (Hquiet w1 cs1)).
    destruct (OnPromote_addList config member w1) as [w2 ra] eqn:Hadd.
    destruct (OnPromote_rmList defunct w2) as [w3 rr] eqn:Hrm.
    destruct (OnPromote_lists_no_commit _ _ _ _ _ _ _ _ _ _ Hsplit Hadd Hrm)
      as (cs3 & Hc3 & HF3).
    pose proof (traced_run no_commit _ _ _ _ (traced_OnPromote_addList config member) Hadd)
      as [(cs2 & Hc2 & HF2) _].
    assert (calls w2 = calls w ++ (cs1 ++ cs2)) as Hc2'.
    { by rewrite Hc2, Hc1, <-app_assoc. }
    unfold mbind at 1, M_bind at 1. rewrite Hadd.
    destruct ra as [addList|e|c|];
      try (intros [= <- _]; destruct (Hquiet w2 (cs1 ++ cs2)); [done..|by apply Forall_app]).
    unfold mbind at 1, M_bind at 1. rewrite Hrm.
    destruct rr as [rmList|e|c|];
      try (intros [= <- _]; by destruct (Hquiet w3 cs3)).
    intros Hcommit'. exists w1, w2, w3, member, defunct, stranded, addList, rmList.
    repeat split; [done..|].
    destruct addList; [|by left]. destruct rmList; [|by right].
    rewrite OnPromote_commit_empty in Hcommit'. injection Hcommit' as <- _.
    by destruct (Hquiet w3 cs3).
Qed.
(** The calls of [GitCommit] once the branch is checked out: the add list
    and the remove list in batches, then the commit. *)
Lemma GitCommit_with_run maxItems branch author date message addList rmList w w0 u :
  0 < maxItems →
  match branch with
  | Some b => CheckoutBranch b;; mret tt
  | None => mret tt
  end w = (w0, Ret u) →
  ∃ ba br w' status,
    GitCommit_with maxItems branch author date message addList rmList w = (w', Ret status)
    ∧ calls w' = calls w0 ++ (GitAdd <$> ba) ++ (GitRm <$> br)
                 ++ [GitCommitCall message author date]
    ∧ mjoin ba = addList ∧ mjoin br = rmList.
Proof.
  intros Hpos Hco. unfold GitCommit_with.
  rewrite (bind_run_Ret _ _ _ _ _ Hco).
  destruct (batch_loop_batches GitAdd git_add (λ tmpList, gitRepo_add tmpList)
              maxItems Hpos gitRepo_add_run addList w0) as (ba & HA & Hja & _).
  rewrite (bind_run_Ret _ _ _ _ _ HA). clear HA.
  set (wA := mkWorld _ _ _ _).
  destruct (batch_loop_batches GitRm git_rm (λ tmpList, gitRepo_rm tmpList)
              maxItems Hpos gitRepo_rm_run rmList wA) as (br & HR & Hjr & _).
  rewrite (bind_run_Ret _ _ _ _ _ HR). clear HR.
  rewrite gitRepo_commit_run. subst wA. simpl.
  eexists ba, br, _, _. split; [done|]. simpl.
  by rewrite <-!app_assoc.
Qed.

Lemma OnPromote_commit_calls tr st addList rmList w w0 u :
  addList ≠ [] ∨ rmList ≠ [] →
  (CheckoutBranch st;; mret tt) w = (w0, Ret u) →
  ∃ ba br w' o,
    OnPromote_commit config tr (Some st) addList rmList w = (w', o)
    ∧ calls w' = calls w0 ++ (GitAdd <$> ba) ++ (GitRm <$> br)
                 ++ [GitCommitCall (AccurevComment2GitMessage tr)
                       (AccurevUser2GitAuthor config (user tr)) (time tr)]
    ∧ mjoin ba = addList ∧ mjoin br = rmList.
Proof.
  intros Hne Hco. unfold OnPromote_commit.
  assert (bool_decide (0 < Py.len addList) || bool_decide (0 < Py.len rmList) = true) as ->.
  { destruct Hne as [Hne|Hne]; [destruct addList|destruct rmList]; try done;
      rewrite ?orb_true_r; done. }
  destruct (GitCommit_with_run maxCmdItems (Some st)
              (AccurevUser2GitAuthor config (user tr)) (time tr)
              (AccurevComment2GitMessage tr) addList rmList w w0 u)
    as (ba & br & w' & status & Hrun & Hcalls & Hja & Hjr); [done..|].
  exists ba, br, w'. unfold GitCommit. rewrite (bind_run_Ret _ _ _ _ _ Hrun).
  destruct status; [by eexists|].
  unfold mbind, M_bind. simpl.
  destruct (git_lastError (repo w')); [|by eexists].
  destruct (Py.contains _ _); by eexists.
Qed.

(** C4 as the code has it: the removal list of a promotion holds the local
    paths of the defunct versions that are files or links, of those only and
    in their order, and that is the list the commit is called with. *)
Theorem defunct_files_on_removal_list tr w w1 w2 st member defunct stranded addList :
  0 < Py.len (versions tr) →
  GetTransactionDestStream tr = Some st →
  IsStreamAllowed config (Some st) = true →
  SplitElementsByStatusViaStat tr w = (w1, Ret (Three member defunct stranded)) →
  OnPromote_addList config member w1 = (w2, Ret addList) →
  ∃ w3,
    OnPromote_rmList defunct w2 = (w3, Ret (removal_list defunct))
    ∧ (∀ v, v ∈ versions defunct → file_or_link v = true →
            LocalElementPath (path v) ∈ removal_list defunct)
    ∧ (∀ p, p ∈ removal_list defunct →
            ∃ v, v ∈ versions defunct ∧ file_or_link v = true
                 ∧ p = LocalElementPath (path v))
    ∧ OnPromote config tr w
      = OnPromote_commit config tr (Some st) addList (removal_list defunct) w3
    ∧ (removal_list defunct ≠ [] →
       ∀ w0 u, (CheckoutBranch st;; mret tt) w3 = (w0, Ret u) →
         ∃ w' o cs1 batches cs2,
           OnPromote config tr w = (w', o)
           ∧ calls w' = cs1 ++ (GitRm <$> batches) ++ cs2
           ∧ mjoin batches = removal_list defunct).
Proof.
  intros Hlen Hst Hallow Hsplit Hadd.
  destruct (OnPromote_rmList_run defunct w2) as [g Hrm].
  eexists. split; [done|].
  assert (OnPromote config tr w
          = OnPromote_commit config tr (Some st) addList (removal_list defunct)
              (mkWorld (files w2) (branchList w2) g
                 (calls w2 ++ rmList_calls (versions defunct)))) as Hrun.
  { by eapply OnPromote_run. }
  repeat split.
  - intros v Hv Hf. unfold removal_list.
    apply list_elem_of_fmap. exists v. split; [done|]. by apply list_elem_of_filter.
  - unfold removal_list.
    intros p (v & -> & [Hf Hv]%list_elem_of_filter)%list_elem_of_fmap. by exists v.
  - done.
  - intros Hne w0 u Hco.
    destruct (OnPromote_commit_calls tr st addList (removal_list defunct) _ w0 u
                (or_intror Hne) Hco) as (ba & br & w' & o & Hc & Hcalls & _ & Hjr).
    exists w', o, (calls w0 ++ (GitAdd <$> ba)), br, [GitCommitCall
      (AccurevComment2GitMessage tr) (AccurevUser2GitAuthor config (user tr)) (time tr)].
    rewrite Hrun, Hc, Hcalls, <-!app_assoc. done.
Qed.

(** C6 as the code has it: when the answer of the status query lacks a
    status that the classifier looks up, the classifier raises; the handler,
    when it runs the classifier, ends with that exception, the remaining
    transactions are not processed, and no commit call is made. *)
Theorem missing_status_aborts tr w w1 dirList elemList info v :
  collect_paths (versions tr) [] [] = Some (dirList, elemList) →
  stat_query tr (dirList ++ elemList) w = (w1, Ret (Some info)) →
  v ∈ versions tr →
  status_missing (build_infoDict info) v →
  ∃ p,
    build_infoDict info !! p = None
    ∧ SplitElementsByStatusViaStat tr w = (w1, Raise (StatusNotFound p))
    ∧ ∃ w2 o cs,
        OnPromote config tr w = (w2, o)
        ∧ (o = Raise (StatusNotFound p) ∨ o = Ret false)
        ∧ calls w2 = calls w ++ cs ∧ Forall no_commit cs
        ∧ ∀ st, GetTransactionDestStream tr = Some st →
                IsStreamAllowed config (Some st) = true →
                o = Raise (StatusNotFound p)
                ∧ ∀ rest, Type_ tr = "promote" →
                    ProcessTransactions config (tr :: rest) w
                    = (w1, Raise (StatusNotFound p)).
Proof.
  intros Hc Hq Hv Hmiss.
  pose proof Hc as [_ Hterm]%collect_paths_Some.
  destruct (classify_versions_missing (build_infoDict info) (versions tr) v [] [] []
              Hterm Hv Hmiss) as (p & Hp & Hcl).
  assert (versions tr ≠ []) as Hne.
  { intros E. rewrite E in Hv. by apply elem_of_nil in Hv. }
  assert (SplitElementsByStatusViaStat tr w = (w1, Raise (StatusNotFound p))) as Hsplit.
  { rewrite SplitElementsByStatusViaStat_run, Hc.
    rewrite bool_decide_eq_true_2 by by apply (collect_paths_nonempty _ _ _ Hc).
    rewrite (bind_run_Ret _ _ _ _ _ Hq), split_by_info_run. by rewrite Hcl. }
  exists p. split; [done|]. split; [done|].
  pose proof (traced_run no_commit _ _ _ _ (traced_SplitElementsByStatusViaStat tr) Hsplit)
    as [(cs1 & Hc1 & HF1) _].
  assert (0 < Py.len (versions tr)) as Hlen by (destruct (versions tr); done).
  destruct (GetTransactionDestStream tr) as [st|] eqn:Hst.
  2: { exists w, (Ret false), []. unfold OnPromote.
       rewrite bool_decide_eq_true_2, Hst, app_nil_r by done.
       split; [done|]. split; [auto|]. split; [done|]. split; [done|]. done. }
  destruct (IsStreamAllowed config (Some st)) eqn:Hallow.
  2: { exists w, (Ret false), []. unfold OnPromote.
       rewrite bool_decide_eq_true_2, Hst, Hallow, app_nil_r by done.
       split; [done|]. split; [auto|]. split; [done|]. split; [done|].
       intros st' [= <-]. congruence. }
  assert (OnPromote config tr w = (w1, Raise (StatusNotFound p))) as Hrun.
  { unfold OnPromote. rewrite bool_decide_eq_true_2, Hst, Hallow by done. simpl.
    by rewrite (bind_run_Raise _ _ _ _ _ Hsplit). }
  exists w1, (Raise (StatusNotFound p)), cs1.
  split; [done|]. split; [auto|]. split; [done|]. split; [done|].
  intros st' _ _. split; [done|]. intros rest HT.
  cbn [ProcessTransactions]. unfold ProcessAccuRevTransaction.
  rewrite HT, transactionHandlers_promote.
  erewrite bind_run_Raise; [done|]. by erewrite bind_run_Raise.
Qed.

(** The unpacking of the classifier's result into three names does not
    fail. *)
Lemma OnPromote_no_ValueError tr w w' msg :
  OnPromote config tr w ≠ (w', Raise (ValueError msg)).
Proof.
  unfold OnPromote. case_bool_decide as Hlen; [|done].
  destruct (GetTransactionDestStream tr) as [st|]; [|done].
  destruct (IsStreamAllowed config (Some st)); simpl; [|done].
  destruct (SplitElementsByStatusViaStat tr w) as [w1 r] eqn:Hsplit.
  pose proof (traced_run no_commit _ _ _ _ (traced_SplitElementsByStatusViaStat tr) Hsplit)
    as [_ Hnv].
  unfold mbind at 1, M_bind at 1. rewrite Hsplit.
  destruct r as [[a b|member defunct stranded]|e|c|]; [| |naive_solver|done..].
  - by destruct (proj2 (classifier_early_return tr w Hlen) w1 a b).
  - assert (traced (G:=G) (λ _, True)
      (addList ← OnPromote_addList config member;
       rmList ← OnPromote_rmList defunct;
       OnPromote_commit config tr (Some st) addList rmList)) as Ht.
    { apply traced_bind.
      { eapply traced_mono; [|apply traced_OnPromote_addList]. done. }
      intros addList. apply traced_bind.
      { eapply traced_mono; [|apply traced_OnPromote_rmList]. done. }
      intros rmList. apply traced_OnPromote_commit. }
    destruct (Ht w1) as [_ Hv]. intros E. apply (Hv msg). by rewrite E.
Qed.

(** C10: for a promotion with at least one version the combined path set of
    the classifier is not empty, the classifier does not return its pair of
    empty lists, what it returns is a triple, and the handler's unpacking of
    the result into three names does not fail. *)
Theorem three_way_unpacking_defined tr w :
  0 < Py.len (versions tr) →
  (∀ dirList elemList,
     collect_paths (versions tr) [] [] = Some (dirList, elemList) →
     0 < Py.len (dirList ++ elemList))
  ∧ (∀ w' a b, SplitElementsByStatusViaStat tr w ≠ (w', Ret (Two a b)))
  ∧ (∀ w' r, SplitElementsByStatusViaStat tr w = (w', Ret r) →
             ∃ member defunct stranded, r = Three member defunct stranded)
  ∧ (∀ w' msg, OnPromote config tr w ≠ (w', Raise (ValueError msg))).
Proof.
  intros Hlen. destruct (classifier_early_return tr w Hlen) as [Hfull Htwo].
  split; [done|]. split; [done|]. split.
  - intros w' [a b|m df s] Hrun; [by destruct (Htwo w' a b)|eauto].
  - intros w' msg. apply OnPromote_no_ValueError.
Qed.

End HandlerProperties.

(** ** The sample transactions *)

Lemma empty_promotion_not_committed_witness :
  (run101 = (split101.1, Ret false)
   ∧ (∃ cs, calls split101.1 = calls sim_world ++ cs ∧ Forall no_commit cs)
   ∧ ∀ rest, Type_ tx101 = "promote" →
       ProcessTransactions (H := sim_accurev depot101 true) sim_config (tx101 :: rest) sim_world
       = ProcessTransactions (H := sim_accurev depot101 true) sim_config rest split101.1)
  ∧ ∃ w1 w2 w3 member defunct stranded addList rmList,
      SplitElementsByStatusViaStat (H := sim_accurev depot102 true) tx102 sim_world
      = (w1, Ret (Three member defunct stranded))
      ∧ OnPromote_addList (H := sim_accurev depot102 true) sim_config member w1
        = (w2, Ret addList)
      ∧ OnPromote_rmList defunct w2 = (w3, Ret rmList)
      ∧ (addList ≠ [] ∨ rmList ≠ []).
Proof.
  split.
  - apply (proj1 (empty_promotion_not_committed (H := sim_accurev depot101 true)
                    sim_config tx101 sim_world)
             split101.1 split101.1 split101.1 "dev"
             (with_versions tx101 []) (with_versions tx101 [])
             (with_versions tx101 [file_version "/./dir/a.txt"]));
      vm_compute; reflexivity.
  - apply (proj2 (empty_promotion_not_committed (H := sim_accurev depot102 true)
                    sim_config tx102 sim_world)
             run102.1 run102.2 (calls run102.1)).
    + vm_compute. reflexivity.
    + vm_compute. reflexivity.
    + do 3 apply Exists_cons_tl. apply Exists_cons_hd. reflexivity.
Defined.

Lemma defunct_files_on_removal_list_witness :
  let defunct := with_versions tx102 [file_version "/./dir/b.txt"] in
  ∃ w3,
    OnPromote_rmList defunct split102.1 = (w3, Ret (removal_list defunct))
    ∧ (∀ v, v ∈ versions defunct → file_or_link v = true →
            LocalElementPath (path v) ∈ removal_list defunct)
    ∧ (∀ p, p ∈ removal_list defunct →
            ∃ v, v ∈ versions defunct ∧ file_or_link v = true
                 ∧ p = LocalElementPath (path v))
    ∧ run102 = OnPromote_commit sim_config tx102 (Some "dev") [] (removal_list defunct) w3
    ∧ (removal_list defunct ≠ [] →
       ∀ w0 u, (CheckoutBranch "dev";; mret tt) w3 = (w0, Ret u) →
         ∃ w' o cs1 batches cs2,
           run102 = (w', o)
           ∧ calls w' = cs1 ++ (GitRm <$> batches) ++ cs2
           ∧ mjoin batches = removal_list defunct).
Proof.
  apply (defunct_files_on_removal_list (H := sim_accurev depot102 true)
           sim_config tx102 sim_world split102.1 split102.1 "dev"
           (with_versions tx102 [])
           (with_versions tx102 [file_version "/./dir/b.txt"])
           (with_versions tx102 []) []);
    vm_compute; reflexivity.
Defined.

(** The removal list of transaction 102. *)
Example removal_list_102 :
  removal_list (with_versions tx102 [file_version "/./dir/b.txt"]) = ["dir/b.txt"].
Proof. vm_compute. reflexivity. Qed.

(** C4 fails as stated: in transaction 101 the file [/./dir/a.txt] is
    stranded, and the handler puts nothing on a removal list and makes no
    call of git at all. *)
Lemma stranded_file_not_on_removal_list :
  let stranded := with_versions tx101 [file_version "/./dir/a.txt"] in
  let defunct := with_versions tx101 [] in
  split101.2 = Ret (Three (with_versions tx101 []) defunct stranded)
  ∧ file_version "/./dir/a.txt" ∈ versions stranded
  ∧ file_or_link (file_version "/./dir/a.txt") = true
  ∧ (OnPromote_rmList defunct split101.1).2 = Ret []
  ∧ run101.2 = Ret false
  ∧ calls run101.1 = [AccurevStat (Some "dev") 101
                        (elementList ["/./dir"; "/./dir/a.txt"])].
Proof.
  cbv zeta. split; [by vm_compute|]. split; [by left|].
  repeat split; by vm_compute.
Qed.

Lemma missing_status_aborts_witness :
  ∃ p,
    build_infoDict {| elements := [{| location := "/./dir/a.txt";
                                      statusList := ["(member)"] |}] |} !! p = None
    ∧ SplitElementsByStatusViaStat (H := sim_accurev depot104 true) tx101 sim_world
      = (mkWorld ∅ None sim_empty
           [AccurevStat (Some "dev") 101 (elementList ["/./dir"; "/./dir/a.txt"])],
         Raise (StatusNotFound p))
    ∧ ∃ w2 o cs,
        OnPromote (H := sim_accurev depot104 true) sim_config tx101 sim_world = (w2, o)
        ∧ (o = Raise (StatusNotFound p) ∨ o = Ret false)
        ∧ calls w2 = calls sim_world ++ cs ∧ Forall no_commit cs
        ∧ ∀ st, GetTransactionDestStream tx101 = Some st →
                IsStreamAllowed sim_config (Some st) = true →
                o = Raise (StatusNotFound p)
                ∧ ∀ rest, Type_ tx101 = "promote" →
                    ProcessTransactions (H := sim_accurev depot104 true) sim_config
                      (tx101 :: rest) sim_world
                    = (mkWorld ∅ None sim_empty
                         [AccurevStat (Some "dev") 101
                            (elementList ["/./dir"; "/./dir/a.txt"])],
                       Raise (StatusNotFound p)).
Proof.
  apply (missing_status_aborts (H := sim_accurev depot104 true) sim_config tx101
           sim_world _ ["/./dir"] ["/./dir/a.txt"] _ (file_version "/./dir/a.txt")).
  - vm_compute. reflexivity.
  - vm_compute. reflexivity.
  - left.
  - right. split; [by vm_compute|].
    exists ["/./dir"], O, "/./dir". split; [by vm_compute|].
    split; [done|]. split; [by vm_compute|]. intros j q Hj. lia.
Defined.

(** C6 fails as stated: the status query of transaction 102 is asked about
    [/./dir] and [/./dir/b.txt] and answers for the file only; the file is
    defunct, its directory is never looked up, and the handler commits. *)
Lemma missing_ancestor_status_not_fatal :
  collect_paths (versions tx102) [] [] = Some (["/./dir"], ["/./dir/b.txt"])
  ∧ (∃ info,
       accurev_stat (AccuRev := sim_accurev depot102 true) (Some "dev") 102
         (elementList ["/./dir"; "/./dir/b.txt"]) ∅ = Some info
       ∧ build_infoDict info !! "/./dir" = None)
  ∧ run102.2 = Ret true
  ∧ calls run102.1
    = [AccurevStat (Some "dev") 102 (elementList ["/./dir"; "/./dir/b.txt"]);
       GitCheckout "dev" true; GitRm ["dir/b.txt"];
       GitCommitCall (AccurevComment2GitMessage tx102) "joe <joe@no-email.com>"
         1400000000].
Proof.
  split; [by vm_compute|]. split; [|split; by vm_compute].
  eexists. split; [vm_compute; reflexivity|]. by vm_compute.
Qed.

(** A populate command that answers [False] over a listing file: the call
    returns [False], and the listing file is gone. *)
Example failed_populate_103 :
  let run := PopAccurevTransaction (H := sim_accurev depot103 false) tx103
               (Some "/repo") sim_world in
  run.2 = Ret false ∧ files run.1 = ∅.
Proof. split; by vm_compute. Qed.

Lemma three_way_unpacking_defined_witness :
  (∀ dirList elemList,
     collect_paths (versions tx100) [] [] = Some (dirList, elemList) →
     0 < Py.len (dirList ++ elemList))
  ∧ (∀ w' a b,
       SplitElementsByStatusViaStat (H := sim_accurev depot100 true) tx100 sim_world
       ≠ (w', Ret (Two a b)))
  ∧ (∀ w' r,
       SplitElementsByStatusViaStat (H := sim_accurev depot100 true) tx100 sim_world
       = (w', Ret r) →
       ∃ member defunct stranded, r = Three member defunct stranded)
  ∧ (∀ w' msg,
       OnPromote (H := sim_accurev depot100 true) sim_config tx100 sim_world
       ≠ (w', Raise (ValueError msg))).
Proof.
  apply (three_way_unpacking_defined (H := sim_accurev depot100 true) sim_config
           tx100 sim_world).
  reflexivity.
Defined.

(** ** Checkpoint resolution *)

(** *** Decimal numbers *)

Lemma string_of_uint_digits d :
  Forall (λ c, Py.is_digit c = true) (Py.chars (NilEmpty.string_of_uint d)).
Proof. induction d; simpl; constructor; done. Qed.

Lemma digits_of_N_digits n : Forall (λ c, Py.is_digit c = true) (Py.digits_of_N n).
Proof. apply string_of_uint_digits. Qed.

Lemma digits_of_N_nonempty n : Py.digits_of_N n ≠ [].
Proof.
  unfold Py.digits_of_N. destruct n as [|p]; [done|]. simpl.
  pose proof (DecimalPos.Unsigned.to_uint_nonnil p).
  by destruct (Pos.to_uint p).
Qed.

(** Reading the digits that were printed for a number gives the number. *)
Lemma N_of_digits_of_N n : Py.N_of_digits (Py.digits_of_N n) = Some n.
Proof.
  unfold Py.N_of_digits. pose proof (digits_of_N_nonempty n).
  destruct (Py.digits_of_N n) eqn:E; [done|]. rewrite <-E.
  unfold Py.digits_of_N. rewrite str_chars, NilEmpty.usu. simpl.
  by rewrite DecimalN.Unsigned.of_to.
Qed.

(** *** Searching the tag *)

Lemma digit_run_break y c r :
  Py.is_digit c = false → digit_run (y ++ c :: r) = digit_run y.
Proof.
  intros Hc. induction y as [|a y IH]; simpl; [by rewrite Hc|].
  by rewrite IH.
Qed.

Lemma digit_run_digits ds : Forall (λ c, Py.is_digit c = true) ds → digit_run ds = ds.
Proof. induction 1 as [|c ds Hc _ IH]; simpl; [done|]. by rewrite Hc, IH. Qed.

Lemma starts_with_app pat l : Py.starts_with pat (pat ++ l) = true.
Proof.
  induction pat as [|a pat IH]; simpl; [by destruct l|].
  by rewrite Ascii.eqb_refl, IH.
Qed.

Lemma starts_with_length pat l :
  Py.starts_with pat l = true → (length pat ≤ length l)%nat.
Proof.
  revert l. induction pat as [|a pat IH]; intros [|b l]; simpl; try done; [lia|].
  intros [_ Hl%IH]%andb_true_iff. lia.
Qed.

Lemma starts_with_app_l pat x r :
  Py.starts_with pat x = true → Py.starts_with pat (x ++ r) = true.
Proof.
  revert x. induction pat as [|a pat IH]; intros [|b x]; simpl; try done.
  intros [-> Hl%IH]%andb_true_iff. by rewrite Hl.
Qed.

Lemma starts_with_break pat x c r :
  c ∉ pat → Py.starts_with pat (x ++ c :: r) = true → Py.starts_with pat x = true.
Proof.
  revert x. induction pat as [|a pat IH]; intros [|b x] Hc; simpl; try done.
  - intros [Ha%Ascii.eqb_eq _]%andb_true_iff. subst. destruct Hc. left.
  - intros [-> Hl]%andb_true_iff. simpl. apply IH; [|done].
    intros ?. apply Hc. by right.
Qed.

Lemma match_tag_here_break x c r :
  c ∉ tag_pattern → Py.is_digit c = false →
  match_tag_here (x ++ c :: r) = match_tag_here x.
Proof.
  intros Hpat Hdig. unfold match_tag_here.
  destruct (Py.starts_with tag_pattern x) eqn:Hx.
  - rewrite (starts_with_app_l _ _ _ Hx).
    rewrite drop_app_le by by apply starts_with_length.
    by rewrite digit_run_break.
  - destruct (Py.starts_with tag_pattern (x ++ c :: r)) eqn:Hxr; [|done].
    apply starts_with_break in Hxr; [congruence|done].
Qed.

(** A text without a match, followed by a character that is neither a digit
    nor part of the pattern, contributes nothing to the search. *)
Lemma search_tag_break x c r :
  c ∉ tag_pattern → Py.is_digit c = false →
  search_tag x = None → search_tag (x ++ c :: r) = search_tag (c :: r).
Proof.
  intros Hpat Hdig. induction x as [|a x IH]; [done|].
  intros Hs. change ((a :: x) ++ c :: r) with (a :: (x ++ c :: r)).
  cbn [search_tag] in Hs |- *.
  change (a :: (x ++ c :: r)) with ((a :: x) ++ c :: r).
  rewrite match_tag_here_break by done.
  destruct (match_tag_here (a :: x)); [done|]. by apply IH.
Qed.

Lemma search_tag_tail a x : search_tag (a :: x) = None → search_tag x = None.
Proof. cbn [search_tag]. by destruct (match_tag_here (a :: x)). Qed.

Lemma search_tag_lstrip x : search_tag x = None → search_tag (Py.lstrip_chars x) = None.
Proof.
  induction x as [|a x IH]; [done|]. simpl.
  destruct (Ascii.is_space a); [|done]. by intros ?%search_tag_tail%IH.
Qed.

Lemma search_tag_at_tag ds r :
  Forall (λ c, Py.is_digit c = true) ds → ds ≠ [] →
  search_tag (tag_pattern ++ ds ++ "]"%char :: r) = Some ds.
Proof.
  intros Hds Hne.
  assert (match_tag_here (tag_pattern ++ ds ++ "]"%char :: r) = Some ds) as Hm.
  { unfold match_tag_here. rewrite starts_with_app, drop_app_length.
    rewrite digit_run_break by done. rewrite digit_run_digits by done.
    by destruct ds. }
  destruct (tag_pattern ++ ds ++ "]"%char :: r) eqn:E; cbn [search_tag]; by rewrite Hm.
Qed.

(** *** Stripping *)

Lemma lstrip_chars_break x c r :
  Ascii.is_space c = false →
  Py.lstrip_chars (x ++ c :: r) = Py.lstrip_chars x ++ c :: r.
Proof.
  intros Hc. induction x as [|a x IH]; simpl; [by rewrite Hc|].
  by destruct (Ascii.is_space a).
Qed.

(** Text around two characters that are not whitespace is stripped on its
    own. *)
Lemma strip_chars_between x c1 m c2 y :
  Ascii.is_space c1 = false → Ascii.is_space c2 = false →
  Py.strip_chars (x ++ c1 :: m ++ c2 :: y)
  = Py.lstrip_chars x ++ c1 :: m ++ c2 :: reverse (Py.lstrip_chars (reverse y)).
Proof.
  intros H1 H2. unfold Py.strip_chars.
  rewrite lstrip_chars_break by done.
  rewrite reverse_app, reverse_cons, reverse_app, reverse_cons, <-!app_assoc.
  simpl. rewrite lstrip_chars_break by done.
  rewrite reverse_app, reverse_cons, reverse_app, reverse_cons.
  rewrite !reverse_involutive, <-!app_assoc. done.
Qed.

Lemma transTag_chars (t : N) :
  Py.chars (transTag (Z.of_N t))
  = "["%char :: tag_pattern ++ Py.digits_of_N t ++ ["]"%char].
Proof.
  unfold transTag, Py.str_of_Z, Py.chars_of_Z.
  destruct (Z.ltb_spec (Z.of_N t) 0) as [?|_]; [lia|].
  rewrite N2Z.id, !chars_app, chars_str. done.
Qed.

Lemma match_tag_here_bracket r : match_tag_here ("["%char :: r) = None.
Proof. done. Qed.

Lemma bracket_not_in_pattern : "["%char ∉ tag_pattern.
Proof. intros Hin%list_elem_of_In. vm_compute in Hin. intuition congruence. Qed.

Lemma newline_not_in_pattern : "010"%char ∉ tag_pattern.
Proof. intros Hin%list_elem_of_In. vm_compute in Hin. intuition congruence. Qed.

Section Checkpoint.
Context {G : Type} `{GitRepo G}.
Variable config : Config.
Implicit Types (w : World G).

(** On a repository without commits the resume point is the configured
    start transaction. *)
Lemma checkpoint_bootstrap w s n :
  Py.contains "Initial commit" (git_status_output (repo w)) = true →
  startTransaction config = Some s →
  Py.int s = Some n →
  GetLastConvertedTransaction config w = (w, Ret (Some n)).
Proof.
  intros Hst Hs Hn. unfold GetLastConvertedTransaction.
  cbv [mbind M_bind get]. rewrite Hst, Hs. simpl. by rewrite Hn.
Qed.

(** When the tag of transaction [t] is the first text of the last commit
    that matches the pattern, the resume point is [t + 1]. *)
Lemma checkpoint_resumes_after_tag w (t : N) pre post :
  Py.contains "Initial commit" (git_status_output (repo w)) = false →
  git_log_1_output (repo w) = pre +:+ transTag (Z.of_N t) +:+ post →
  search_tag (Py.chars pre) = None →
  GetLastConvertedTransaction config w = (w, Ret (Some (Z.of_N t + 1))).
Proof.
  intros Hst Hlog Hpre. unfold GetLastConvertedTransaction.
  cbv [mbind M_bind get]. rewrite Hst, Hlog.
  unfold Py.strip. rewrite chars_str, !chars_app, transTag_chars.
  change (Py.chars pre ++ ("["%char :: tag_pattern ++ Py.digits_of_N t ++ ["]"%char])
          ++ Py.chars post)
    with (Py.chars pre ++ "["%char :: (tag_pattern ++ Py.digits_of_N t ++ ["]"%char])
          ++ Py.chars post).
  rewrite <-!app_assoc. simpl ([_] ++ _).
  rewrite (app_assoc tag_pattern).
  rewrite strip_chars_between by done.
  rewrite search_tag_break;
    [|apply bracket_not_in_pattern|done|by apply search_tag_lstrip].
  cbn [search_tag]. rewrite match_tag_here_bracket, <-app_assoc.
  rewrite search_tag_at_tag
    by (apply digits_of_N_digits || apply digits_of_N_nonempty).
  by rewrite N_of_digits_of_N.
Qed.

(** The round trip with the message of [AccurevComment2GitMessage], for a
    comment (or its placeholder) that, after the text [hdr] that [git log]
    prints before it, holds no match of the pattern. *)
Lemma checkpoint_roundtrip_message w tr (t : N) hdr :
  id tr = Z.of_N t →
  Py.contains "Initial commit" (git_status_output (repo w)) = false →
  git_log_1_output (repo w) = hdr +:+ AccurevComment2GitMessage tr →
  search_tag (Py.chars (hdr +:+ default "[no original comment]" (comment tr))) = None →
  GetLastConvertedTransaction config w = (w, Ret (Some (id tr + 1))).
Proof.
  intros Hid Hst Hlog Hc. rewrite Hid.
  apply (checkpoint_resumes_after_tag w t
           (hdr +:+ default "[no original comment]" (comment tr) +:+ newline +:+ newline) "");
    [done| |].
  - rewrite Hlog. unfold AccurevComment2GitMessage. rewrite Hid. cbv zeta.
    apply chars_inj. rewrite !chars_app. simpl (Py.chars ""). 
    by rewrite app_nil_r, <-!app_assoc.
  - rewrite chars_app in Hc. rewrite !chars_app, !app_assoc, <-(app_assoc _ _ (Py.chars newline)).
    rewrite <-chars_app in Hc |- *.
    change (Py.chars newline ++ Py.chars newline) with ("010"%char :: ["010"%char]).
    rewrite search_tag_break; [done|apply newline_not_in_pattern|done|done].
Qed.

End Checkpoint.

(** On the empty repository the resume point is the start transaction of
    the configuration. *)
Example checkpoint_bootstrap_sim :
  GetLastConvertedTransaction sim_config sim_world = (sim_world, Ret (Some 1)).
Proof. by apply (checkpoint_bootstrap sim_config sim_world "1"). Qed.

(** C3 at a comment that quotes a tag: transaction 7, with the comment
    "Reverts AccuRev Transaction #5", is committed with the message that
    [AccurevComment2GitMessage] builds; the search then finds the quoted tag
    first, and the resume point is 6 instead of 8. *)
Theorem checkpoint_after_quoted_tag :
  run7.2 = Ret true
  ∧ sg_log (repo run7.1)
    = [(AccurevComment2GitMessage tx7, "joe <joe@no-email.com>", 1400000000)]
  ∧ AccurevComment2GitMessage tx7
    = "Reverts AccuRev Transaction #5" +:+ newline +:+ newline
      +:+ "[AccuRev Transaction #7]"
  ∧ (GetLastConvertedTransaction sim_config run7.1).2 = Ret (Some 6).
Proof. repeat split; by vm_compute. Qed.

(** * Further properties *)

(** ** Parents of depot paths *)

Lemma depot_path_snoc names name :
  depot_path (names ++ [name]) = depot_path names +:+ "/" +:+ name.
Proof. unfold depot_path. by rewrite foldl_app. Qed.

Lemma depot_path_shape names :
  Forall path_name names →
  depot_path names ≠ "" ∧ last (Py.chars (depot_path names)) ≠ Some Py.slash.
Proof.
  intros HF. destruct (decide (names = [])) as [->|Hne]; [done|].
  destruct (proj2 (last_is_Some names) Hne) as [n Hn].
  apply last_Some in Hn as [l ->].
  apply Forall_app in HF as [_ [[Hn Hs] _]%Forall_cons].
  rewrite depot_path_snoc. split; [apply app_slash_nonempty|].
  rewrite !chars_app.
  change (Py.chars "/" ++ Py.chars n) with (Py.slash :: Py.chars n).
  apply last_nonempty_name; [by apply chars_nonempty|done].
Qed.

Lemma depot_path_dirname names name :
  Forall path_name names → path_name name →
  Py.dirname (depot_path (names ++ [name])) = depot_path names.
Proof.
  intros HF [_ Hs]. rewrite depot_path_snoc.
  destruct (depot_path_shape names HF). by apply dirname_child.
Qed.

Lemma depot_path_not_root names :
  names ≠ [] → ¬ is_root (depot_path names).
Proof.
  intros Hne Hroot. apply (f_equal String.length) in Hroot.
  rewrite replace_backslash_length in Hroot.
  destruct (proj2 (last_is_Some names) Hne) as [n Hn].
  apply last_Some in Hn as [l ->].
  rewrite depot_path_snoc, <-chars_length, !chars_app, !length_app in Hroot.
  assert (2 ≤ length (Py.chars (depot_path l)))%nat; [|simpl in *; lia].
  clear. unfold depot_path.
  assert (∀ p, (2 ≤ length (Py.chars p))%nat →
    (2 ≤ length (Py.chars (foldl (λ p name, p +:+ "/" +:+ name) p l)))%nat) as Hgen.
  { induction l as [|n l IH]; intros p Hp; [done|]. simpl. apply IH.
    rewrite chars_app, length_app. lia. }
  by apply Hgen.
Qed.

Lemma ancestor_depot_path j : ∀ names,
  Forall path_name names → (j ≤ length names)%nat →
  ancestor j (depot_path names) = depot_path (take (length names - j) names).
Proof.
  induction j as [|j IH]; intros names HF Hj.
  - by rewrite Nat.sub_0_r, firstn_all.
  - destruct (decide (names = [])) as [->|Hne]; [simpl in Hj; lia|].
    destruct (proj2 (last_is_Some names) Hne) as [n Hn].
    apply last_Some in Hn as [l ->].
    apply Forall_app in HF as [HF [Hn _]%Forall_cons].
    rewrite length_app in Hj |- *. simpl in Hj |- *.
    rewrite ancestor_S, depot_path_dirname, IH by (done || lia).
    replace (length l + 1 - S j)%nat with (length l - j)%nat by lia.
    by rewrite take_app_le by lia.
Qed.

(** X1: for an element of the depot, whose path is the root marker followed
    by names that are not empty and hold no slash, [GetParentPaths] returns,
    and returns the paths of the directories above the element, the nearest
    first and without the root marker. *)
Theorem GetParentPaths_depot_path (names : list string) (name : string) :
  Forall path_name names → path_name name →
  GetParentPaths (Some (depot_path (names ++ [name])))
  = Some ((λ j, depot_path (take (length names - j) names)) <$> seq 0 (length names)).
Proof.
  intros HF Hn.
  assert (Forall path_name (names ++ [name])) as HF'.
  { apply Forall_app. split; [done|]. by constructor. }
  assert (∀ j, (j ≤ length names)%nat →
    ancestor (S j) (depot_path (names ++ [name]))
    = depot_path (take (length names - j) names)) as Hanc.
  { intros j Hj. rewrite ancestor_depot_path by (rewrite ?length_app; simpl; done || lia).
    rewrite length_app. simpl.
    replace (length names + 1 - S j)%nat with (length names - j)%nat by lia.
    by rewrite take_app_le by lia. }
  apply GetParentPaths_Some. exists (length names). split; [split|].
  - rewrite Hanc by lia. by rewrite Nat.sub_diag.
  - intros j Hj. rewrite Hanc by lia. apply depot_path_not_root.
    intros E%(f_equal length). rewrite length_take in E. simpl in E. lia.
  - unfold ancestor_chain. apply list_fmap_ext. intros i j Hi.
    apply lookup_seq in Hi as [-> Hi]. simpl. symmetry. apply Hanc. lia.
Qed.

Lemma GetParentPaths_depot_path_witness :
  GetParentPaths (Some (depot_path (["dir"; "sub"] ++ ["a.txt"])))
  = Some ((λ j, depot_path (take (length ["dir"; "sub"] - j) ["dir"; "sub"]))
            <$> seq 0 (length ["dir"; "sub"])).
Proof.
  apply (GetParentPaths_depot_path ["dir"; "sub"] "a.txt").
  - repeat (apply Forall_cons_2; [split; [done|apply (bool_decide_unpack _); vm_compute; exact I]|]).
    apply Forall_nil_2.
  - split; [done|apply (bool_decide_unpack _); vm_compute; exact I].
Defined.

(** ** The paths of the status query *)

Lemma add_parents_spec elemParents : ∀ dirList,
  NoDup dirList →
  NoDup (add_parents dirList elemParents)
  ∧ ∀ d, d ∈ add_parents dirList elemParents ↔ d ∈ dirList ∨ d ∈ elemParents.
Proof.
  unfold add_parents.
  induction elemParents as [|p ps IH]; intros dirList Hnd; simpl.
  - split; [done|]. intros d. rewrite elem_of_nil. tauto.
  - case_bool_decide as Hp.
    + destruct (IH dirList Hnd) as [Hnd' Hin]. split; [done|].
      intros d. rewrite Hin, elem_of_cons. split; [tauto|].
      intros [?|[->|?]]; tauto.
    + assert (NoDup (dirList ++ [p])) as Hnd1.
      { apply NoDup_app. split; [done|]. split; [|apply NoDup_singleton].
        intros x Hx ->%list_elem_of_singleton. done. }
      destruct (IH _ Hnd1) as [Hnd' Hin]. split; [done|].
      intros d. rewrite Hin, elem_of_app, list_elem_of_singleton, elem_of_cons. tauto.
Qed.

Lemma collect_paths_dirList vs : ∀ dirList elemList dirList' elemList',
  collect_paths vs dirList elemList = Some (dirList', elemList') →
  NoDup dirList →
  NoDup dirList'
  ∧ ∀ d, d ∈ dirList' ↔
         d ∈ dirList
         ∨ ∃ v parents, v ∈ vs ∧ GetParentPaths (Some (path v)) = Some parents
                        ∧ d ∈ parents.
Proof.
  induction vs as [|v vs IH]; intros dirList elemList dirList' elemList'; simpl.
  - intros [= <- <-] Hnd. split; [done|]. intros d. split; [tauto|].
    intros [?|(v & ? & []%elem_of_nil & _)]. done.
  - destruct (GetParentPaths (Some (path v))) as [parents|] eqn:E; [|done].
    intros Hc Hnd. destruct (add_parents_spec parents dirList Hnd) as [Hnd1 Hin1].
    destruct (IH _ _ _ _ Hc Hnd1) as [Hnd' Hin]. split; [done|].
    intros d. rewrite Hin, Hin1. split.
    + intros [[?|?]|(v' & ps & ? & ? & ?)]; [tauto| |].
      * right. exists v, parents. split; [left|done].
      * right. exists v', ps. split; [by right|done].
    + intros [?|(v' & ps & [->|?]%elem_of_cons & Hps & ?)]; [tauto| |].
      * rewrite E in Hps. injection Hps as <-. tauto.
      * right. by exists v', ps.
Qed.

(** X2: the status query of the classifier asks for every ancestor directory
    of the versions once, before the paths of the versions themselves in the
    order of the transaction. *)
Theorem status_query_paths (vs : list Version) (dirList elemList : list string) :
  collect_paths vs [] [] = Some (dirList, elemList) →
  NoDup dirList
  ∧ (∀ d, d ∈ dirList ↔
          ∃ v parents, v ∈ vs ∧ GetParentPaths (Some (path v)) = Some parents
                       ∧ d ∈ parents)
  ∧ elemList = path <$> vs.
Proof.
  intros Hc.
  destruct (collect_paths_dirList vs [] [] dirList elemList Hc (NoDup_nil_2))
    as [Hnd Hin].
  split; [done|]. split.
  - intros d. rewrite Hin, elem_of_nil. tauto.
  - by apply collect_paths_Some in Hc as [-> _].
Qed.

Lemma status_query_paths_witness :
  NoDup ["/./dir"]
  ∧ (∀ d, d ∈ ["/./dir"] ↔
          ∃ v parents, v ∈ versions tx100
                       ∧ GetParentPaths (Some (path v)) = Some parents
                       ∧ d ∈ parents)
  ∧ ["/./dir/a.txt"; "/./dir"] = path <$> versions tx100.
Proof.
  apply (status_query_paths (versions tx100) ["/./dir"] ["/./dir/a.txt"; "/./dir"]).
  vm_compute. reflexivity.
Defined.

(** ** Checking out a branch *)

Section CheckoutProperties.
Context {G : Type} `{GitRepo G}.
Implicit Types (w : World G).

Local Arguments List.find : simpl never.

Ltac run_checkout :=
  cbv [CheckoutBranch mbind M_bind get set_branchList mret M_ret gitRepo_checkout
       call set_repo raise from_option files branchList repo calls].

(** X3: a call of [CheckoutBranch] writes no file, and besides its queries
    of the branch list and of the status, which read the repository, it runs
    at most one git command: either none, and the repository is as it was,
    or one checkout of the branch that was asked for, and the repository is
    as that checkout leaves it; this holds however the call ends. *)
Theorem CheckoutBranch_calls (branchName : string) w :
  let run := CheckoutBranch branchName w in
  files run.1 = files w
  ∧ ((calls run.1 = calls w ∧ repo run.1 = repo w)
     ∨ ∃ isNewBranch,
         calls run.1 = calls w ++ [GitCheckout branchName isNewBranch]
         ∧ repo run.1 = git_checkout branchName isNewBranch (repo w)).
Proof.
  cbv zeta. destruct w as [fs bl g cs]. run_checkout.
  repeat (case_match; simplify_eq/=); eauto.
Qed.

(** X4: the branch that [CheckoutBranch] returns is marked current and is
    an entry of the branch list that the script keeps; when no checkout was
    needed it is the branch that was asked for. *)
Theorem CheckoutBranch_returns_current (branchName : string) w w' (b : GitBranchListItem) :
  CheckoutBranch branchName w = (w', Ret b) →
  isCurrent b = true
  ∧ (∃ bl, branchList w' = Some bl ∧ b ∈ bl)
  ∧ (calls w' = calls w → name b = branchName).
Proof.
  assert (∀ (cs : list Call) c, cs ++ [c] ≠ cs) as Hsnoc.
  { intros cs c E. apply (f_equal length) in E. rewrite length_app in E. simpl in E. lia. }
  destruct w as [fs bl g cs]. run_checkout. unfold find_branch.
  intros Hrun.
  repeat (case_match; simplify_eq/=);
    repeat match goal with
    | Hf : List.find _ _ = Some _ |- _ =>
        apply find_some in Hf as [?%list_elem_of_In ?]
    end;
    simpl in *;
    try (split; [done|]; split;
       [eexists; split; [done|]; (done || by left)
       |(done || by intros ?%Hsnoc || by intros _; eapply bool_decide_eq_true_1)]).
Qed.

(** X5: while there are no branches (the kept list is empty, or is not set
    and git lists none), [CheckoutBranch] returns a branch that it makes up
    itself, keeps it as the only entry of the list, and a second call for the
    same branch changes nothing and makes no call. *)
Theorem CheckoutBranch_initial_commit (branchName : string) w :
  match branchList w with
  | None => git_branch_list (repo w) = None ∨ git_branch_list (repo w) = Some []
  | Some bl => bl = []
  end →
  let b := {| name := branchName; shortHash := None; remote := None;
              shortComment := Some "Initial Commit"; isCurrent := true |} in
  ∃ w1, CheckoutBranch branchName w = (w1, Ret b)
        ∧ branchList w1 = Some [b]
        ∧ CheckoutBranch branchName w1 = (w1, Ret b).
Proof.
  destruct w as [fs bl g cs]. simpl. intros Hbl. run_checkout. unfold find_branch.
  destruct bl as [bl|]; [subst bl|destruct Hbl as [Hbl|Hbl]; rewrite Hbl];
    repeat (case_match; simplify_eq/=);
    (eexists; split; [done|]; split; [done|]);
    unfold List.find; simpl; by rewrite bool_decide_eq_true_2.
Qed.

End CheckoutProperties.

Lemma CheckoutBranch_initial_commit_witness :
  let b := {| name := "dev"; shortHash := None; remote := None;
              shortComment := Some "Initial Commit"; isCurrent := true |} in
  ∃ w1, CheckoutBranch "dev" sim_world = (w1, Ret b)
        ∧ branchList w1 = Some [b]
        ∧ CheckoutBranch "dev" w1 = (w1, Ret b).
Proof.
  apply (CheckoutBranch_initial_commit "dev" sim_world). simpl. by right.
Defined.

Lemma CheckoutBranch_returns_current_witness :
  let run := CheckoutBranch "dev" sim_world in
  ∃ b, run.2 = Ret b ∧
  isCurrent b = true
  ∧ (∃ bl, branchList run.1 = Some bl ∧ b ∈ bl)
  ∧ (calls run.1 = calls sim_world → name b = "dev").
Proof.
  eexists. split; [reflexivity|].
  apply (CheckoutBranch_returns_current "dev" sim_world). reflexivity.
Defined.

(** ** The calls of [GitCommit] *)

Section StagingCalls.
Context {G : Type} `{GitRepo G}.
Implicit Types (w : World G).

(** X6: [GitCommit] hands the add list over in calls of [git add] and the
    remove list in calls of [git rm] that each hold at least one and at most
    [maxCmdItems] = 25 paths, in the order of the lists, and ends with one
    commit call. *)
Theorem staging_calls_bounded (branch : option string) (author : string) (date : Z)
    (message : string) (addList rmList : list string) w w0 u :
  match branch with
  | Some b => CheckoutBranch b;; mret tt
  | None => mret tt
  end w = (w0, Ret u) →
  ∃ (adds rms : list (list string)) w' status,
    GitCommit branch author date message addList rmList w = (w', Ret status)
    ∧ calls w' = calls w0 ++ (GitAdd <$> adds) ++ (GitRm <$> rms)
                 ++ [GitCommitCall message author date]
    ∧ mjoin adds = addList ∧ mjoin rms = rmList
    ∧ Forall (λ paths, 1 ≤ Py.len paths ≤ 25) (adds ++ rms).
Proof.
  intros Hco. unfold GitCommit, GitCommit_with.
  assert (0 < maxCmdItems) as Hpos by done.
  rewrite (bind_run_Ret _ _ _ _ _ Hco).
  destruct (batch_loop_batches GitAdd git_add (λ tmpList, gitRepo_add tmpList)
              maxCmdItems Hpos gitRepo_add_run addList w0) as (ba & HA & Hja & HFa).
  rewrite (bind_run_Ret _ _ _ _ _ HA). clear HA.
  set (wA := mkWorld _ _ _ _).
  destruct (batch_loop_batches GitRm git_rm (λ tmpList, gitRepo_rm tmpList)
              maxCmdItems Hpos gitRepo_rm_run rmList wA) as (br & HR & Hjr & HFr).
  rewrite (bind_run_Ret _ _ _ _ _ HR). clear HR.
  rewrite gitRepo_commit_run. subst wA. simpl.
  eexists ba, br, _, _. split; [done|]. simpl.
  split; [by rewrite <-!app_assoc|]. split; [done|]. split; [done|].
  apply Forall_app. split; (eapply Forall_impl; [done|]);
    intros [|p b] [Hne Hlen]; try done; unfold Py.len, maxCmdItems in *; simpl in *; lia.
Qed.

End StagingCalls.

Lemma staging_calls_bounded_witness :
  ∃ (adds rms : list (list string)) w' status,
    GitCommit None "joe <joe@no-email.com>" 0 "msg"
      ((λ n, "f" +:+ Py.str_of_Z (Z.of_nat n)) <$> seq 0 60) ["d"] sim_world
    = (w', Ret status)
    ∧ calls w' = calls sim_world ++ (GitAdd <$> adds) ++ (GitRm <$> rms)
                 ++ [GitCommitCall "msg" "joe <joe@no-email.com>" 0]
    ∧ mjoin adds = ((λ n, "f" +:+ Py.str_of_Z (Z.of_nat n)) <$> seq 0 60)
    ∧ mjoin rms = ["d"]
    ∧ Forall (λ paths, 1 ≤ Py.len paths ≤ 25) (adds ++ rms).
Proof.
  apply (staging_calls_bounded (G:=SimGit) None "joe <joe@no-email.com>" 0 "msg"
           ((λ n, "f" +:+ Py.str_of_Z (Z.of_nat n)) <$> seq 0 60) ["d"]
           sim_world sim_world tt).
  reflexivity.
Defined.

(** ** Commit authors *)

Lemma append_assoc_str (a b c : string) : (a +:+ b) +:+ c = a +:+ b +:+ c.
Proof. apply chars_inj. by rewrite !chars_app, app_assoc. Qed.

Lemma find_first {A} (f : A → bool) before x after :
  f x = true → Forall (λ y, f y = false) before →
  List.find f (before ++ x :: after) = Some x.
Proof.
  intros Hx. induction 1 as [|y before Hy _ IH]; simpl; [by rewrite Hx|].
  by rewrite Hy.
Qed.

Lemma find_none {A} (f : A → bool) l :
  Forall (λ y, f y = false) l → List.find f l = None.
Proof. induction 1 as [|y l Hy _ IH]; simpl; [done|]. by rewrite Hy. Qed.

Section Author.
Variable config : Config.

(** X7: a user for whom the configuration has no mapping, and a transaction
    without a user, get an author that is made of the AccuRev user name. *)
Theorem author_of_unmapped_user (accurevUser : option string) :
  (∀ usermap, usermap ∈ usermaps config → accurevUsername usermap ≠ accurevUser) →
  AccurevUser2GitAuthor config accurevUser
  = Py.format_opt accurevUser +:+ " <" +:+ Py.format_opt accurevUser
    +:+ "@no-email.com>".
Proof.
  intros Hno. unfold AccurevUser2GitAuthor, GetGitUserDetails.
  destruct accurevUser as [u|]; [|done].
  rewrite find_none; [simpl; by rewrite append_assoc_str|].
  apply Forall_forall. intros m Hm. apply bool_decide_eq_false_2. by apply Hno.
Qed.

(** X8: the first mapping of the configuration for the user decides; the name
    or the e-mail address that it leaves out is made of the AccuRev user
    name. *)
Theorem author_of_mapped_user (u : string) (before after : list UserMap) (usermap : UserMap) :
  usermaps config = before ++ usermap :: after →
  accurevUsername usermap = Some u →
  (∀ m, m ∈ before → accurevUsername m ≠ Some u) →
  AccurevUser2GitAuthor config (Some u)
  = default u (gitName usermap) +:+ " <"
    +:+ default (u +:+ "@no-email.com") (gitEmail usermap) +:+ ">".
Proof.
  intros Hmaps Hu Hbefore. unfold AccurevUser2GitAuthor, GetGitUserDetails.
  rewrite Hmaps, (find_first _ before usermap after).
  - by destruct (gitName usermap), (gitEmail usermap).
  - by apply bool_decide_eq_true_2.
  - apply Forall_forall. intros m Hm. apply bool_decide_eq_false_2. by apply Hbefore.
Qed.

End Author.

Lemma author_of_unmapped_user_witness :
  AccurevUser2GitAuthor sim_config (Some "joe") = "joe <joe@no-email.com>".
Proof.
  apply (author_of_unmapped_user sim_config (Some "joe")).
  intros m Hm. simpl in Hm. by apply elem_of_nil in Hm.
Defined.

Lemma author_of_mapped_user_witness :
  AccurevUser2GitAuthor cfg_users (Some "joe") = "Joe Bloggs <joe@no-email.com>".
Proof.
  apply (author_of_mapped_user cfg_users "joe"
           [ {| accurevUsername := Some "ann"; gitName := Some "Ann Lee";
                gitEmail := Some "ann@example.com" |} ]
           [ {| accurevUsername := Some "joe"; gitName := Some "Joseph";
                gitEmail := Some "joe@bloggs.com" |} ]
           {| accurevUsername := Some "joe"; gitName := Some "Joe Bloggs";
              gitEmail := None |}).
  - reflexivity.
  - reflexivity.
  - intros m ->%list_elem_of_singleton. done.
Defined.

(** ** Transactions that are not converted *)

Section Dispatch.
Context `{AccuRev} {G : Type} `{GitRepo G}.
Variable config : Config.
Implicit Types (w : World G) (tr : Transaction).

Lemma transactionHandlers_other (k : string) :
  k ≠ "promote" →
  transactionHandlers config !! k = Some OnIgnored
  ∨ transactionHandlers config !! k = None.
Proof.
  intros Hk. unfold transactionHandlers. cbn [list_to_map foldr fst snd].
  repeat match goal with
  | |- context [<[?k' := _]> _ !! k] =>
      destruct (decide (k = k')) as [->|];
        [first [done | left; by rewrite lookup_insert_eq ]
        |rewrite (lookup_insert_ne _ k' k) by done]
  end.
  by right.
Qed.

Lemma ProcessAccuRevTransaction_other tr w :
  Type_ tr ≠ "promote" → ProcessAccuRevTransaction config tr w = (w, Ret tt).
Proof.
  intros Hk. unfold ProcessAccuRevTransaction.
  by destruct (transactionHandlers_other _ Hk) as [-> | ->].
Qed.

Lemma ProcessAccuRevTransaction_promote tr w :
  Type_ tr = "promote" →
  ProcessAccuRevTransaction config tr w = (OnPromote config tr;; mret tt) w.
Proof.
  intros Hk. unfold ProcessAccuRevTransaction.
  by rewrite Hk, transactionHandlers_promote.
Qed.

Lemma OnPromote_skipped tr w :
  (∀ s, GetTransactionDestStream tr = Some s → IsStreamAllowed config (Some s) = false) →
  OnPromote config tr w = (w, Ret false).
Proof.
  intros Hs. unfold OnPromote. case_bool_decide; [|done].
  destruct (GetTransactionDestStream tr) as [s|]; [|done].
  by rewrite (Hs s).
Qed.

(** X9: only promotions are converted: a transaction of any other type, known
    or not, leaves everything as it is, whatever its versions are. *)
Theorem other_transactions_ignored (transactions : list Transaction) w :
  Forall (λ tr, Type_ tr ≠ "promote") transactions →
  ProcessTransactions config transactions w = (w, Ret tt).
Proof.
  induction 1 as [|tr trs Htr _ IH]; [done|]. cbn [ProcessTransactions].
  erewrite bind_run_Ret; [|by apply ProcessAccuRevTransaction_other]. done.
Qed.

(** X10: with a stream list in the configuration, a transaction whose
    destination stream (the stream of its first version) is not in the list
    is passed over without any call: the run goes on with the next
    transaction in the same state. *)
Theorem promotion_outside_stream_list_skipped tr (rest : list Transaction) w
    (allowed : list string) :
  streamList config = Some allowed →
  (∀ s, GetTransactionDestStream tr = Some s → s ∉ allowed) →
  OnPromote config tr w = (w, Ret false)
  ∧ ProcessTransactions config (tr :: rest) w = ProcessTransactions config rest w.
Proof.
  intros Hl Hs.
  assert (OnPromote config tr w = (w, Ret false)) as Hrun.
  { apply OnPromote_skipped. intros s Hst. unfold IsStreamAllowed. rewrite Hl.
    apply bool_decide_eq_false_2. by apply Hs. }
  split; [done|]. cbn [ProcessTransactions].
  destruct (decide (Type_ tr = "promote")) as [Hk|Hk].
  - erewrite bind_run_Ret; [done|].
    rewrite ProcessAccuRevTransaction_promote by done.
    by erewrite bind_run_Ret.
  - erewrite bind_run_Ret; [done|]. by apply ProcessAccuRevTransaction_other.
Qed.

End Dispatch.

Lemma other_transactions_ignored_witness :
  ProcessTransactions (H := sim_accurev depot7 true) sim_config [tx_keep] sim_world
  = (sim_world, Ret tt).
Proof.
  apply (other_transactions_ignored (H := sim_accurev depot7 true) sim_config
           [tx_keep] sim_world).
  apply Forall_cons_2; [done|apply Forall_nil_2].
Defined.

Lemma promotion_outside_stream_list_skipped_witness :
  OnPromote (H := sim_accurev depot7 true) cfg_users tx7 sim_world = (sim_world, Ret false)
  ∧ ProcessTransactions (H := sim_accurev depot7 true) cfg_users [tx7; tx_keep] sim_world
    = ProcessTransactions (H := sim_accurev depot7 true) cfg_users [tx_keep] sim_world.
Proof.
  apply (promotion_outside_stream_list_skipped (H := sim_accurev depot7 true)
           cfg_users tx7 [tx_keep] sim_world ["main"]).
  - reflexivity.
  - intros s [= <-]. apply (bool_decide_unpack _). vm_compute. exact I.
Defined.

(** ** Ends of the promotion handler *)

Section NoExit.
Context {G : Type}.
Implicit Types (w : World G).

Lemma no_exit_ret {A} (a : A) : no_exit (G:=G) (mret a).
Proof. done. Qed.

Lemma no_exit_bind {A B} (m : M G A) (f : A → M G B) :
  no_exit m → (∀ a, no_exit (f a)) → no_exit (m ≫= f).
Proof.
  intros Hm Hf w c. unfold mbind, M_bind. specialize (Hm w).
  destruct (m w) as [w1 [a|e|c'|]]; simpl in *; [apply Hf|done|by destruct (Hm c')|done].
Qed.

Lemma no_exit_raise {A} e : no_exit (G:=G) (A:=A) (raise e).
Proof. done. Qed.

Lemma no_exit_run {A} (m : M G A) w w' c : no_exit m → m w ≠ (w', Exit c).
Proof. intros Hm E. apply (Hm w c). by rewrite E. Qed.

Lemma no_exit_batch_loop (cmd : list string → M G bool) maxItems l :
  (∀ tmpList, no_exit (cmd tmpList)) → no_exit (batch_loop cmd maxItems l).
Proof.
  intros Hcmd. remember (length l) as n eqn:Hn.
  revert l Hn. induction (lt_wf n) as [n _ IH]. intros l -> w.
  rewrite batch_loop_unfold_list.
  destruct (Py.slice_to _ l) as [|x tmp] eqn:E; [done|].
  apply (no_exit_bind (cmd (x :: tmp))); [done|]. intros _.
  eapply IH; [|done]. by eapply slice_from_shorter.
Qed.

End NoExit.

Section NoExitGit.
Context {G : Type} `{GitRepo G}.
Implicit Types (w : World G).

Local Arguments List.find : simpl never.

Lemma no_exit_CheckoutBranch b : no_exit (G:=G) (CheckoutBranch b).
Proof.
  intros [fs bl g cs] c.
  cbv [CheckoutBranch mbind M_bind get set_branchList mret M_ret gitRepo_checkout
       call set_repo raise from_option files branchList repo calls].
  repeat (case_match; simplify_eq/=); done.
Qed.

Lemma no_exit_GitCommit_with maxItems branch author date message addList rmList :
  no_exit (G:=G) (GitCommit_with maxItems branch author date message addList rmList).
Proof.
  unfold GitCommit_with. apply no_exit_bind.
  { destruct branch as [b|]; [|done].
    apply no_exit_bind; [apply no_exit_CheckoutBranch|done]. }
  intros _. apply no_exit_bind.
  { apply no_exit_batch_loop. intros l w c. by rewrite gitRepo_add_run. }
  intros _. apply no_exit_bind.
  { apply no_exit_batch_loop. intros l w c. by rewrite gitRepo_rm_run. }
  intros _ w c. by rewrite gitRepo_commit_run.
Qed.

Lemma no_exit_OnPromote_commit config tr stream addList rmList :
  no_exit (G:=G) (OnPromote_commit config tr stream addList rmList).
Proof.
  unfold OnPromote_commit. destruct (_ || _); [|done].
  apply no_exit_bind; [apply no_exit_GitCommit_with|].
  intros []; [done|]. intros w c. cbv [mbind M_bind get].
  destruct (git_lastError (repo w)); [|done]. by destruct (Py.contains _ _).
Qed.

End NoExitGit.

Lemma scan_parents_no_exit d parents c : scan_parents d parents ≠ Exit c.
Proof.
  induction parents as [|q l IH]; simpl; [done|].
  by destruct (d !! _) as [[]|].
Qed.

Lemma version_status_no_exit d v c : version_status d v ≠ Exit c.
Proof.
  unfold version_status.
  destruct (d !! _) as [[]|]; simpl; [done| |done].
  destruct (GetParentPaths _) as [l|]; [|done].
  pose proof (scan_parents_no_exit d l c) as Hs.
  destruct (scan_parents d l); [done|done| |done].
  intros [= ->]. by destruct Hs.
Qed.

Lemma classify_versions_no_exit d vs : ∀ m df s c,
  classify_versions d vs m df s ≠ Exit c.
Proof.
  induction vs as [|v vs IH]; intros m df s c; simpl; [done|].
  pose proof (version_status_no_exit d v) as Hv.
  destruct (version_status d v) as [[[] []]| |c'|]; try (done || apply IH).
  by destruct (Hv c').
Qed.

Section Populate.
Context `{AccuRev} {G : Type} `{GitRepo G}.
Variable config : Config.
Implicit Types (w : World G) (tr : Transaction).

(** The classifier changes neither the repository nor the branch cache;
    its calls are those of the status query. *)
Lemma SplitElementsByStatusViaStat_world tr w :
  let run := SplitElementsByStatusViaStat tr w in
  repo run.1 = repo w ∧ branchList run.1 = branchList w
  ∧ (∃ cs, calls run.1 = calls w ++ cs ∧ Forall (λ c, is_accurev_call c = true) cs)
  ∧ ∀ c, run.2 ≠ Exit c.
Proof.
  cbv zeta. rewrite SplitElementsByStatusViaStat_run.
  destruct (collect_paths _ _ _) as [[dl el]|];
    [|split; [done|]; split; [done|]; split; [exists []; by rewrite app_nil_r|done]].
  case_bool_decide;
    [|split; [done|]; split; [done|]; split; [exists []; by rewrite app_nil_r|done]].
  unfold mbind, M_bind. rewrite stat_query_run. cbv zeta.
  case_bool_decide; rewrite split_by_info_run; simpl;
    (split; [done|]; split; [done|]; split;
       [eexists; split; [reflexivity|]; repeat (apply Forall_cons_2; [done|]); apply Forall_nil_2|]);
    intros c; (destruct (accurev_stat _ _ _ _) as [info|]; [|done]);
    pose proof (classify_versions_no_exit (build_infoDict info) (versions tr) [] [] []) as Hx;
    (destruct (classify_versions _ _ _ _ _) as [[[??]?]| |c'|];
       [done|done|by destruct (Hx c')|done]).
Qed.

Lemma PopAccurevTransaction_world tr dst w :
  let run := PopAccurevTransaction tr dst w in
  repo run.1 = repo w ∧ branchList run.1 = branchList w
  ∧ (∃ cs, calls run.1 = calls w ++ cs ∧ Forall (λ c, is_accurev_call c = true) cs)
  ∧ ∃ b, run.2 = Ret b.
Proof.
  cbv zeta. rewrite PopAccurevTransaction_run. cbv zeta.
  case_bool_decide; simpl;
    (split; [done|]; split; [done|]; split;
       [eexists; split; [reflexivity|]; repeat (apply Forall_cons_2; [done|]); apply Forall_nil_2
       |by eexists]).
Qed.

(** X11: the promotion handler ends the run only when the populate command
    fails: the exit status is 1, the calls made are those of the status query
    and the populate command, and the repository is as it was.  Conversely a
    failed populate ends the run that way, so that no later transaction is
    processed. *)
Theorem exit_is_failed_populate tr w :
  (∀ w' c, OnPromote config tr w = (w', Exit c) →
     c = 1
     ∧ (∃ w1 member defunct stranded,
          SplitElementsByStatusViaStat tr w = (w1, Ret (Three member defunct stranded))
          ∧ versions member ≠ []
          ∧ PopAccurevTransaction member (repoPath config) w1 = (w', Ret false))
     ∧ repo w' = repo w
     ∧ ∃ cs, calls w' = calls w ++ cs ∧ Forall (λ c, is_accurev_call c = true) cs)
  ∧ (∀ w1 w2 st member defunct stranded,
       0 < Py.len (versions tr) →
       GetTransactionDestStream tr = Some st →
       IsStreamAllowed config (Some st) = true →
       SplitElementsByStatusViaStat tr w = (w1, Ret (Three member defunct stranded)) →
       versions member ≠ [] →
       PopAccurevTransaction member (repoPath config) w1 = (w2, Ret false) →
       OnPromote config tr w = (w2, Exit 1)
       ∧ ∀ rest, Type_ tr = "promote" →
           ProcessTransactions config (tr :: rest) w = (w2, Exit 1)).
Proof.
  split.
  - intros w' c. unfold OnPromote. case_bool_decide as Hlen; [|done].
    destruct (GetTransactionDestStream tr) as [st|]; [|done].
    destruct (IsStreamAllowed config (Some st)); simpl; [|done].
    destruct (SplitElementsByStatusViaStat_world tr w) as (Hr1 & _ & (cs1 & Hc1 & HF1) & Hx1).
    destruct (SplitElementsByStatusViaStat tr w) as [w1 r] eqn:Hsplit. simpl in *.
    unfold mbind at 1, M_bind at 1. rewrite Hsplit.
    destruct r as [[a b|member defunct stranded]|e|c'|]; [done| |done|by destruct (Hx1 c')|done].
    destruct (decide (0 < Py.len (versions member))) as [Hm|Hm].
    2: { assert (OnPromote_addList config member w1 = (w1, Ret [])) as Hadd.
         { unfold OnPromote_addList. by rewrite bool_decide_eq_false_2. }
         rewrite (bind_run_Ret _ _ _ _ _ Hadd).
         destruct (OnPromote_rmList_run defunct w1) as [g Hrm].
         rewrite (bind_run_Ret _ _ _ _ _ Hrm). intros E.
         by apply (no_exit_run _ _ _ _ (no_exit_OnPromote_commit _ _ _ _ _)) in E. }
    destruct (PopAccurevTransaction_world member (repoPath config) w1)
      as (Hr2 & _ & (cs2 & Hc2 & HF2) & [ok Hok]).
    destruct (PopAccurevTransaction member (repoPath config) w1) as [w2 o] eqn:Hpop.
    simpl in *. subst o.
    destruct ok.
    + assert (OnPromote_addList config member w1
              = (w2, Ret (LocalElementPath ∘ path
                            <$> filter (λ version, dir version = false) (versions member))))
        as Hadd.
      { unfold OnPromote_addList. rewrite bool_decide_eq_true_2 by done.
        by rewrite (bind_run_Ret _ _ _ _ _ Hpop). }
      rewrite (bind_run_Ret _ _ _ _ _ Hadd).
      destruct (OnPromote_rmList_run defunct w2) as [g Hrm].
      rewrite (bind_run_Ret _ _ _ _ _ Hrm). intros E.
      by apply (no_exit_run _ _ _ _ (no_exit_OnPromote_commit _ _ _ _ _)) in E.
    + assert (OnPromote_addList config member w1 = (w2, Exit 1)) as Hadd.
      { unfold OnPromote_addList. rewrite bool_decide_eq_true_2 by done.
        by rewrite (bind_run_Ret _ _ _ _ _ Hpop). }
      rewrite (bind_run_Exit _ _ _ _ _ Hadd).
      intros [= <- <-]. split; [done|]. split.
      { exists w1, member, defunct, stranded. split; [done|]. split; [|done].
        intros E. rewrite E in Hm. done. }
      split; [congruence|]. exists (cs1 ++ cs2).
      rewrite Hc2, Hc1, <-app_assoc. split; [done|]. by apply Forall_app.
  - intros w1 w2 st member defunct stranded Hlen Hst Hallow Hsplit Hne Hpop.
    assert (OnPromote config tr w = (w2, Exit 1)) as Hrun.
    { unfold OnPromote. rewrite bool_decide_eq_true_2, Hst, Hallow by done. simpl.
      rewrite (bind_run_Ret _ _ _ _ _ Hsplit).
      assert (OnPromote_addList config member w1 = (w2, Exit 1)) as Hadd.
      { unfold OnPromote_addList.
        rewrite bool_decide_eq_true_2 by (destruct (versions member); done).
        by rewrite (bind_run_Ret _ _ _ _ _ Hpop). }
      by rewrite (bind_run_Exit _ _ _ _ _ Hadd). }
    split; [done|]. intros rest HT. cbn [ProcessTransactions].
    unfold ProcessAccuRevTransaction. rewrite HT, transactionHandlers_promote.
    erewrite bind_run_Exit; [done|]. by erewrite bind_run_Exit.
Qed.

End Populate.

Lemma exit_is_failed_populate_witness :
  ∃ w2,
    OnPromote (H := sim_accurev depot7 false) sim_config tx7 sim_world = (w2, Exit 1)
    ∧ ∀ rest, Type_ tx7 = "promote" →
        ProcessTransactions (H := sim_accurev depot7 false) sim_config (tx7 :: rest) sim_world
        = (w2, Exit 1).
Proof.
  eexists.
  eapply (proj2 (exit_is_failed_populate (H := sim_accurev depot7 false) sim_config
                   tx7 sim_world)).
  - reflexivity.
  - reflexivity.
  - reflexivity.
  - vm_compute. reflexivity.
  - done.
  - vm_compute. reflexivity.
Defined.

(** ** Refused commits *)

Section RefusedCommit.
Context `{AccuRev} {G : Type} `{GitRepo G}.
Variable config : Config.
Implicit Types (w : World G) (tr : Transaction).

(** X12: a commit that git refuses does not stop the conversion.  The handler
    answers whether git's error output says that there was nothing to commit,
    and the run goes on with the next transaction; only when git has recorded
    no error at all the handler fails, with an [AttributeError]. *)
Theorem refused_commit_not_fatal tr w w1 w2 w3 w4 st member defunct stranded
    addList rmList :
  Type_ tr = "promote" →
  0 < Py.len (versions tr) →
  GetTransactionDestStream tr = Some st →
  IsStreamAllowed config (Some st) = true →
  SplitElementsByStatusViaStat tr w = (w1, Ret (Three member defunct stranded)) →
  OnPromote_addList config member w1 = (w2, Ret addList) →
  OnPromote_rmList defunct w2 = (w3, Ret rmList) →
  addList ≠ [] ∨ rmList ≠ [] →
  GitCommit (Some st) (AccurevUser2GitAuthor config (user tr)) (time tr)
    (AccurevComment2GitMessage tr) addList rmList w3 = (w4, Ret false) →
  (∀ output, git_lastError (repo w4) = Some output →
     OnPromote config tr w
     = (w4, Ret (Py.contains "nothing to commit, working directory clean" output))
     ∧ ∀ rest, ProcessTransactions config (tr :: rest) w
               = ProcessTransactions config rest w4)
  ∧ (git_lastError (repo w4) = None →
     OnPromote config tr w = (w4, Raise (AttributeError "output"))
     ∧ ∀ rest, ProcessTransactions config (tr :: rest) w
               = (w4, Raise (AttributeError "output"))).
Proof.
  intros HT Hlen Hst Hallow Hsplit Hadd Hrm Hne Hcommit.
  assert (OnPromote config tr w
          = (w4, match git_lastError (repo w4) with
                 | Some output =>
                     Ret (Py.contains "nothing to commit, working directory clean" output)
                 | None => Raise (AttributeError "output")
                 end)) as Hrun.
  { rewrite (OnPromote_run config tr w w1 w2 w3 st member defunct stranded addList rmList)
      by done.
    unfold OnPromote_commit.
    assert (bool_decide (0 < Py.len addList) || bool_decide (0 < Py.len rmList) = true) as ->.
    { destruct Hne as [Hne|Hne]; [destruct addList|destruct rmList]; try done;
        rewrite ?orb_true_r; done. }
    rewrite (bind_run_Ret _ _ _ _ _ Hcommit).
    cbv [mbind M_bind get].
    destruct (git_lastError (repo w4)); [|done]. by destruct (Py.contains _ _). }
  assert (∀ rest, ProcessTransactions config (tr :: rest) w
                  = ((OnPromote config tr;; mret tt) ≫= λ _, ProcessTransactions config rest) w)
    as Hstep.
  { intros rest. cbn [ProcessTransactions]. unfold ProcessAccuRevTransaction.
    by rewrite HT, transactionHandlers_promote. }
  split.
  - intros output Hout. rewrite Hout in Hrun.
    split; [done|]. intros rest. rewrite Hstep.
    erewrite bind_run_Ret; [done|]. by erewrite bind_run_Ret.
  - intros Hout. rewrite Hout in Hrun.
    split; [done|]. intros rest. rewrite Hstep.
    erewrite bind_run_Raise; [done|]. by erewrite bind_run_Raise.
Qed.

End RefusedCommit.

Lemma refused_commit_not_fatal_witness :
  let answer := Some "nothing to commit, working directory clean" in
  ∃ w4,
    OnPromote (H := sim_accurev depot7 true) (H0 := refusing_git answer)
      sim_config tx7 refusing_world = (w4, Ret true)
    ∧ ∀ rest,
        ProcessTransactions (H := sim_accurev depot7 true) (H0 := refusing_git answer)
          sim_config (tx7 :: rest) refusing_world
        = ProcessTransactions (H := sim_accurev depot7 true) (H0 := refusing_git answer)
            sim_config rest w4.
Proof.
  cbv zeta.
  set (A := sim_accurev depot7 true).
  set (R := refusing_git (Some "nothing to commit, working directory clean")).
  eassert (SplitElementsByStatusViaStat (H:=A) (G:=option string) tx7 refusing_world
           = (_, Ret (Three _ _ _))) as H1 by (vm_compute; reflexivity).
  lazymatch type of H1 with
  | _ = (?w1, Ret (Three ?m ?d _)) =>
      eassert (OnPromote_addList (H:=A) sim_config m w1 = (_, Ret _)) as H2
        by (vm_compute; reflexivity);
      lazymatch type of H2 with
      | _ = (?w2, Ret ?al) =>
          eassert (OnPromote_rmList (H0:=R) d w2 = (_, Ret _)) as H3
            by (vm_compute; reflexivity);
          lazymatch type of H3 with
          | _ = (?w3, Ret ?rl) =>
              eassert (GitCommit (H0:=R) (Some "dev")
                         (AccurevUser2GitAuthor sim_config (user tx7)) (time tx7)
                         (AccurevComment2GitMessage tx7) al rl w3 = (_, Ret false)) as H4
                by (vm_compute; reflexivity);
              assert (al ≠ [] ∨ rl ≠ []) as Hne by (by left)
          end
      end
  end.
  eexists.
  apply (proj1 (refused_commit_not_fatal (H:=A) (H0:=R) sim_config tx7 refusing_world
                  _ _ _ _ "dev" _ _ _ _ _ eq_refl eq_refl eq_refl eq_refl H1 H2 H3
                  Hne H4)
          "nothing to commit, working directory clean" eq_refl).
Defined.

(** ** Resume points *)

Lemma contains_chars_tail pat a l :
  Py.contains_chars pat (a :: l) = false → Py.contains_chars pat l = false.
Proof. cbn [Py.contains_chars]. by intros [_ ?]%orb_false_iff. Qed.

Lemma contains_chars_here pat l :
  Py.contains_chars pat l = false → Py.starts_with pat l = false.
Proof. destruct l; cbn [Py.contains_chars]; by intros [? _]%orb_false_iff. Qed.

(** A text that does not hold the fixed part of the pattern holds no match. *)
Lemma search_tag_not_contained l :
  Py.contains_chars tag_pattern l = false → search_tag l = None.
Proof.
  induction l as [|a l IH]; intros Hc.
  - done.
  - cbn [search_tag]. unfold match_tag_here.
    rewrite (contains_chars_here _ _ Hc). apply IH. by eapply contains_chars_tail.
Qed.

Lemma contains_chars_app_l pat x y :
  Py.contains_chars pat (x ++ y) = false → Py.contains_chars pat x = false.
Proof.
  induction x as [|a x IH]; intros Hc.
  - destruct pat; [by destruct y|done].
  - change ((a :: x) ++ y) with (a :: (x ++ y)) in Hc.
    cbn [Py.contains_chars] in Hc |- *. apply orb_false_iff in Hc as [Hs Hc].
    rewrite IH by done. rewrite orb_false_r.
    destruct (Py.starts_with pat (a :: x)) eqn:E; [|done].
    pose proof (starts_with_app_l pat (a :: x) y E) as E'.
    change ((a :: x) ++ y) with (a :: (x ++ y)) in E'. congruence.
Qed.

Lemma contains_chars_lstrip pat l :
  Py.contains_chars pat l = false → Py.contains_chars pat (Py.lstrip_chars l) = false.
Proof.
  induction l as [|a l IH]; [done|]. intros Hc. simpl.
  destruct (Ascii.is_space a); [|done]. apply IH. by eapply contains_chars_tail.
Qed.

Lemma lstrip_chars_suffix l : ∃ ws, l = ws ++ Py.lstrip_chars l.
Proof.
  induction l as [|a l [ws IH]]; [by exists []|]. simpl.
  destruct (Ascii.is_space a); [|by exists []].
  exists (a :: ws). simpl. by f_equal.
Qed.

Lemma contains_chars_strip pat l :
  Py.contains_chars pat l = false → Py.contains_chars pat (Py.strip_chars l) = false.
Proof.
  intros Hc%contains_chars_lstrip. unfold Py.strip_chars.
  destruct (lstrip_chars_suffix (reverse (Py.lstrip_chars l))) as [ws Hws].
  apply (f_equal reverse) in Hws. rewrite reverse_involutive, reverse_app in Hws.
  rewrite Hws in Hc. by apply contains_chars_app_l in Hc.
Qed.

(** *** Reading a printed number *)

Lemma digit_not_space c : Py.is_digit c = true → Ascii.is_space c = false.
Proof.
  destruct c as [[] [] [] [] [] [] [] []]; try done; by vm_compute.
Qed.

Lemma strip_chars_digits ds :
  Forall (λ c, Py.is_digit c = true) ds → Py.strip_chars ds = ds.
Proof.
  intros Hd. assert (∀ l, Forall (λ c, Py.is_digit c = true) l → Py.lstrip_chars l = l) as Hl.
  { intros [|c l] Hcl; [done|]. apply Forall_cons in Hcl as [Hc _]. simpl.
    by rewrite digit_not_space. }
  unfold Py.strip_chars. rewrite (Hl ds Hd), Hl, reverse_involutive; [done|].
  by apply Forall_reverse.
Qed.

Lemma int_of_chars_digits ds :
  Forall (λ c, Py.is_digit c = true) ds →
  Py.int_of_chars ds = Z.of_N <$> Py.N_of_digits ds.
Proof.
  intros Hd. unfold Py.int_of_chars. rewrite strip_chars_digits by done.
  destruct ds as [|c r]; [done|]. apply Forall_cons in Hd as [Hc _].
  destruct c as [[] [] [] [] [] [] [] []]; try done; by vm_compute in Hc.
Qed.

Lemma strip_chars_minus ds :
  Forall (λ c, Py.is_digit c = true) ds → ds ≠ [] →
  Py.strip_chars ("-"%char :: ds) = "-"%char :: ds.
Proof.
  intros Hd Hne. destruct (proj2 (last_is_Some ds) Hne) as [d Hl].
  apply last_Some in Hl as [ds' ->].
  apply Forall_app in Hd as [_ [Hc _]%Forall_cons].
  unfold Py.strip_chars. simpl Py.lstrip_chars.
  rewrite reverse_cons, reverse_app. simpl.
  rewrite digit_not_space by done.
  change (d :: reverse ds' ++ ["-"%char]) with (reverse [d] ++ reverse ds' ++ reverse ["-"%char]).
  by rewrite <-!reverse_app, reverse_involutive.
Qed.

(** [int(str(n)) == n] *)
Lemma int_str_of_Z n : Py.int (Py.str_of_Z n) = Some n.
Proof.
  unfold Py.int, Py.str_of_Z, Py.chars_of_Z. rewrite chars_str.
  destruct (Z.ltb_spec n 0).
  - unfold Py.int_of_chars.
    rewrite strip_chars_minus by (apply digits_of_N_digits || apply digits_of_N_nonempty).
    rewrite N_of_digits_of_N. simpl. f_equal. lia.
  - rewrite int_of_chars_digits by apply digits_of_N_digits.
    rewrite N_of_digits_of_N. simpl. f_equal. lia.
Qed.

Section ResumePoint.
Context {G : Type} `{GitRepo G}.
Variable config : Config.
Implicit Types (w : World G).

(** X13: on a repository without commits the conversion starts at the
    configured start transaction, read as a decimal number; without a start
    transaction, or with one that is no number, the run ends with exit status
    1. *)
Theorem resume_point_of_new_repository w :
  Py.contains "Initial commit" (git_status_output (repo w)) = true →
  (∀ n, startTransaction config = Some (Py.str_of_Z n) →
        GetLastConvertedTransaction config w = (w, Ret (Some n)))
  ∧ (startTransaction config ≫= Py.int = None →
     GetLastConvertedTransaction config w = (w, Exit 1)).
Proof.
  intros Hst. unfold GetLastConvertedTransaction. cbv [mbind M_bind get]. rewrite Hst.
  split.
  - intros n ->. simpl. by rewrite int_str_of_Z.
  - unfold mbind. by intros ->.
Qed.

(** X14: on a repository with commits, when the tag
    ["[AccuRev Transaction #t]"] stands in the last commit and the text before
    it does not hold ["AccuRev Transaction #"], the conversion resumes at
    [t + 1]. *)
Theorem resume_point_after_tag w (t : N) (pre post : string) :
  Py.contains "Initial commit" (git_status_output (repo w)) = false →
  git_log_1_output (repo w) = pre +:+ transTag (Z.of_N t) +:+ post →
  Py.contains "AccuRev Transaction #" pre = false →
  GetLastConvertedTransaction config w = (w, Ret (Some (Z.of_N t + 1))).
Proof.
  intros Hst Hlog Hpre.
  apply (checkpoint_resumes_after_tag config w t pre post); [done..|].
  by apply search_tag_not_contained.
Qed.

(** X15: on a repository with commits whose last commit does not hold the text
    ["AccuRev Transaction #"], no resume point is found. *)
Theorem resume_point_unknown w :
  Py.contains "Initial commit" (git_status_output (repo w)) = false →
  Py.contains "AccuRev Transaction #" (git_log_1_output (repo w)) = false →
  GetLastConvertedTransaction config w = (w, Ret None).
Proof.
  intros Hst Hlog. unfold GetLastConvertedTransaction. cbv [mbind M_bind get]. rewrite Hst.
  rewrite search_tag_not_contained; [done|].
  unfold Py.strip. rewrite chars_str. by apply contains_chars_strip.
Qed.

End ResumePoint.

Lemma resume_point_of_new_repository_witness :
  (∀ n, startTransaction sim_config = Some (Py.str_of_Z n) →
        GetLastConvertedTransaction sim_config sim_world = (sim_world, Ret (Some n)))
  ∧ (startTransaction sim_config ≫= Py.int = None →
     GetLastConvertedTransaction sim_config sim_world = (sim_world, Exit 1)).
Proof.
  apply (resume_point_of_new_repository sim_config sim_world).
  vm_compute. reflexivity.
Defined.

Lemma resume_point_after_tag_witness :
  GetLastConvertedTransaction sim_config run8.1 = (run8.1, Ret (Some (Z.of_N 8 + 1))).
Proof.
  apply (resume_point_after_tag sim_config run8.1 8
           ("commit 0123abc" +:+ newline +:+ "Author: joe <joe@no-email.com>" +:+ newline
            +:+ "Date:   1400000000" +:+ newline +:+ newline +:+ "    fix a.txt"
            +:+ newline +:+ "    " +:+ newline +:+ "    ")
           newline).
  - vm_compute. reflexivity.
  - vm_compute. reflexivity.
  - vm_compute. reflexivity.
Defined.

Lemma resume_point_unknown_witness :
  GetLastConvertedTransaction sim_config manual_world = (manual_world, Ret None).
Proof.
  apply (resume_point_unknown sim_config manual_world).
  - vm_compute. reflexivity.
  - vm_compute. reflexivity.
Defined.

(** ** The add list *)

Lemma GetTransactionElements_filter tr skipDirs :
  GetTransactionElements (Some tr) skipDirs
  = Some (path <$> filter (λ v, negb skipDirs || negb (dir v) = true) (versions tr)).
Proof.
  unfold GetTransactionElements. f_equal.
  assert (∀ vs acc,
    foldl (λ elemList version,
             if negb skipDirs || negb (dir version)
             then elemList ++ [path version] else elemList) acc vs
    = acc ++ (path <$> filter (λ v, negb skipDirs || negb (dir v) = true) vs)) as Hgen.
  { induction vs as [|v vs IH]; intros acc; simpl; [by rewrite app_nil_r|].
    rewrite IH. destruct (negb skipDirs || negb (dir v)) eqn:E.
    - rewrite filter_cons_True by done. simpl. by rewrite <-app_assoc.
    - rewrite filter_cons_False by (by rewrite E). done. }
  apply Hgen.
Qed.

Lemma filter_not_dir (vs : list Version) :
  filter (λ v : Version, negb (dir v) = true) vs = filter (λ v, dir v = false) vs.
Proof.
  induction vs as [|v vs IH]; [done|]. rewrite !filter_cons, IH.
  destruct (dir v); simpl; repeat case_decide; done.
Qed.

Section AddList.
Context `{AccuRev} {G : Type} `{GitRepo G}.
Variable config : Config.
Implicit Types (w : World G).

(** X16: when the handler has an add list, it is the list of
    [GetTransactionElements] for the member versions, which holds the path
    of every version that is not a directory, each without its first three
    characters, in the order of the versions; and with [skipDirs] off
    [GetTransactionElements] gives the paths that the status query asks
    for. *)
Theorem add_list_is_member_elements (member : Transaction) w w' (addList : list string) :
  OnPromote_addList config member w = (w', Ret addList) →
  (∃ elemList,
     GetTransactionElements (Some member) true = Some elemList
     ∧ addList = LocalElementPath <$> elemList)
  ∧ addList = LocalElementPath ∘ path <$> filter (λ v, dir v = false) (versions member)
  ∧ ∀ dirList elemList,
      collect_paths (versions member) [] [] = Some (dirList, elemList) →
      GetTransactionElements (Some member) false = Some elemList.
Proof.
  intros Hrun.
  assert (addList = LocalElementPath ∘ path
                      <$> filter (λ v, dir v = false) (versions member)) as ->.
  { revert Hrun. unfold OnPromote_addList. case_bool_decide as Hlen.
    - destruct (PopAccurevTransaction_world member (repoPath config) w)
        as (_ & _ & _ & [ok Hok]).
      destruct (PopAccurevTransaction member (repoPath config) w) as [w1 o] eqn:Hpop.
      simpl in Hok. subst o. rewrite (bind_run_Ret _ _ _ _ _ Hpop).
      destruct ok; [|done]. by intros [= _ <-].
    - intros [= _ <-]. destruct (versions member); [done|]. destruct Hlen. done. }
  split; [|split; [done|]].
  - eexists. split; [apply GetTransactionElements_filter|].
    simpl. by rewrite filter_not_dir, list_fmap_compose.
  - intros dirList elemList [-> _]%collect_paths_Some.
    rewrite GetTransactionElements_filter. simpl. do 2 f_equal.
    clear. induction (versions member) as [|v vs IH]; [done|].
    rewrite filter_cons_True by done. by rewrite IH.
Qed.

End AddList.

Lemma add_list_is_member_elements_witness :
  (∃ elemList,
     GetTransactionElements (Some tx100) true = Some elemList
     ∧ ["dir/a.txt"] = LocalElementPath <$> elemList)
  ∧ ["dir/a.txt"] = LocalElementPath ∘ path <$> filter (λ v, dir v = false) (versions tx100)
  ∧ ∀ dirList elemList,
      collect_paths (versions tx100) [] [] = Some (dirList, elemList) →
      GetTransactionElements (Some tx100) false = Some elemList.
Proof.
  eapply (add_list_is_member_elements (H := sim_accurev depot100 true) sim_config
            tx100 sim_world).
  vm_compute. reflexivity.
Defined.

(** X17: [LocalElementPath] drops the first three characters of a path,
    whatever they are, so that a depot path that starts with ["/./"] or
    ["\.\"] becomes the path below the root; a path of three characters or
    fewer becomes the empty path. *)
Theorem LocalElementPath_drops_prefix (prefix rest short : string) :
  String.length prefix = 3%nat →
  (String.length short ≤ 3)%nat →
  LocalElementPath (prefix +:+ rest) = rest ∧ LocalElementPath short = "".
Proof.
  intros Hlen Hshort. unfold LocalElementPath.
  assert (∀ l : list ascii, Py.slice_from 3 l = drop 3 l) as Hs by done.
  rewrite !Hs. rewrite <-chars_length in Hlen, Hshort. split.
  - rewrite chars_app, <-Hlen, drop_app_length. apply str_chars.
  - by rewrite drop_ge.
Qed.

Lemma LocalElementPath_drops_prefix_witness :
  LocalElementPath ("/./" +:+ "dir/a.txt") = "dir/a.txt" ∧ LocalElementPath "/." = "".
Proof. apply (LocalElementPath_drops_prefix "/./" "dir/a.txt" "/."); simpl; lia. Defined.

(** ** The hash of the last commit *)

Lemma hex_run_hex l : Forall (λ c, is_hex_digit c = true) (hex_run l).
Proof.
  induction l as [|c l IH]; simpl; [done|].
  destruct (is_hex_digit c) eqn:E; by constructor.
Qed.

Lemma hex_run_app h rest :
  Forall (λ c, is_hex_digit c = true) h →
  (∀ c r, rest = c :: r → is_hex_digit c = false) →
  hex_run (h ++ rest) = h.
Proof.
  intros Hh Hrest. induction Hh as [|c h Hc _ IH]; simpl.
  - destruct rest as [|c r]; [done|]. simpl. by rewrite (Hrest c r).
  - by rewrite Hc, IH.
Qed.

Lemma search_commit_Some l h :
  search_commit l = Some h →
  (6 ≤ length h)%nat ∧ Forall (λ c, is_hex_digit c = true) h.
Proof.
  induction l as [|a l IH]; cbn [search_commit]; unfold match_commit_here.
  - done.
  - destruct (Py.starts_with commit_pattern (a :: l)); [|apply IH].
    cbv zeta. case_bool_decide as Hlen; [|apply IH].
    intros [= <-]. split; [done|apply hex_run_hex].
Qed.

Section CommitHash.
Context {G : Type} `{GitRepo G}.
Implicit Types (w : World G).

(** X18: [GetLastCommitHash] changes nothing; a hash that it returns has six
    or more characters, all of them hexadecimal digits; and for the output of
    [git log -1], which starts with ["commit "] and the hash, it returns that
    hash. *)
Theorem last_commit_hash w :
  (∀ w' h, GetLastCommitHash w = (w', Ret (Some h)) →
     w' = w ∧ (6 ≤ String.length h)%nat
     ∧ Forall (λ c, is_hex_digit c = true) (Py.chars h))
  ∧ (∀ h rest : string,
       Py.strip (git_log_1_output (repo w)) = "commit " +:+ h +:+ rest →
       (6 ≤ String.length h)%nat →
       Forall (λ c, is_hex_digit c = true) (Py.chars h) →
       (∀ c r, Py.chars rest = c :: r → is_hex_digit c = false) →
       GetLastCommitHash w = (w, Ret (Some h))).
Proof.
  unfold GetLastCommitHash. cbv [mbind M_bind get mret M_ret]. split.
  - intros w' h [= <- Hh].
    destruct (search_commit _) as [l|] eqn:E; [|done].
    injection Hh as <-. apply search_commit_Some in E as [Hlen Hhex].
    by rewrite <-chars_length, chars_str.
  - intros h rest -> Hlen Hhex Hrest. do 3 f_equal.
    rewrite !chars_app. change (Py.chars "commit ") with commit_pattern.
    assert (match_commit_here (commit_pattern ++ Py.chars h ++ Py.chars rest)
            = Some (Py.chars h)) as Hm.
    { unfold match_commit_here. rewrite starts_with_app, drop_app_length.
      rewrite hex_run_app by done. cbv zeta.
      rewrite bool_decide_eq_true_2 by by rewrite chars_length. done. }
    destruct (commit_pattern ++ _) eqn:E; cbn [search_commit]; rewrite Hm; simpl;
      by rewrite str_chars.
Qed.

End CommitHash.

Lemma last_commit_hash_witness :
  GetLastCommitHash run8.1 = (run8.1, Ret (Some "0123abc")).
Proof.
  apply (proj2 (last_commit_hash run8.1) "0123abc"
           (newline +:+ "Author: joe <joe@no-email.com>" +:+ newline
            +:+ "Date:   1400000000" +:+ newline +:+ newline +:+ "    fix a.txt"
            +:+ newline +:+ "    " +:+ newline +:+ "    [AccuRev Transaction #8]")).
  - vm_compute. reflexivity.
  - simpl. lia.
  - repeat (apply Forall_cons_2; [reflexivity|]). apply Forall_nil_2.
  - intros c r [= <- _]. reflexivity.
Defined.

(** ** The name of the configuration file *)

Lemma rfind_from_bounds c l : ∀ i acc,
  Py.rfind_from c l i acc = acc
  ∨ i ≤ Py.rfind_from c l i acc < i + Z.of_nat (length l).
Proof.
  induction l as [|x l IH]; intros i acc; simpl; [by left|].
  destruct (IH (i + 1) (if Ascii.eqb x c then i else acc)) as [->|Hb].
  - destruct (Ascii.eqb x c); [right; lia|by left].
  - right. lia.
Qed.

Lemma rfind_bounds c l : -1 ≤ Py.rfind c l < Z.of_nat (length l).
Proof.
  unfold Py.rfind. destruct (rfind_from_bounds c l 0 (-1)) as [->|?]; lia.
Qed.

Lemma rfind_last c l1 l2 :
  c ∉ l2 → Py.rfind c (l1 ++ c :: l2) = Z.of_nat (length l1).
Proof.
  intros Hc. unfold Py.rfind. rewrite rfind_from_app. simpl.
  rewrite Ascii.eqb_refl, rfind_from_notin by done. lia.
Qed.

Lemma rfind_app_notin c l1 l2 : c ∉ l2 → Py.rfind c (l1 ++ l2) = Py.rfind c l1.
Proof.
  intros Hc. unfold Py.rfind. by rewrite rfind_from_app, rfind_from_notin.
Qed.

Lemma slice_to_nonneg {A} (i : Z) (l : list A) :
  0 ≤ i → Py.slice_to i l = take (Z.to_nat i) l.
Proof.
  intros Hi. unfold Py.slice_to, Py.slice_index.
  by destruct (Z.ltb_spec i 0); [lia|].
Qed.

Lemma slice_from_nonneg {A} (i : Z) (l : list A) :
  0 ≤ i → Py.slice_from i l = drop (Z.to_nat i) l.
Proof.
  intros Hi. unfold Py.slice_from, Py.slice_index.
  by destruct (Z.ltb_spec i 0); [lia|].
Qed.

Lemma existsb_elem {A} (f : A → bool) l x : x ∈ l → f x = true → existsb f l = true.
Proof.
  intros Hx Hf. apply existsb_exists. exists x. split; [by apply list_elem_of_In|done].
Qed.

Lemma existsb_all_false {A} (f : A → bool) l :
  Forall (λ x, f x = false) l → existsb f l = false.
Proof. induction 1 as [|x l Hx _ IH]; simpl; [done|]. by rewrite Hx. Qed.

(** The part of a path between a slash index and a dot index. *)
Lemma name_slice (p : list ascii) (s d : Z) :
  -1 ≤ s → s < d →
  Py.slice_to (d - (s + 1)) (Py.slice_from (s + 1) p)
  = drop (Z.to_nat (s + 1)) (take (Z.to_nat d) p).
Proof.
  intros Hs Hd. rewrite slice_from_nonneg, slice_to_nonneg by lia.
  rewrite take_drop_commute. f_equal. f_equal. lia.
Qed.

(** X19: the configuration file of a script [dir base.ext] is
    [dir base.config]: the extension after the last dot of the file name is
    replaced; and a file name without a dot, or with dots at its start only,
    gets [.config] appended. *)
Theorem config_filename (dir base ext dots name : string) :
  Py.slash ∉ Py.chars base → Py.slash ∉ Py.chars ext → dot ∉ Py.chars ext →
  (∃ c, c ∈ Py.chars base ∧ c ≠ dot) →
  (dir = "" ∨ last (Py.chars dir) = Some Py.slash) →
  Forall (λ c, c = dot) (Py.chars dots) →
  Py.slash ∉ Py.chars name → dot ∉ Py.chars name →
  FilenameFromScriptName (dir +:+ base +:+ "." +:+ ext) = dir +:+ base +:+ ".config"
  ∧ FilenameFromScriptName (dir +:+ dots +:+ name) = dir +:+ dots +:+ name +:+ ".config".
Proof.
  intros Hbs Hes Hed (c & Hc & Hcd) Hdir Hdots Hns Hnd.
  unfold FilenameFromScriptName, splitext_chars. split.
  - rewrite !chars_app. change (Py.chars ".") with [dot]. cbv zeta.
    set (D := Py.chars dir). set (B := Py.chars base). set (E := Py.chars ext).
    assert (Py.rfind dot (D ++ B ++ [dot] ++ E) = Z.of_nat (length (D ++ B))) as Hdot.
    { rewrite (app_assoc D B). simpl. by apply rfind_last. }
    assert (Py.rfind Py.slash (D ++ B ++ [dot] ++ E) = Py.rfind Py.slash D) as Hsep.
    { apply rfind_app_notin. rewrite !elem_of_app, list_elem_of_singleton.
      intros [?|[?|?]]; done. }
    pose proof (rfind_bounds Py.slash D) as HbD.
    rewrite Hdot, Hsep, length_app.
    rewrite bool_decide_eq_true_2 by lia.
    rewrite name_slice by lia.
    rewrite <-length_app, Nat2Z.id, (app_assoc D B), take_app_length.
    rewrite drop_app_le by lia.
    rewrite (existsb_elem _ _ c); simpl.
    + rewrite slice_to_nonneg, Nat2Z.id, take_app_length by lia.
      apply chars_inj. by rewrite !chars_app, chars_str, app_assoc.
    + apply elem_of_app. by right.
    + by destruct (Ascii.eqb_spec c dot).
  - rewrite !chars_app. cbv zeta.
    set (D := Py.chars dir). set (T := Py.chars dots). set (N := Py.chars name).
    assert (Py.rfind Py.slash (D ++ T ++ N) = Z.of_nat (length D) - 1) as Hsep.
    { rewrite rfind_app_notin.
      2: { rewrite elem_of_app. intros [Hin|?]; [|done].
           rewrite Forall_forall in Hdots. by specialize (Hdots _ Hin). }
      destruct Hdir as [->|Hl]; [done|].
      apply last_Some in Hl as [D' HD']. fold D in HD'. rewrite HD'.
      rewrite rfind_last by apply not_elem_of_nil. rewrite length_app. simpl. lia. }
    assert (Py.rfind dot D < Z.of_nat (length D) - 1 ∨ D = []) as HdD.
    { destruct Hdir as [->|Hl]; [by right|]. left.
      apply last_Some in Hl as [D' HD']. fold D in HD'. rewrite HD'.
      rewrite rfind_app_notin by (by intros ?%list_elem_of_singleton).
      pose proof (rfind_bounds dot D'). rewrite length_app. simpl. lia. }
    destruct (decide (T = [])) as [HT|HT].
    + assert (Py.rfind dot (D ++ T ++ N) = Py.rfind dot D) as Hdot.
      { rewrite HT. simpl. by apply rfind_app_notin. }
      rewrite Hdot, Hsep.
      rewrite (bool_decide_eq_false_2 (_ < _)).
      2: { destruct HdD as [?|HD]; [lia|]. rewrite HD. simpl. unfold Py.rfind. simpl. lia. }
      simpl. apply chars_inj. rewrite !chars_app, chars_str. subst D T N.
      by rewrite <-!app_assoc.
    + destruct (proj2 (last_is_Some T) HT) as [t Ht].
      apply last_Some in Ht as [T' HT'].
      assert (t = dot) as ->.
      { rewrite Forall_forall in Hdots. apply Hdots. fold T. rewrite HT'.
        apply elem_of_app. right. left. }
      assert (Py.rfind dot (D ++ T ++ N) = Z.of_nat (length (D ++ T'))) as Hdot.
      { rewrite HT', <-(app_assoc T'), (app_assoc D T'). simpl. by apply rfind_last. }
      rewrite Hdot, Hsep, length_app.
      rewrite (bool_decide_eq_true_2 (_ < _)) by lia.
      rewrite name_slice by lia.
      rewrite <-length_app, Nat2Z.id, HT', <-(app_assoc T'), (app_assoc D T'), take_app_length.
      replace (Z.to_nat (Z.of_nat (length D) - 1 + 1)) with (length D) by lia.
      rewrite drop_app_length.
      rewrite existsb_all_false.
      2: { apply Forall_forall. intros x Hx. rewrite Forall_forall in Hdots.
           rewrite (Hdots x); [by rewrite Ascii.eqb_refl|].
           fold T. rewrite HT'. apply elem_of_app. by left. }
      simpl. apply chars_inj. rewrite !chars_app, chars_str. fold D T N.
      rewrite HT', <-!app_assoc. done.
Qed.

Lemma config_filename_witness :
  FilenameFromScriptName ("./tools/" +:+ "accurev2git" +:+ "." +:+ "py")
  = "./tools/" +:+ "accurev2git" +:+ ".config"
  ∧ FilenameFromScriptName ("./tools/" +:+ "." +:+ "accurev2git")
    = "./tools/" +:+ "." +:+ "accurev2git" +:+ ".config".
Proof.
  apply (config_filename "./tools/" "accurev2git" "py" "." "accurev2git").
  - apply (bool_decide_unpack _). vm_compute. exact I.
  - apply (bool_decide_unpack _). vm_compute. exact I.
  - apply (bool_decide_unpack _). vm_compute. exact I.
  - exists "a"%char. split; [|done]. apply (bool_decide_unpack _). vm_compute. exact I.
  - right. reflexivity.
  - repeat (apply Forall_cons_2; [reflexivity|]). apply Forall_nil_2.
  - apply (bool_decide_unpack _). vm_compute. exact I.
  - apply (bool_decide_unpack _). vm_compute. exact I.
Defined.

(** ** The conversion driver *)

Section DriverProperties.
Context `{AccuRev} `{AccuRevHist} {G : Type} `{GitRepo G}.
Variable config : Config.
Implicit Types (w : World G).

Lemma bind_assoc_run {A B C} (m : M G A) (f : A → M G B) (g : B → M G C) w :
  ((m ≫= f) ≫= g) w = (m ≫= λ a, f a ≫= g) w.
Proof. unfold mbind, M_bind. by destruct (m w) as [w1 [a|e|c|]]. Qed.

Lemma ProcessTransactions_app (l1 l2 : list Transaction) w :
  ProcessTransactions config (l1 ++ l2) w
  = (ProcessTransactions config l1 ≫= λ _, ProcessTransactions config l2) w.
Proof.
  revert w. induction l1 as [|tr l1 IH]; intros w; [done|].
  cbn [app ProcessTransactions].
  destruct (ProcessAccuRevTransaction config tr w) as [w1 [[]|e|c|]] eqn:E.
  - rewrite (bind_run_Ret _ _ _ _ _ E), IH.
    unfold mbind, M_bind. by rewrite E.
  - rewrite (bind_run_Raise _ _ _ _ _ E). unfold mbind, M_bind. by rewrite E.
  - rewrite (bind_run_Exit _ _ _ _ _ E). unfold mbind, M_bind. by rewrite E.
  - rewrite (bind_run_Diverge _ _ _ _ E). unfold mbind, M_bind. by rewrite E.
Qed.

Lemma Start_loop_done fuel maxT e c w :
  e - c ≤ maxT → Start_loop config fuel maxT e c w = (w, Ret c).
Proof. intros Hle. destruct fuel; simpl; by rewrite bool_decide_eq_false_2 by lia. Qed.

(** X20: the conversion processes nothing, and makes no call, when the last
    commit gives no resume point, in which case it returns 1, and when the
    end transaction is not above the resume point.  The latter is the case
    when the newest transaction is the resume point itself, and when the
    history query for the end transaction fails. *)
Theorem conversion_not_started (endTransaction : option string) w :
  (GetLastConvertedTransaction config w = (w, Ret None) →
   Start_convert config endTransaction w = (w, Ret (Some 1)))
  ∧ (∀ c, GetLastConvertedTransaction config w = (w, Ret (Some c)) →
          GetEndTransactionNumber endTransaction ≤ c →
          Start_convert config endTransaction w = (w, Ret None))
  ∧ (accurev_hist (Py.format_opt endTransaction +:+ ".1") None = None →
     GetEndTransactionNumber endTransaction = -1).
Proof.
  unfold Start_convert, Start_convert_with. split; [|split].
  - intros Hlast. by rewrite (bind_run_Ret _ _ _ _ _ Hlast).
  - intros c Hlast Hend. rewrite (bind_run_Ret _ _ _ _ _ Hlast).
    unfold Start_ranges.
    assert (∀ e, e ≤ c →
      (Start_ranges config maxTransactions e c;; mret None) w
      = (w, Ret (None : option Z))) as Hgen.
    { intros e He. unfold Start_ranges.
      erewrite bind_run_Ret; [done|].
      erewrite bind_run_Ret; [|apply Start_loop_done; unfold maxTransactions; lia].
      by rewrite bool_decide_eq_false_2 by lia. }
    by apply Hgen.
  - unfold GetEndTransactionNumber. by intros ->.
Qed.

Lemma ascending_cons (t : Transaction) history :
  ascending (t :: history) → ascending history ∧ ∀ t', t' ∈ history → id t < id t'.
Proof.
  intros Ha. split.
  - intros i j t1 t2 Hi Hj Hij. apply (Ha (S i) (S j)); [done..|lia].
  - intros t' [j Hj]%list_elem_of_lookup. apply (Ha 0%nat (S j)); [done..|lia].
Qed.

Lemma filter_none {A} (P : A → Prop) `{∀ x, Decision (P x)} (l : list A) :
  (∀ x, x ∈ l → ¬ P x) → filter P l = [].
Proof.
  induction l as [|x l IH]; intros Hl; [done|].
  rewrite filter_cons_False by (apply Hl; left).
  apply IH. intros y Hy. apply Hl. by right.
Qed.

Lemma filter_range_split (history : list Transaction) (c m e : Z) :
  ascending history → c ≤ m + 1 → m ≤ e →
  filter (λ t, c ≤ id t ≤ m) history ++ filter (λ t, m + 1 ≤ id t ≤ e) history
  = filter (λ t, c ≤ id t ≤ e) history.
Proof.
  intros Ha Hc Hm. induction history as [|t h IH]; [done|].
  apply ascending_cons in Ha as [Ha Hlt]. specialize (IH Ha).
  destruct (decide (c ≤ id t ≤ m)) as [Hlow|Hlow].
  - rewrite (filter_cons_True (λ t, c ≤ id t ≤ m)) by done.
    rewrite (filter_cons_False (λ t, m + 1 ≤ id t ≤ e)) by lia.
    rewrite (filter_cons_True (λ t, c ≤ id t ≤ e)) by lia.
    simpl. by rewrite IH.
  - rewrite (filter_cons_False (λ t, c ≤ id t ≤ m)) by done.
    destruct (decide (m + 1 ≤ id t ≤ e)) as [Hhigh|Hhigh].
    + rewrite (filter_cons_True (λ t, m + 1 ≤ id t ≤ e)) by done.
      rewrite (filter_cons_True (λ t, c ≤ id t ≤ e)) by lia.
      rewrite (filter_none (λ t, c ≤ id t ≤ m)) in IH |- *
        by (intros t' Ht'%Hlt; lia).
      simpl in *. by rewrite IH.
    + rewrite (filter_cons_False (λ t, m + 1 ≤ id t ≤ e)) by done.
      rewrite (filter_cons_False (λ t, c ≤ id t ≤ e)) by lia.
      done.
Qed.

Lemma ProcessAccuRevTransactionRange_run (history : list Transaction) (a b : Z) w :
  answers_ranges history → 0 ≤ a → 0 ≤ b →
  ProcessAccuRevTransactionRange config a b None w
  = (ProcessTransactions config (filter (λ t, a ≤ id t ≤ b) history);;
     mret (Py.len (filter (λ t, a ≤ id t ≤ b) history))) w.
Proof.
  intros Hh Ha Hb. unfold ProcessAccuRevTransactionRange. cbv zeta.
  by rewrite Hh.
Qed.

Lemma Start_loop_chunks (history : list Transaction) (maxT e : Z) (final : Z → M G unit) :
  answers_ranges history → ascending history → 0 < maxT →
  (∀ c w, 0 ≤ c → c < e → e - c ≤ maxT →
     final c w = ProcessTransactions config (filter (λ t, c ≤ id t ≤ e) history) w) →
  ∀ fuel c w, 0 ≤ c → c < e → e - c ≤ Z.of_nat fuel →
    (Start_loop config fuel maxT e c ≫= final) w
    = ProcessTransactions config (filter (λ t, c ≤ id t ≤ e) history) w.
Proof.
  intros Hh Ha Hpos Hfinal. induction fuel as [|fuel IH]; intros c w Hc Hce Hfuel.
  - lia.
  - destruct (decide (e - c ≤ maxT)) as [Hle|Hgt].
    { erewrite bind_run_Ret; [|by apply Start_loop_done]. by apply Hfinal. }
    cbn [Start_loop]. rewrite bool_decide_eq_true_2 by lia. cbv zeta.
    rewrite <-(filter_range_split history c (c + maxT - 1) e) by (done || lia).
    rewrite ProcessTransactions_app.
    replace (c + maxT - 1 + 1) with (c + maxT) by lia.
    set (chunk := filter (λ t, c ≤ id t ≤ c + maxT - 1) history).
    pose proof (ProcessAccuRevTransactionRange_run history c (c + maxT - 1) w Hh
                  ltac:(lia) ltac:(lia)) as Hrange.
    fold chunk in Hrange. rewrite bind_assoc_run.
    destruct (ProcessTransactions config chunk w) as [w1 [[]|x|x|]] eqn:E.
    + rewrite (bind_run_Ret _ _ _ _ _ E) in Hrange.
      rewrite (bind_run_Ret _ _ _ _ _ E), (bind_run_Ret _ _ _ _ _ Hrange).
      apply IH; lia.
    + rewrite (bind_run_Raise _ _ _ _ _ E) in Hrange.
      by rewrite (bind_run_Raise _ _ _ _ _ E), (bind_run_Raise _ _ _ _ _ Hrange).
    + rewrite (bind_run_Exit _ _ _ _ _ E) in Hrange.
      by rewrite (bind_run_Exit _ _ _ _ _ E), (bind_run_Exit _ _ _ _ _ Hrange).
    + rewrite (bind_run_Diverge _ _ _ _ E) in Hrange.
      by rewrite (bind_run_Diverge _ _ _ _ E), (bind_run_Diverge _ _ _ _ Hrange).
Qed.

(** X21: with a history command that answers a query for a range of
    transaction numbers with the transactions of the depot in that range, in
    ascending order, processing the transactions in chunks of
    [maxTransactions] is processing all transactions from the resume point
    to the end transaction in one go, each once and in order, for any chunk
    size above zero. *)
Theorem chunked_conversion (history : list Transaction) (maxT c e : Z) w :
  answers_ranges history → ascending history →
  0 < maxT → 0 ≤ c → c < e →
  Start_ranges config maxT e c w
  = ProcessTransactions config (filter (λ t, c ≤ id t ≤ e) history) w.
Proof.
  intros Hh Ha Hpos Hc Hce. unfold Start_ranges.
  apply (Start_loop_chunks history maxT e); [done..| |done|done|lia].
  intros c' w' Hc' Hlt Hle.
  rewrite bool_decide_eq_true_2 by lia.
  pose proof (ProcessAccuRevTransactionRange_run history c' e w' Hh
                ltac:(lia) ltac:(lia)) as Hrange.
  destruct (ProcessTransactions config _ w') as [w1 [[]|x|x|]] eqn:E.
  - rewrite (bind_run_Ret _ _ _ _ _ E) in Hrange.
    by rewrite (bind_run_Ret _ _ _ _ _ Hrange).
  - rewrite (bind_run_Raise _ _ _ _ _ E) in Hrange.
    by rewrite (bind_run_Raise _ _ _ _ _ Hrange).
  - rewrite (bind_run_Exit _ _ _ _ _ E) in Hrange.
    by rewrite (bind_run_Exit _ _ _ _ _ Hrange).
  - rewrite (bind_run_Diverge _ _ _ _ E) in Hrange.
    by rewrite (bind_run_Diverge _ _ _ _ Hrange).
Qed.

End DriverProperties.

Lemma chars_str_of_Z_nonneg (a : Z) :
  0 ≤ a → Py.chars (Py.str_of_Z a) = Py.digits_of_N (Z.to_N a).
Proof.
  intros Ha. unfold Py.str_of_Z, Py.chars_of_Z. rewrite chars_str.
  by destruct (Z.ltb_spec a 0); [lia|].
Qed.

Lemma parse_timeSpec_range (a b : Z) :
  0 ≤ a → 0 ≤ b →
  parse_timeSpec (Py.str_of_Z a +:+ "-" +:+ Py.str_of_Z b) = Some (a, Some b).
Proof.
  intros Ha Hb. unfold parse_timeSpec. cbv zeta.
  rewrite !chars_app, !chars_str_of_Z_nonneg by done.
  change (Py.chars "-") with ["-"%char]. simpl ([_] ++ _).
  rewrite digit_run_break by done.
  rewrite digit_run_digits by apply digits_of_N_digits.
  rewrite drop_app_length, !N_of_digits_of_N. simpl.
  by rewrite !Z2N.id.
Qed.

Lemma sim_hist_answers_ranges (history : list Transaction) :
  answers_ranges (H := sim_hist history) history.
Proof. intros a b Ha Hb. simpl. by rewrite parse_timeSpec_range. Qed.

Lemma ascending_789 : ascending [tx7; tx8; tx9].
Proof.
  intros [|[|[|i]]] [|[|[|j]]] t1 t2 Hi Hj Hij; simplify_eq/=; done || lia.
Qed.

Lemma chunked_conversion_witness :
  Start_ranges (H := sim_accurev depot7 true) (H0 := sim_hist [tx7; tx8; tx9])
    sim_config 1 9 7 sim_world
  = ProcessTransactions (H := sim_accurev depot7 true) sim_config
      (filter (λ t, 7 ≤ id t ≤ 9) [tx7; tx8; tx9]) sim_world.
Proof.
  apply (chunked_conversion (H := sim_accurev depot7 true) (H0 := sim_hist [tx7; tx8; tx9])
           sim_config [tx7; tx8; tx9] 1 7 9 sim_world).
  - apply sim_hist_answers_ranges.
  - apply ascending_789.
  - lia.
  - lia.
  - lia.
Defined.

Lemma conversion_not_started_witness :
  Start_convert (H := sim_accurev depot7 true) (H0 := sim_hist [tx7; tx8])
    sim_config (Some "8") run8.1 = (run8.1, Ret None).
Proof.
  apply (proj1 (proj2 (conversion_not_started (H := sim_accurev depot7 true)
                         (H0 := sim_hist [tx7; tx8]) sim_config (Some "8") run8.1)) 9).
  - vm_compute. reflexivity.
  - vm_compute. discriminate.
Defined.

(** ** The status table *)

Lemma build_infoDict_foldl (l : list InfoElem) (k : string) : ∀ acc : gmap string bool,
  foldl (λ infoDict infoElem,
           <[Py.replace_backslash (location infoElem) :=
               bool_decide ("(defunct)" ∈ statusList infoElem)]> infoDict) acc l !! k
  = match last (filter (λ e, Py.replace_backslash (location e) = k) l) with
    | Some e => Some (bool_decide ("(defunct)" ∈ statusList e))
    | None => acc !! k
    end.
Proof.
  induction l as [|e l IH]; intros acc; [done|]. simpl. rewrite IH.
  destruct (decide (Py.replace_backslash (location e) = k)) as [Hk|Hk].
  - rewrite filter_cons_True by done.
    destruct (filter _ l) as [|e' l'] eqn:E.
    + simpl. by rewrite Hk, lookup_insert_eq.
    + rewrite last_cons_cons.
      destruct (proj2 (last_is_Some (e' :: l'))) as [x ->]; done.
  - rewrite filter_cons_False by done.
    destruct (last (filter _ l)); [done|]. by rewrite lookup_insert_ne.
Qed.

(** X22: the status table that the classifier builds from the answer of the
    status query holds, for a path, whether the status list of the element
    with that location (backslashes read as slashes) holds ["(defunct)"];
    when the answer has several elements with the location the last one
    counts, and a path that is no location of the answer has no entry. *)
Theorem status_table_lookup (info : Info) (k : string) :
  build_infoDict info !! k
  = (λ e, bool_decide ("(defunct)" ∈ statusList e))
      <$> last (filter (λ e, Py.replace_backslash (location e) = k) (elements info)).
Proof.
  unfold build_infoDict. rewrite build_infoDict_foldl.
  by destruct (last _).
Qed.

(** ** Lists that fit the command line *)

Section ShortLists.
Context `{AccuRev} {G : Type} `{GitRepo G}.
Implicit Types (w : World G) (tr : Transaction).

(** X23: with at most [maxCmdItems] = 25 paths the commands get the paths
    themselves: the status query and the populate command are each one call
    with the element list, and no listing file is written or removed. *)
Theorem short_lists_passed_directly tr w :
  (∀ dirList elemList,
     collect_paths (versions tr) [] [] = Some (dirList, elemList) →
     0 < Py.len (dirList ++ elemList) ≤ 25 →
     let run := SplitElementsByStatusViaStat tr w in
     calls run.1 = calls w ++ [AccurevStat (GetTransactionDestStream tr) (id tr)
                                 (elementList (dirList ++ elemList))]
     ∧ files run.1 = files w)
  ∧ (∀ dstPath,
       Py.len (versions tr) ≤ 25 →
       let run := PopAccurevTransaction tr dstPath w in
       calls run.1 = calls w ++ [AccurevPop (GetTransactionDestStream tr) dstPath (id tr)
                                   (elementList (path <$> versions tr))]
       ∧ files run.1 = files w
       ∧ run.2 = Ret (accurev_pop (GetTransactionDestStream tr) dstPath (id tr)
                        (elementList (path <$> versions tr)) (files w))).
Proof.
  split.
  - intros dl el Hc [Hpos Hle]. cbv zeta.
    rewrite SplitElementsByStatusViaStat_run, Hc.
    rewrite bool_decide_eq_true_2 by done.
    unfold mbind, M_bind. rewrite stat_query_run. cbv zeta.
    rewrite bool_decide_eq_false_2 by (unfold maxCmdItems; lia).
    by rewrite split_by_info_run.
  - intros dst Hle. cbv zeta. rewrite PopAccurevTransaction_run. cbv zeta.
    by rewrite bool_decide_eq_false_2 by (unfold maxCmdItems; lia).
Qed.

End ShortLists.

Lemma short_lists_passed_directly_witness :
  let run := SplitElementsByStatusViaStat (H := sim_accurev depot100 true) tx100 sim_world in
  calls run.1 = calls sim_world ++ [AccurevStat (GetTransactionDestStream tx100) (id tx100)
                                      (elementList (["/./dir"] ++ ["/./dir/a.txt"; "/./dir"]))]
  ∧ files run.1 = files sim_world.
Proof.
  apply (proj1 (short_lists_passed_directly (H := sim_accurev depot100 true) (G := SimGit)
                  tx100 sim_world) ["/./dir"] ["/./dir/a.txt"; "/./dir"]).
  - vm_compute. reflexivity.
  - vm_compute. split; [reflexivity|discriminate].
Defined.

(** ** Defunct directories *)

Section DefunctDirectories.
Context {G : Type} `{GitRepo G}.
Implicit Types (w : World G).

Lemma rmList_calls_plain (vs : list Version) :
  rmList_calls vs
  = mjoin ((λ v, [RemoveDir (path v); GitAddUpdate])
             <$> filter (λ v, plain_directory v = true) vs).
Proof.
  induction vs as [|v vs IH]; [done|].
  unfold rmList_calls in *. rewrite bind_cons, IH. unfold plain_directory.
  destruct (dir v && negb (is_link v)) eqn:E.
  - by rewrite filter_cons_True by done.
  - by rewrite filter_cons_False by (by rewrite E).
Qed.

Lemma OnPromote_rmList_loop_repo (vs : list Version) : ∀ rmList w,
  repo (OnPromote_rmList_loop vs rmList w).1
  = Nat.iter (length (filter (λ v, plain_directory v = true) vs)) git_add_update (repo w).
Proof.
  induction vs as [|v vs IH]; intros rmList w; [done|].
  cbn [OnPromote_rmList_loop]. unfold plain_directory in *.
  destruct (dir v && negb (is_link v)) eqn:E.
  - rewrite filter_cons_True by done.
    unfold mbind at 1, M_bind at 1. simpl.
    unfold mbind at 1, M_bind at 1. simpl.
    rewrite IH. simpl. by rewrite <-Nat.iter_succ_r.
  - rewrite filter_cons_False by (by rewrite E). apply IH.
Qed.

(** X24: for every defunct version that is a directory and not a link, in
    the order of the versions, the handler removes the directory tree at the
    path of the version as the depot gives it (the path is not made local)
    and then stages the changes of tracked files ([git add -u]); it makes no
    other call while it computes the remove list, and writes no file. *)
Theorem defunct_directories_removed (defunct : Transaction) w :
  let run := OnPromote_rmList defunct w in
  let directories := filter (λ v, plain_directory v = true) (versions defunct) in
  calls run.1
  = calls w ++ mjoin ((λ v, [RemoveDir (path v); GitAddUpdate]) <$> directories)
  ∧ repo run.1 = Nat.iter (length directories) git_add_update (repo w)
  ∧ files run.1 = files w ∧ branchList run.1 = branchList w.
Proof.
  cbv zeta. split; [|split].
  - destruct (OnPromote_rmList_run defunct w) as [g ->]. simpl.
    by rewrite rmList_calls_plain.
  - apply OnPromote_rmList_loop_repo.
  - by destruct (OnPromote_rmList_run defunct w) as [g ->].
Qed.

End DefunctDirectories.

(** ** The commit of a promotion *)

Section CommitOfPromotion.
Context `{AccuRev} {G : Type} `{GitRepo G}.
Variable config : Config.
Implicit Types (w : World G) (tr : Transaction).

Lemma traced_GitCommit_calls P maxItems branch author date message addList rmList :
  (∀ b n, branch = Some b → P (GitCheckout b n)) →
  (∀ l, P (GitAdd l)) → (∀ l, P (GitRm l)) →
  P (GitCommitCall message author date) →
  traced (G:=G) P (GitCommit_with maxItems branch author date message addList rmList).
Proof.
  intros Hco Hadd Hrm Hcommit. unfold GitCommit_with.
  apply traced_bind.
  { destruct branch as [b|]; [|apply traced_ret].
    apply traced_bind; [|intros; apply traced_ret].
    apply traced_CheckoutBranch. intros n. by apply Hco. }
  intros _. apply traced_bind.
  { apply traced_batch_loop. intros l w. rewrite gitRepo_add_run. split; [|done].
    exists [GitAdd l]. split; [done|]. by constructor. }
  intros _. apply traced_bind.
  { apply traced_batch_loop. intros l w. rewrite gitRepo_rm_run. split; [|done].
    exists [GitRm l]. split; [done|]. by constructor. }
  intros _ w. rewrite gitRepo_commit_run. split; [|done].
  eexists [_]. split; [done|]. by constructor.
Qed.

Lemma traced_accurev_stat_query P tr l :
  (∀ c, is_accurev_call c = true → P c) → traced (G:=G) P (stat_query tr l).
Proof.
  intros HP w. rewrite stat_query_run. cbv zeta.
  case_bool_decide; (split; [|done]); eexists; (split; [done|]);
    repeat (apply Forall_cons_2; [by apply HP|]); apply Forall_nil_2.
Qed.

Lemma traced_accurev_Split P tr :
  (∀ c, is_accurev_call c = true → P c) →
  traced (G:=G) P (SplitElementsByStatusViaStat tr).
Proof.
  intros HP w. rewrite SplitElementsByStatusViaStat_run.
  destruct (collect_paths _ _ _) as [[dl el]|]; [|by apply (traced_diverge P)].
  case_bool_decide; [|by apply (traced_ret P)].
  apply traced_bind; [by apply traced_accurev_stat_query|].
  intros info w'. rewrite split_by_info_run. split.
  - exists []. by rewrite app_nil_r.
  - intros msg. simpl. destruct info as [info|]; [|done].
    pose proof (classify_versions_no_ValueError (build_infoDict info)
                  (versions tr) [] [] [] msg).
    destruct (classify_versions _ _ _ _ _) as [[[??]?]| | |]; naive_solver.
Qed.

Lemma traced_accurev_addList P member :
  (∀ c, is_accurev_call c = true → P c) →
  traced (G:=G) P (OnPromote_addList config member).
Proof.
  intros HP. unfold OnPromote_addList. case_bool_decide; [|apply traced_ret].
  apply traced_bind.
  - intros w. rewrite PopAccurevTransaction_run. cbv zeta.
    case_bool_decide; (split; [|done]); eexists; (split; [done|]);
      repeat (apply Forall_cons_2; [by apply HP|]); apply Forall_nil_2.
  - intros []; [apply traced_ret|apply traced_sys_exit].
Qed.

Lemma traced_rmList_calls P defunct :
  (∀ p, P (RemoveDir p)) → P GitAddUpdate →
  traced (G:=G) P (OnPromote_rmList defunct).
Proof.
  intros Hrm Hadd w. destruct (OnPromote_rmList_run defunct w) as [g ->].
  split; [|done]. eexists. split; [done|].
  induction (versions defunct) as [|v vs IH]; [done|].
  unfold rmList_calls in *. rewrite bind_cons. apply Forall_app. split; [|done].
  destruct (dir v && negb (is_link v)); [|done].
  apply Forall_cons_2; [done|]. by apply Forall_cons_2.
Qed.

(** X25: however a run of the promotion handler ends, every checkout that it
    makes is a checkout of the branch named like the destination stream of
    the transaction, and every commit that it makes carries the message of
    [AccurevComment2GitMessage], which is the comment followed by the tag of
    the transaction, the author of [AccurevUser2GitAuthor] and the time of
    the transaction as date. *)
Theorem commit_of_promotion tr (stream : string) w :
  GetTransactionDestStream tr = Some stream →
  let run := OnPromote config tr w in
  (∃ cs, calls run.1 = calls w ++ cs ∧ Forall (call_of_promotion config tr stream) cs)
  ∧ ∃ text, AccurevComment2GitMessage tr
            = text +:+ newline +:+ newline +:+ "[AccuRev Transaction #"
              +:+ Py.str_of_Z (id tr) +:+ "]".
Proof.
  intros Hst. cbv zeta. split; [|by eexists].
  set (P := call_of_promotion config tr stream).
  assert (∀ c, is_accurev_call c = true → P c) as HP by (by intros []).
  unfold OnPromote. case_bool_decide; [|exists []; by rewrite app_nil_r].
  rewrite Hst. destruct (negb _); [exists []; by rewrite app_nil_r|].
  destruct (SplitElementsByStatusViaStat tr w) as [w1 r] eqn:Hsplit.
  pose proof (traced_run P _ _ _ _ (traced_accurev_Split P tr HP) Hsplit)
    as [(cs1 & Hc1 & HF1) _].
  unfold mbind at 1, M_bind at 1. rewrite Hsplit.
  destruct r as [[a b|member defunct stranded]|e|c|]; try (by exists cs1).
  assert (traced (G:=G) P
    (addList ← OnPromote_addList config member;
     rmList ← OnPromote_rmList defunct;
     OnPromote_commit config tr (Some stream) addList rmList)) as Ht.
  { apply traced_bind; [by apply traced_accurev_addList|].
    intros addList. apply traced_bind; [by apply traced_rmList_calls|].
    intros rmList. unfold OnPromote_commit. destruct (_ || _); [|apply traced_ret].
    apply traced_bind.
    { apply traced_GitCommit_calls; try done. by intros b n [= <-]. }
    intros []; [apply traced_ret|].
    apply traced_bind; [apply traced_get|]. intros w'.
    destruct (git_lastError (repo w')); [|by apply traced_raise].
    destruct (Py.contains _ _); apply traced_ret. }
  destruct (Ht w1) as [(cs2 & Hc2 & HF2) _].
  exists (cs1 ++ cs2). rewrite Hc2, Hc1, <-app_assoc. split; [done|].
  by apply Forall_app.
Qed.

End CommitOfPromotion.

Lemma commit_of_promotion_witness :
  (∃ cs, calls run8.1 = calls sim_world ++ cs
         ∧ Forall (call_of_promotion sim_config tx8 "dev") cs)
  ∧ ∃ text, AccurevComment2GitMessage tx8
            = text +:+ newline +:+ newline +:+ "[AccuRev Transaction #"
              +:+ Py.str_of_Z (id tx8) +:+ "]".
Proof.
  apply (commit_of_promotion (H := sim_accurev depot7 true) sim_config tx8 "dev" sim_world).
  reflexivity.
Defined.

(** ** The configuration file *)

Lemma elem_of_omap_id {A} (x : A) (l : list (option A)) :
  x ∈ omap (λ y, y) l ↔ Some x ∈ l.
Proof.
  rewrite list_elem_of_omap. split.
  - by intros (y & Hy & ->).
  - intros Hx. by exists (Some x).
Qed.

(** X26: for a configuration read from a configuration file, the streams
    that are converted are all streams when the [accurev] element has no
    [stream-list] child, and otherwise the streams that are the text of a
    [stream] child of the first [stream-list] child, so that none is
    converted when that has no such child. *)
Theorem configured_streams (xmlRoot : XmlElement) (c : ConfigFile.Config) (cfg : Config) :
  ConfigFile.fromxmlroot xmlRoot = Some c →
  conversion_config c = Some cfg →
  ∃ accurevElement,
    xml_find "accurev" xmlRoot = Some accurevElement
    ∧ ∀ s : string,
        IsStreamAllowed cfg (Some s) = true ↔
        match xml_find "stream-list" accurevElement with
        | None => True
        | Some streamListElement =>
            ∃ e, e ∈ xml_children streamListElement
                 ∧ xml_tag e = "stream" ∧ xml_text e = Some s
        end.
Proof.
  unfold ConfigFile.fromxmlroot. case_bool_decide; [|done]. intros [= <-].
  unfold conversion_config. simpl.
  destruct (xml_find "accurev" xmlRoot) as [a|] eqn:Ha; [|done]. simpl.
  case_bool_decide; [|done]. simpl.
  destruct (ConfigFile.Git_fromxmlelement _) as [g|]; [|done]. simpl.
  intros [= <-]. exists a. split; [done|]. intros s.
  unfold IsStreamAllowed. simpl.
  destruct (xml_find "stream-list" a) as [sl|]; simpl; [|done].
  etrans; [apply bool_decide_eq_true|]. rewrite elem_of_omap_id, list_elem_of_fmap.
  unfold xml_findall. split.
  - intros (e & He & [Ht Hin]%list_elem_of_filter). by exists e.
  - intros (e & Hin & Ht & He). exists e. split; [done|].
    by apply list_elem_of_filter.
Qed.


Lemma configured_streams_witness :
  ∃ accurevElement,
    xml_find "accurev" example_config = Some accurevElement
    ∧ ∀ s : string,
        IsStreamAllowed example_cfg (Some s) = true ↔
        match xml_find "stream-list" accurevElement with
        | None => True
        | Some streamListElement =>
            ∃ e, e ∈ xml_children streamListElement
                 ∧ xml_tag e = "stream" ∧ xml_text e = Some s
        end.
Proof.
  eapply (configured_streams example_config).
  - reflexivity.
  - reflexivity.
Defined.

(** ** Failures *)

Section ProcessFailure.
Context `{AccuRev} {G : Type} `{GitRepo G}.
Variable config : Config.
Implicit Types (w : World G).

(** X27: the run does not go on after a transaction whose handler does not
    return: when it raises, when it ends the run, and when it does not
    terminate, that is how the processing of the transactions ends, in the
    state that the handler left, and no later transaction is processed. *)
Theorem failure_stops_processing (before after : list Transaction) (tr : Transaction)
    w w1 w2 (o : outcome unit) :
  ProcessTransactions config before w = (w1, Ret tt) →
  ProcessAccuRevTransaction config tr w1 = (w2, o) →
  o ≠ Ret tt →
  ProcessTransactions config (before ++ tr :: after) w = (w2, o).
Proof.
  intros Hbefore Htr Ho. rewrite ProcessTransactions_app.
  rewrite (bind_run_Ret _ _ _ _ _ Hbefore). cbn [ProcessTransactions].
  destruct o as [[]|e|c|]; [done| | |].
  - by rewrite (bind_run_Raise _ _ _ _ _ Htr).
  - by rewrite (bind_run_Exit _ _ _ _ _ Htr).
  - by rewrite (bind_run_Diverge _ _ _ _ Htr).
Qed.

End ProcessFailure.

Lemma failure_stops_processing_witness :
  ∃ w2,
    ProcessTransactions (H := sim_accurev depot7 false) sim_config
      ([tx_keep] ++ tx7 :: [tx8]) sim_world
    = (w2, Exit 1).
Proof.
  eexists.
  apply (failure_stops_processing (H := sim_accurev depot7 false) sim_config
           [tx_keep] [tx8] tx7 sim_world sim_world).
  - reflexivity.
  - vm_compute. reflexivity.
  - discriminate.
Defined.

(** ** Listing files *)

Section ListingFiles.
Context `{AccuRevCommands} {G : Type}.
Implicit Types (w : World G) (tr : Transaction).

(** C8 as the code has it: when the combined path set of the status query,
    or the element set of the populate call, has more than [maxCmdItems]
    entries, the command gets a listing file that holds them.  The file is
    removed after a command that returns, whatever it answers; when the
    command does not return, as when an exception escapes from it, the file
    is left where it is and the exception goes on. *)
Theorem listing_file_removed_on_return tr w :
  (∀ dirList elemList,
     collect_paths (versions tr) [] [] = Some (dirList, elemList) →
     maxCmdItems < Py.len (dirList ++ elemList) →
     let fullList := dirList ++ elemList in
     let listed := <[".stat_list" := fullList]> (files w) in
     let stream := GetTransactionDestStream tr in
     let command := stat_command stream (id tr) (listFile ".stat_list") listed in
     let run := SplitElementsByStatusViaStat' tr w in
     listed !! ".stat_list" = Some fullList
     ∧ (∀ info, command = Ret info →
          calls run.1 = calls w ++ [FileWrite ".stat_list" fullList;
                                    AccurevStat stream (id tr) (listFile ".stat_list");
                                    FileRemove ".stat_list"]
          ∧ files run.1 !! ".stat_list" = None
          ∧ run.2 = (split_by_info tr info w).2)
     ∧ ((∀ info, command ≠ Ret info) →
          calls run.1 = calls w ++ [FileWrite ".stat_list" fullList;
                                    AccurevStat stream (id tr) (listFile ".stat_list")]
          ∧ files run.1 !! ".stat_list" = Some fullList
          ∧ ∀ e, command = Raise e → run.2 = Raise e))
  ∧ (∀ dstPath,
       maxCmdItems < Py.len (versions tr) →
       let elemList := path <$> versions tr in
       let listed := <[".pop_list" := elemList]> (files w) in
       let stream := GetTransactionDestStream tr in
       let command := pop_command stream dstPath (id tr) (listFile ".pop_list") listed in
       let run := PopAccurevTransaction' tr dstPath w in
       listed !! ".pop_list" = Some elemList
       ∧ (∀ rv, command = Ret rv →
            calls run.1 = calls w ++ [FileWrite ".pop_list" elemList;
                                      AccurevPop stream dstPath (id tr)
                                        (listFile ".pop_list");
                                      FileRemove ".pop_list"]
            ∧ files run.1 !! ".pop_list" = None
            ∧ run.2 = Ret rv)
       ∧ ((∀ rv, command ≠ Ret rv) →
            calls run.1 = calls w ++ [FileWrite ".pop_list" elemList;
                                      AccurevPop stream dstPath (id tr)
                                        (listFile ".pop_list")]
            ∧ files run.1 !! ".pop_list" = Some elemList
            ∧ ∀ e, command = Raise e → run.2 = Raise e)).
Proof.
  split.
  - intros dl el Hc Hlen. cbv zeta.
    split; [by rewrite lookup_insert_eq|].
    unfold SplitElementsByStatusViaStat'. rewrite Hc. cbv zeta.
    rewrite bool_decide_eq_true_2 by done.
    cbv [mbind M_bind mret M_ret write_lines stat_command_call call get lift os_remove
         files branchList repo calls].
    destruct (stat_command _ _ _ _) as [info|e|c|] eqn:E.
    + split; [|by intros Hno; destruct (Hno info)].
      intros info' [= <-]. rewrite split_by_info_run. simpl.
      rewrite lookup_delete_eq, <-!app_assoc. split; [done|]. split; [done|].
      by rewrite split_by_info_run.
    + split; [done|]. intros _. simpl.
      rewrite lookup_insert_eq, <-!app_assoc. split; [done|]. split; [done|].
      by intros e' [= <-].
    + split; [done|]. intros _. simpl.
      by rewrite lookup_insert_eq, <-!app_assoc.
    + split; [done|]. intros _. simpl.
      by rewrite lookup_insert_eq, <-!app_assoc.
  - intros dst Hlen. cbv zeta.
    split; [by rewrite lookup_insert_eq|].
    unfold PopAccurevTransaction'. cbv zeta.
    rewrite bool_decide_eq_true_2 by done.
    cbv [mbind M_bind mret M_ret write_lines pop_command_call call get lift os_remove
         files branchList repo calls].
    destruct (pop_command _ _ _ _ _) as [rv|e|c|] eqn:E.
    + split; [|by intros Hno; destruct (Hno rv)].
      intros rv' [= <-]. simpl.
      by rewrite lookup_delete_eq, <-!app_assoc.
    + split; [done|]. intros _. simpl.
      rewrite lookup_insert_eq, <-!app_assoc. split; [done|]. split; [done|].
      by intros e' [= <-].
    + split; [done|]. intros _. simpl.
      by rewrite lookup_insert_eq, <-!app_assoc.
    + split; [done|]. intros _. simpl.
      by rewrite lookup_insert_eq, <-!app_assoc.
Qed.

End ListingFiles.

(** Over commands that always return, the two functions are those of the
    script above. *)
Lemma SplitElementsByStatusViaStat'_returning `{AccuRev} {G : Type} tr (w : World G) :
  SplitElementsByStatusViaStat' (H := returning_commands) tr w
  = SplitElementsByStatusViaStat tr w.
Proof.
  unfold SplitElementsByStatusViaStat', SplitElementsByStatusViaStat.
  destruct (collect_paths _ _ _) as [[dl el]|]; [|done].
  cbv zeta. by repeat case_bool_decide.
Qed.

Lemma PopAccurevTransaction'_returning `{AccuRev} {G : Type} tr dstPath (w : World G) :
  PopAccurevTransaction' (H := returning_commands) tr dstPath w
  = PopAccurevTransaction tr dstPath w.
Proof.
  unfold PopAccurevTransaction', PopAccurevTransaction. cbv zeta.
  by case_bool_decide.
Qed.

Lemma listing_file_removed_on_return_witness :
  let elemList := path <$> versions tx103 in
  let commands := returning_commands (H := sim_accurev depot103 false) in
  (let run := SplitElementsByStatusViaStat' (H := commands) tx103 sim_world in
   calls run.1 = calls sim_world ++ [FileWrite ".stat_list" elemList;
                                      AccurevStat (Some "dev") 103 (listFile ".stat_list");
                                      FileRemove ".stat_list"]
   ∧ files run.1 !! ".stat_list" = None)
  ∧ (let run := PopAccurevTransaction' (H := commands) tx103 (Some "/repo") sim_world in
     calls run.1 = calls sim_world ++ [FileWrite ".pop_list" elemList;
                                        AccurevPop (Some "dev") (Some "/repo") 103
                                          (listFile ".pop_list");
                                        FileRemove ".pop_list"]
     ∧ files run.1 !! ".pop_list" = None
     ∧ run.2 = Ret false).
Proof.
  cbv zeta. split.
  - assert (collect_paths (versions tx103) [] [] = Some ([], path <$> versions tx103))
      as Hc by (vm_compute; reflexivity).
    assert (maxCmdItems < Py.len ([] ++ (path <$> versions tx103)))
      as Hlen by (vm_compute; reflexivity).
    destruct (proj1 (listing_file_removed_on_return
                       (H := returning_commands (H := sim_accurev depot103 false))
                       tx103 sim_world)
                [] (path <$> versions tx103) Hc Hlen) as (_ & Hret & _).
    destruct (Hret _ eq_refl) as (Hcalls & Hfiles & _). by split.
  - assert (maxCmdItems < Py.len (versions tx103)) as Hlen by (vm_compute; reflexivity).
    destruct (proj2 (listing_file_removed_on_return
                       (H := returning_commands (H := sim_accurev depot103 false))
                       tx103 sim_world)
                (Some "/repo") Hlen) as (_ & Hret & _).
    exact (Hret false eq_refl).
Defined.

(** C8 as the spec words it fails for a command that raises: the status
    query of transaction 103, which has twenty-six paths, and its populate
    call get a listing file; the exception of the command goes on, and the
    listing file is still there afterwards. *)
Lemma listing_file_left_when_command_raises :
  let e := CommandError "accurev" in
  let elemList := path <$> versions tx103 in
  let query := SplitElementsByStatusViaStat' (H := raising_commands e) tx103 sim_world in
  let populate := PopAccurevTransaction' (H := raising_commands e) tx103 (Some "/repo")
                    sim_world in
  maxCmdItems < Py.len elemList
  ∧ query.2 = Raise e
  ∧ calls query.1 = [FileWrite ".stat_list" elemList;
                     AccurevStat (Some "dev") 103 (listFile ".stat_list")]
  ∧ files query.1 !! ".stat_list" = Some elemList
  ∧ populate.2 = Raise e
  ∧ calls populate.1 = [FileWrite ".pop_list" elemList;
                        AccurevPop (Some "dev") (Some "/repo") 103 (listFile ".pop_list")]
  ∧ files populate.1 !! ".pop_list" = Some elemList.
Proof. cbv zeta. repeat split; by vm_compute. Qed.
